(** * Miller-Rabin prime tester: a shallow embedding of the two C programs

    The repository holds two programs.  The first works on native
    [unsigned long long] values (module [Native]); the second is a 1024-bit
    variant on arrays of thirty-two 32-bit words (module [Big]).  Both draw
    their randomness from the C library's [rand]/[srand] and read the wall
    clock with [time]; these three library functions are not part of the
    repository and are taken as an interface ([Libc]).  What the programs
    read and print is in the modules [NativeIO] and [BigOutput]. *)

From Stdlib Require Import ZArith List Bool Lia Zdivisibility Zpow_facts Permutation
  Ascii.
Import ListNotations.
Local Open Scope Z_scope.

(** ** The C library interface *)

(** [rand] returns the next pseudo-random [int] together with the new state
    of the generator; [srand] installs the state that belongs to a seed. *)
Class Libc := {
  rng : Type;
  rand : rng -> Z * rng;
  srand : Z -> rng
}.

(** The sample generator of the ISO C standard (7.22.2), used wherever a
    statement has to be evaluated on a concrete run. *)
Definition iso_rand (next : Z) : Z * Z :=
  let next' := (next * 1103515245 + 12345) mod 2 ^ 32 in
  ((next' / 65536) mod 32768, next').

#[export] Instance iso_libc : Libc :=
  {| rng := Z; rand := iso_rand; srand := fun seed => seed mod 2 ^ 32 |}.

(** Conversions to the unsigned types: the low 32, respectively 64, bits
    are kept, so values wrap modulo the width ([u32_mod], [ull_mod]). *)
Definition u32 (x : Z) : Z := Z.land x 0xFFFFFFFF.
Definition ull (x : Z) : Z := Z.land x 0xFFFFFFFFFFFFFFFF.

(** The table of primes below 200, shared by both programs. *)
Definition small_primes : list Z :=
  [2;3;5;7;11;13;17;19;23;29;
   31;37;41;43;47;53;59;61;67;71;
   73;79;83;89;97;101;103;107;109;113;
   127;131;137;139;149;151;157;163;167;173;
   179;181;191;193;197;199].

Definition small_primes_count : Z := Z.of_nat (length small_primes).

(** ** The native-width program *)
Module Native.

Section WithLibc.
Context {L : Libc}.

(** [rand32]: two calls of [rand], sixteen bits kept of each. *)
Definition rand32 (s : rng) : Z * rng :=
  let (x, s1) := rand s in
  let r := Z.land (u32 x) 65535 in
  let (y, s2) := rand s1 in
  (Z.lor (u32 (Z.shiftl r 16)) (Z.land (u32 y) 65535), s2).

(** [rand_ull max]: a value in [[0, max)]; no draw at all when [max = 0].
    The two calls of [rand32] stand in one C expression; they are taken
    left to right. *)
Definition rand_ull (max : Z) (s : rng) : Z * rng :=
  if max =? 0 then (0, s)
  else
    let (hi, s1) := rand32 s in
    let (lo, s2) := rand32 s1 in
    (Z.lor (ull (Z.shiftl hi 32)) lo mod max, s2).

End WithLibc.

(** [mulmod]: the body of [while (b)], one iteration per unit of fuel.  The
    operand is shifted right once per iteration, so 64 iterations exhaust
    any 64-bit [b] ([LoopBounds.mulmod_loop_fuel]). *)
Fixpoint mulmod_loop (fuel : nat) (res a b m : Z) : Z :=
  match fuel with
  | O => res
  | S fuel' =>
      if b =? 0 then res
      else
        let res1 :=
          if Z.land b 1 =? 1
          then let r := ull (res + a) in if r >=? m then ull (r - m) else r
          else res in
        let a1 := ull (Z.shiftl a 1) in
        let a2 := if a1 >=? m then ull (a1 - m) else a1 in
        mulmod_loop fuel' res1 a2 (Z.shiftr b 1) m
  end.

Definition mulmod (a b m : Z) : Z :=
  mulmod_loop 64 0 (a mod m) b m mod m.

(** [powmod]: square and multiply on top of [mulmod]. *)
Fixpoint powmod_loop (fuel : nat) (res base exp m : Z) : Z :=
  match fuel with
  | O => res
  | S fuel' =>
      if exp =? 0 then res
      else
        let res1 := if Z.land exp 1 =? 1 then mulmod res base m else res in
        powmod_loop fuel' res1 (mulmod base base m) (Z.shiftr exp 1) m
  end.

Definition powmod (base exp m : Z) : Z :=
  powmod_loop 64 1 (base mod m) exp m.

(** [while ((d & 1) == 0) { d >>= 1; s++; }] *)
Fixpoint halve_loop (fuel : nat) (d s : Z) : Z * Z :=
  match fuel with
  | O => (d, s)
  | S fuel' =>
      if Z.land d 1 =? 0 then halve_loop fuel' (Z.shiftr d 1) (s + 1)
      else (d, s)
  end.

(** [for (r = 1; r < s; ++r)]: [cnt] is the number of iterations left. *)
Fixpoint square_loop (cnt : nat) (x n : Z) : bool :=
  match cnt with
  | O => false
  | S cnt' =>
      let x' := mulmod x x n in
      if x' =? ull (n - 1) then true else square_loop cnt' x' n
  end.

(** [miller_rabin_witness n a]: [true] is the C result 1 (the base passes),
    [false] is 0 (composite).  A modulus 0 divides by zero in C and is
    outside the model; for [n = 1] the function returns before the halving
    loop, which therefore always starts from [d > 0]. *)
Definition miller_rabin_witness (n a : Z) : bool :=
  if a mod n =? 0 then true
  else
    let (d, s) := halve_loop 64 (ull (n - 1)) 0 in
    let x := powmod a d n in
    if (x =? 1) || (x =? ull (n - 1)) then true
    else square_loop (Z.to_nat (s - 1)) x n.

(** The trial-division loop over the table: [Some true] when [n] equals a
    listed prime (the C code returns 1), [Some false] when a listed prime
    divides it (returns 0), [None] when the loop runs to its end. *)
Fixpoint small_prime_loop (ps : list Z) (n : Z) : option bool :=
  match ps with
  | [] => None
  | p :: ps' =>
      if p =? n then Some true
      else if n mod p =? 0 then Some false
      else small_prime_loop ps' n
  end.

Section WithLibc.
Context {L : Libc}.

(** The rounds of [is_probable_prime]: the first failing base returns. *)
Fixpoint rounds_loop (k : nat) (n : Z) (s : rng) : bool * rng :=
  match k with
  | O => (true, s)
  | S k' =>
      let (r, s1) := rand_ull (ull (n - 3)) s in
      let a := ull (2 + r) in
      if miller_rabin_witness n a then rounds_loop k' n s1
      else (false, s1)
  end.

Definition is_probable_prime (n k : Z) (s : rng) : bool * rng :=
  if n <? 2 then (false, s)
  else
    match small_prime_loop small_primes n with
    | Some b => (b, s)
    | None => rounds_loop (Z.to_nat k) n s
    end.

(** The rounds of [is_probable_prime_with_print]: every round is run and
    reported; the list is what is printed, one pair (base, verdict) per
    round. *)
Fixpoint print_rounds_loop (k : nat) (n : Z) (all_pass : bool) (s : rng)
  : bool * list (Z * bool) * rng :=
  match k with
  | O => (all_pass, [], s)
  | S k' =>
      let (a, s1) :=
        if n >? 4
        then let (r, s1) := rand_ull (ull (n - 3)) s in (ull (2 + r), s1)
        else (2, s) in
      let pass := miller_rabin_witness n a in
      let '(res, out, s2) :=
        print_rounds_loop k' n (if pass then all_pass else false) s1 in
      (res, (a, pass) :: out, s2)
  end.

Definition is_probable_prime_with_print (n k : Z) (s : rng)
  : bool * list (Z * bool) * rng :=
  if n <? 2 then (false, [], s)
  else
    match small_prime_loop small_primes n with
    | Some b => (b, [], s)
    | None => print_rounds_loop (Z.to_nat k) n true s
    end.

(** [gen_random_odd bits].  A shift of a 64-bit value by 64 or more is
    undefined in C; the model returns [None] there. *)
Definition shl_ull (x cnt : Z) : option Z :=
  if (0 <=? cnt) && (cnt <? 64) then Some (ull (Z.shiftl x cnt)) else None.

Definition gen_random_odd (bits : Z) (s : rng) : option (Z * rng) :=
  if bits <? 2 then Some (3, s)
  else
    match shl_ull 1 (bits - 1), shl_ull 1 bits with
    | Some high, Some top =>
        let range := ull (top - high) in
        let (r0, s1) := rand_ull range s in
        let r := ull (r0 + high) in
        Some (Z.lor r 1, s1)
    | _, _ => None
    end.

(** [generate_30bit_prime].  [clock i] is what the [i]-th call of [time]
    returns (call 0 is the one that sets [start]); the state of the loop is
    the generator, the number of clock readings made so far and [attempts].
    The function returns the accepted candidate and the attempt count; one
    unit of fuel is one iteration of [while (1)]. *)
Fixpoint search_loop (fuel : nat) (clock : nat -> Z) (start : Z)
    (tick : nat) (attempts : Z) (s : rng) : option (Z * Z) :=
  match fuel with
  | O => None
  | S fuel' =>
      let attempts := attempts + 1 in
      match gen_random_odd 30 s with
      | None => None
      | Some (candidate, s1) =>
          let divisible :=
            match small_prime_loop small_primes candidate with
            | Some false => true
            | _ => false
            end in
          if divisible then search_loop fuel' clock start tick attempts s1
          else
            let (ok, s2) := is_probable_prime candidate 10 s1 in
            if ok then Some (candidate, attempts)
            else
              let now := clock tick in
              if now - start >? 60
              then search_loop fuel' clock start (S (S tick)) attempts
                     (srand (u32 (u32 (clock (S tick)) + attempts)))
              else search_loop fuel' clock start (S tick) attempts s2
      end
  end.

Definition generate_30bit_prime (fuel : nat) (clock : nat -> Z) (s : rng)
  : option (Z * Z) :=
  search_loop fuel clock (clock 0%nat) 1 0 s.

End WithLibc.

End Native.

(** ** The 1024-bit program *)
Module Big.

(** A [bigint1024] is the array [words], least significant word first; the
    list has [WORDS_COUNT] entries, each an [unsigned int].  Loops that walk
    the array upwards are recursions on the list; loops that walk it
    downwards treat the tail of the list (the more significant words)
    first.  A structure is copied by value, so [bigint_copy] is the
    identity of the model. *)
Definition WORDS_COUNT : nat := 32.
Definition bigint1024 : Type := list Z.

(** The option monad carries "the loop did not finish within the fuel". *)
Definition bind {A B : Type} (m : option A) (k : A -> option B) : option B :=
  match m with
  | Some x => k x
  | None => None
  end.

Notation "x <- m ;; k" := (bind m (fun x => k))
  (at level 61, m at next level, right associativity).
Notation "' pat <- m ;; k" :=
  (bind m (fun x => match x with pat => k end))
  (at level 61, pat pattern, m at next level, right associativity).

Definition bigint_zero : bigint1024 := repeat 0 WORDS_COUNT.

Definition bigint_set_u32 (val : Z) : bigint1024 :=
  match bigint_zero with
  | [] => []
  | _ :: rest => u32 val :: rest
  end.

Definition bigint_is_zero (a : bigint1024) : bool :=
  forallb (fun w => w =? 0) a.

Definition bigint_is_one (a : bigint1024) : bool :=
  match a with
  | [] => false
  | w0 :: rest => (w0 =? 1) && forallb (fun w => w =? 0) rest
  end.

Definition bigint_is_even (a : bigint1024) : bool :=
  Z.land (nth 0 a 0) 1 =? 0.

(** [bigint_compare]: 1, 0 or -1; the most significant difference decides. *)
Fixpoint bigint_compare (a b : bigint1024) : Z :=
  match a, b with
  | x :: a', y :: b' =>
      let c := bigint_compare a' b' in
      if c =? 0 then (if x >? y then 1 else if x <? y then -1 else 0) else c
  | _, _ => 0
  end.

Definition bigint_gte (a b : bigint1024) : bool := bigint_compare a b >=? 0.

(** [words[i] := f words[i]] *)
Fixpoint upd_word (i : nat) (f : Z -> Z) (a : bigint1024) : bigint1024 :=
  match a, i with
  | [], _ => []
  | w :: rest, O => f w :: rest
  | w :: rest, S i' => w :: upd_word i' f rest
  end.

(** [bigint_shl_one]: the carry goes from each word to the next one up. *)
Fixpoint shl_loop (a : bigint1024) (carry : Z) : bigint1024 :=
  match a with
  | [] => []
  | w :: rest =>
      let next_carry := Z.shiftr w 31 in
      Z.lor (u32 (Z.shiftl w 1)) carry :: shl_loop rest next_carry
  end.

Definition bigint_shl_one (a : bigint1024) : bigint1024 := shl_loop a 0.

(** [bigint_shr_one]: the carry comes down from the word above; the second
    component is the carry that leaves the word. *)
Fixpoint shr_loop (a : bigint1024) : bigint1024 * Z :=
  match a with
  | [] => ([], 0)
  | w :: rest =>
      let (rest', carry) := shr_loop rest in
      (Z.lor (Z.shiftr w 1) (u32 (Z.shiftl carry 31)) :: rest', Z.land w 1)
  end.

Definition bigint_shr_one (a : bigint1024) : bigint1024 := fst (shr_loop a).

(** [bigint_add]: the sum and the carry out of the top word. *)
Fixpoint add_loop (a b : bigint1024) (sum : Z) : bigint1024 * Z :=
  match a, b with
  | x :: a', y :: b' =>
      let sum1 := ull (ull (sum + x) + y) in
      let (c, out) := add_loop a' b' (Z.shiftr sum1 32) in
      (u32 sum1 :: c, out)
  | _, _ => ([], u32 sum)
  end.

Definition bigint_add (a b : bigint1024) : bigint1024 * Z := add_loop a b 0.

(** [bigint_sub]: the difference is taken in 64 bits and wraps; bit 32 of
    it is the borrow. *)
Fixpoint sub_loop (a b : bigint1024) (borrow : Z) : bigint1024 :=
  match a, b with
  | x :: a', y :: b' =>
      let diff := ull (ull (x - y) - borrow) in
      u32 diff :: sub_loop a' b' (Z.land (Z.shiftr diff 32) 1)
  | _, _ => []
  end.

Definition bigint_sub (a b : bigint1024) : bigint1024 := sub_loop a b 0.

(** [bigint_mul].  [temp] is the 64-entry buffer.  Row [i] of the
    schoolbook product works on [temp[i ..]]: [mul_row] is the inner loop
    over [j] followed by [temp[i + WORDS_COUNT] = carry], and [mul_rows]
    is the outer loop, which leaves [temp[i]] behind and goes on with
    [temp[i+1 ..]].  Only the low [WORDS_COUNT] words are copied out. *)
Fixpoint mul_row (ai : Z) (b temp : list Z) (carry : Z) : list Z :=
  match b, temp with
  | bj :: b', t :: temp' =>
      let product := ull (ull (ull (ai * bj) + t) + carry) in
      Z.land product 4294967295 :: mul_row ai b' temp' (Z.shiftr product 32)
  | [], _ :: temp' => carry :: temp'
  | _, [] => []
  end.

Fixpoint mul_rows (a b temp : list Z) : list Z :=
  match a with
  | [] => temp
  | ai :: a' =>
      match mul_row ai b temp 0 with
      | [] => []
      | t0 :: temp' => t0 :: mul_rows a' b temp'
      end
  end.

Definition bigint_mul (a b : bigint1024) : bigint1024 :=
  let temp := mul_rows a b (repeat 0 (WORDS_COUNT * 2)) in
  map u32 (firstn WORDS_COUNT temp).

(** [bigint_mod_mul]: the first loop shifts the modulus up until it is no
    longer below the product, the second walks the shift count back down
    ([cnt = shift + 1] iterations). *)
Fixpoint align_loop (fuel : nat) (n_shifted rem : bigint1024) (shift : nat)
  : option (bigint1024 * nat) :=
  match fuel with
  | O => None
  | S fuel' =>
      if bigint_compare n_shifted rem <? 0
      then align_loop fuel' (bigint_shl_one n_shifted) rem (S shift)
      else Some (n_shifted, shift)
  end.

Fixpoint reduce_loop (cnt : nat) (rem n_shifted : bigint1024) : bigint1024 :=
  match cnt with
  | O => rem
  | S cnt' =>
      let rem1 :=
        if bigint_compare rem n_shifted >=? 0
        then bigint_sub rem n_shifted else rem in
      reduce_loop cnt' rem1 (bigint_shr_one n_shifted)
  end.

Definition bigint_mod_mul (fuel : nat) (a b n : bigint1024)
  : option bigint1024 :=
  let prod := bigint_mul a b in
  '(n_shifted, shift) <- align_loop fuel n prod 0 ;;
  Some (reduce_loop (S shift) prod n_shifted).

(** [bigint_mod_exp]: the exponent loses a bit per iteration, so 1024
    iterations exhaust it; the fuel is for the multiplications. *)
Fixpoint mod_exp_loop (cnt fuel : nat) (result b e m : bigint1024)
  : option bigint1024 :=
  match cnt with
  | O => Some result
  | S cnt' =>
      if bigint_is_zero e then Some result
      else
        result1 <- (if Z.land (nth 0 e 0) 1 =? 1
                    then bigint_mod_mul fuel result b m
                    else Some result) ;;
        b1 <- bigint_mod_mul fuel b b m ;;
        mod_exp_loop cnt' fuel result1 b1 (bigint_shr_one e) m
  end.

Definition bigint_mod_exp (fuel : nat) (base exp m : bigint1024)
  : option bigint1024 :=
  mod_exp_loop (WORDS_COUNT * 32) fuel (bigint_set_u32 1) base exp m.

(** [bigint_divisible_by_small_prime]: Horner's rule from the top word. *)
Fixpoint horner_rem (a : bigint1024) (p : Z) : Z :=
  match a with
  | [] => 0
  | w :: rest => Z.lor (ull (Z.shiftl (horner_rem rest p) 32)) w mod p
  end.

Definition bigint_divisible_by_small_prime (a : bigint1024) (p : Z) : bool :=
  horner_rem a p =? 0.

(** [while (bigint_compare(&temp, n) >= 0) bigint_sub(&temp, &temp, n);] *)
Fixpoint subtract_loop (fuel : nat) (temp n : bigint1024)
  : option bigint1024 :=
  match fuel with
  | O => None
  | S fuel' =>
      if bigint_compare temp n >=? 0
      then subtract_loop fuel' (bigint_sub temp n) n
      else Some temp
  end.

(** [while (bigint_is_even(&d)) { bigint_shr_one(&d); s++; }] *)
Fixpoint halve_loop (fuel : nat) (d : bigint1024) (s : nat)
  : option (bigint1024 * nat) :=
  match fuel with
  | O => None
  | S fuel' =>
      if bigint_is_even d then halve_loop fuel' (bigint_shr_one d) (S s)
      else Some (d, s)
  end.

(** [for (r = 1; r < s; r++)] *)
Fixpoint square_loop (cnt fuel : nat) (x n n_minus_1 : bigint1024)
  : option bool :=
  match cnt with
  | O => Some false
  | S cnt' =>
      x1 <- bigint_mod_mul fuel x x n ;;
      if bigint_compare x1 n_minus_1 =? 0 then Some true
      else square_loop cnt' fuel x1 n n_minus_1
  end.

(** [miller_rabin_witness_1024 n a].  The function receives [a] through a
    pointer and stores the reduced base through it, so the result carries
    the contents of the caller's [a] after the call next to the verdict. *)
Definition miller_rabin_witness_1024 (fuel : nat) (n a : bigint1024)
  : option (bool * bigint1024) :=
  reduced <-
    (if bigint_compare a n >=? 0
     then temp <- subtract_loop fuel a n ;;
          Some (if bigint_is_zero temp then None else Some temp)
     else Some (Some a)) ;;
  match reduced with
  | None => Some (true, a)
  | Some a1 =>
      let one := bigint_set_u32 1 in
      let n_minus_1 := bigint_sub n one in
      '(d, s) <- halve_loop fuel n_minus_1 0 ;;
      x <- bigint_mod_exp fuel a1 d n ;;
      if bigint_is_one x || (bigint_compare x n_minus_1 =? 0)
      then Some (true, a1)
      else
        r <- square_loop (s - 1) fuel x n n_minus_1 ;;
        Some (r, a1)
  end.

Section WithLibc.
Context {L : Libc}.

(** [bigint_rand]: two calls of [rand] per word, taken left to right. *)
Fixpoint rand_words (cnt : nat) (s : rng) : bigint1024 * rng :=
  match cnt with
  | O => ([], s)
  | S cnt' =>
      let (x, s1) := rand s in
      let (y, s2) := rand s1 in
      let w := Z.lxor (u32 (Z.shiftl (u32 x) 16)) (u32 y) in
      let (rest, s3) := rand_words cnt' s2 in
      (w :: rest, s3)
  end.

Definition bigint_rand (s : rng) : bigint1024 * rng :=
  rand_words WORDS_COUNT s.

Definition bigint_rand_odd_1024 (s : rng) : bigint1024 * rng :=
  let (a, s1) := bigint_rand s in
  let a1 := upd_word (WORDS_COUNT - 1) (fun w => Z.lor w 2147483648) a in
  (upd_word 0 (fun w => Z.lor w 1) a1, s1).

(** [bigint_rand_range]: a base in [[2, n-2]]. *)
Definition bigint_rand_range (fuel : nat) (n : bigint1024) (s : rng)
  : option (bigint1024 * rng) :=
  let n_minus_3 := bigint_sub n (bigint_set_u32 3) in
  let (a, s1) := bigint_rand s in
  temp <- subtract_loop fuel a n_minus_3 ;;
  Some (fst (bigint_add temp (bigint_set_u32 2)), s1).

(** The trial divisions of [is_probable_prime_1024]. *)
Fixpoint small_prime_loop (ps : list Z) (n : bigint1024) : option bool :=
  match ps with
  | [] => None
  | p :: ps' =>
      if bigint_divisible_by_small_prime n p
      then Some (bigint_compare n (bigint_set_u32 p) =? 0)
      else small_prime_loop ps' n
  end.

Fixpoint rounds_loop (rounds fuel : nat) (n : bigint1024) (s : rng)
  : option (bool * rng) :=
  match rounds with
  | O => Some (true, s)
  | S rounds' =>
      '(a, s1) <- bigint_rand_range fuel n s ;;
      '(pass, _) <- miller_rabin_witness_1024 fuel n a ;;
      if pass then rounds_loop rounds' fuel n s1 else Some (false, s1)
  end.

Definition is_probable_prime_1024 (fuel : nat) (n : bigint1024)
    (rounds : Z) (s : rng) : option (bool * rng) :=
  match small_prime_loop small_primes n with
  | Some b => Some (b, s)
  | None => rounds_loop (Z.to_nat rounds) fuel n s
  end.

(** [generate_1024bit_prime]: the accepted candidate and the attempt count.
    [display_progress] reads the clock on every hundredth attempt, and the
    acceptance path reads it once more; every thousandth failed attempt
    reseeds the generator from the clock. *)
Fixpoint search_loop (iters fuel : nat) (clock : nat -> Z) (tick : nat)
    (attempts : Z) (s : rng) : option (bigint1024 * Z) :=
  match iters with
  | O => None
  | S iters' =>
      let attempts := attempts + 1 in
      let tick1 := if attempts mod 100 =? 0 then S tick else tick in
      let (candidate, s1) := bigint_rand_odd_1024 s in
      if existsb (bigint_divisible_by_small_prime candidate) small_primes
      then search_loop iters' fuel clock tick1 attempts s1
      else
        '(ok, s2) <- is_probable_prime_1024 fuel candidate 10 s1 ;;
        if ok then Some (candidate, attempts)
        else if attempts mod 1000 =? 0
        then search_loop iters' fuel clock (S tick1) attempts
               (srand (u32 (u32 (clock tick1) + attempts)))
        else search_loop iters' fuel clock tick1 attempts s2
  end.

Definition generate_1024bit_prime (iters fuel : nat) (clock : nat -> Z)
    (s : rng) : option (bigint1024 * Z) :=
  search_loop iters fuel clock 1 0 s.

End WithLibc.

(** The integer a [bigint1024] stands for. *)
Fixpoint bigint_val (a : bigint1024) : Z :=
  match a with
  | [] => 0
  | w :: rest => w + 2 ^ 32 * bigint_val rest
  end.

(** The words of an integer, least significant first. *)
Fixpoint words_of (cnt : nat) (x : Z) : bigint1024 :=
  match cnt with
  | O => []
  | S cnt' => x mod 2 ^ 32 :: words_of cnt' (x / 2 ^ 32)
  end.

Definition bigint_of_Z (x : Z) : bigint1024 := words_of WORDS_COUNT x.

(** Well-formed values: [WORDS_COUNT] words, each within 32 bits. *)
Definition wf (a : bigint1024) : Prop :=
  length a = WORDS_COUNT /\ Forall (fun w => 0 <= w < 2 ^ 32) a.

End Big.

(** ** The interactive part of the native program *)
Module NativeIO.

(** What the program prints, message by message.  [Menu] is the menu with
    its prompt, [BaseLine i a pass] the line of round [i] of
    [is_probable_prime_with_print], [Found bits attempts seconds p] the two
    lines that announce a prime, and [Saved p] stands for the line written
    to [prime.txt] together with its confirmation on the screen. *)
Inductive event : Type :=
| Menu
| InvalidChoice
| Prompt
| Testing (n : Z)
| EqualsSmallPrime (p : Z)
| DivisibleBySmallPrime (p : Z)
| BaseLine (i a : Z) (pass : bool)
| Overall (result : bool)
| Found (bits attempts seconds p : Z)
| Saved (p : Z)
| SaveFailed.

Fixpoint base_lines (i : Z) (out : list (Z * bool)) : list event :=
  match out with
  | [] => []
  | (a, pass) :: out' => BaseLine i a pass :: base_lines (i + 1) out'
  end.

(** The trial-division loop of [check_input_hex], which reports the prime
    that decides. *)
Fixpoint input_sieve (ps : list Z) (n : Z) : option event :=
  match ps with
  | [] => None
  | p :: ps' =>
      if p =? n then Some (EqualsSmallPrime p)
      else if n mod p =? 0 then Some (DivisibleBySmallPrime p)
      else input_sieve ps' n
  end.

Section WithLibc.
Context {L : Libc}.

(** [check_input_hex].  [input] is [None] when [fgets] fails, and otherwise
    the number that [strtoull] reads from the line. *)
Definition check_input_hex (input : option Z) (s : rng) : list event * rng :=
  match input with
  | None => ([Prompt], s)
  | Some n =>
      match input_sieve small_primes n with
      | Some line => ([Prompt; Testing n; line], s)
      | None =>
          let '(result, out, s1) := Native.is_probable_prime_with_print n 10 s in
          ([Prompt; Testing n] ++ base_lines 1 out ++ [Overall result], s1)
      end
  end.

End WithLibc.

(** The standard input is the list of the character codes still to be
    read.  [getchar] returns -1 ([EOF]) at its end, and goes on doing so. *)
Definition getchar (stdin : list Z) : Z * list Z :=
  match stdin with
  | [] => (-1, [])
  | c :: rest => (c, rest)
  end.

(** [while (getchar() != '\n' && !feof(stdin));] *)
Fixpoint skip_line (stdin : list Z) : list Z :=
  match stdin with
  | [] => []
  | c :: rest => if c =? 10 then rest else skip_line rest
  end.

(** [fgets (buf, size, stdin)]: at most [size - 1] characters, up to and
    including the end of the line; no line at all at the end of the
    input. *)
Fixpoint read_line (cnt : nat) (stdin : list Z) : list Z * list Z :=
  match cnt, stdin with
  | S cnt', c :: rest =>
      if c =? 10 then ([c], rest)
      else let (line, rest') := read_line cnt' rest in (c :: line, rest')
  | _, _ => ([], stdin)
  end.

Definition fgets (size : nat) (stdin : list Z) : option (list Z) * list Z :=
  match stdin with
  | [] => (None, [])
  | _ :: _ => let (line, rest) := read_line (size - 1) stdin in (Some line, rest)
  end.

Section WithEnvironment.
Context {L : Libc}.

(** What the program takes from its environment besides [rand]: the number
    that [strtoull] reads from a line, the readings of [time] in the order
    of the calls, and whether the [k]-th [fopen] succeeds. *)
Variable strtoull : list Z -> Z.
Variable clock : nat -> Z.
Variable fopen_ok : nat -> bool.

(** The search of [generate_30bit_prime] once more, this time with the
    state it leaves behind: the generator and the number of clock readings
    made ([Native.search_loop] returns the first two components). *)
Fixpoint search_run (fuel : nat) (start : Z) (tick : nat) (attempts : Z)
    (s : rng) : option (Z * Z * rng * nat) :=
  match fuel with
  | O => None
  | S fuel' =>
      let attempts := attempts + 1 in
      match Native.gen_random_odd 30 s with
      | None => None
      | Some (candidate, s1) =>
          let divisible :=
            match Native.small_prime_loop small_primes candidate with
            | Some false => true
            | _ => false
            end in
          if divisible then search_run fuel' start tick attempts s1
          else
            let (ok, s2) := Native.is_probable_prime candidate 10 s1 in
            if ok then Some (candidate, attempts, s2, tick)
            else
              let now := clock tick in
              if now - start >? 60
              then search_run fuel' start (S (S tick)) attempts
                     (srand (u32 (u32 (clock (S tick)) + attempts)))
              else search_run fuel' start (S tick) attempts s2
      end
  end.

(** [main]: one unit of [fuel] is one turn of the menu loop, [iters] bounds
    every search.  The result is what has been printed when [main]
    returns. *)
Fixpoint main_loop (fuel iters : nat) (stdin : list Z) (s : rng)
    (tick files : nat) : option (list event) :=
  match fuel with
  | O => None
  | S fuel' =>
      let (c, stdin1) := getchar stdin in
      let stdin2 := skip_line stdin1 in
      if c =? 49 then
        let (line, stdin3) := fgets 256 stdin2 in
        let (out, s1) := check_input_hex (option_map strtoull line) s in
        option_map (fun rest => Menu :: out ++ rest)
          (main_loop fuel' iters stdin3 s1 tick files)
      else if c =? 50 then
        match search_run iters (clock tick) (S tick) 0 s with
        | None => None
        | Some (p, attempts, s1, tick1) =>
            let seconds := clock tick1 - clock tick in
            let saved := if fopen_ok files then Saved p else SaveFailed in
            option_map
              (fun rest => Menu :: Found 30 attempts seconds p :: saved :: rest)
              (main_loop fuel' iters stdin2 s1 (S tick1) (S files))
        end
      else if c =? 51 then Some [Menu]
      else
        option_map (fun rest => Menu :: InvalidChoice :: rest)
          (main_loop fuel' iters stdin2 s tick files)
  end.

Definition main (fuel iters : nat) (stdin : list Z) : option (list event) :=
  main_loop fuel iters stdin (srand (u32 (clock 0%nat))) 1 0.

End WithEnvironment.
End NativeIO.

(** ** The output of the 1024-bit program *)
Module BigOutput.
Import Big.

(** The conversions of the C library that [bigint_to_hex] uses.  [%08x]
    prints the eight hexadecimal digits of an [unsigned int], [%x] prints
    them without leading zeros. *)
Definition hex_digit (d : Z) : ascii :=
  nth (Z.to_nat d)
    ["0"; "1"; "2"; "3"; "4"; "5"; "6"; "7";
     "8"; "9"; "a"; "b"; "c"; "d"; "e"; "f"]%char "0"%char.

Fixpoint hex_fixed (cnt : nat) (w : Z) : list ascii :=
  match cnt with
  | O => []
  | S cnt' => hex_fixed cnt' (Z.shiftr w 4) ++ [hex_digit (Z.land w 15)]
  end.

Fixpoint strip_zeros (l : list ascii) : list ascii :=
  match l with
  | [] => []
  | c :: rest =>
      match rest with
      | [] => l
      | _ :: _ => if (c =? "0")%char then strip_zeros rest else l
      end
  end.

Definition fmt_08x (w : Z) : list ascii := hex_fixed 8 w.
Definition fmt_x (w : Z) : list ascii := strip_zeros (hex_fixed 8 w).

(** [snprintf (buf + pos, size, ...)] for the text [text].  [str] is the
    string the buffer holds; the call stores at most [size - 1] characters
    behind the first [pos] ones and returns the full length of the text.
    With [size = 0] nothing is stored.  A negative [size] reaches the
    library as a huge unsigned value, so that the text is stored past the
    end of the buffer: the model has no result there. *)
Definition snprintf (str : list ascii) (pos size : Z) (text : list ascii)
  : option (list ascii * Z) :=
  if size <? 0 then None
  else if size =? 0 then Some (str, Z.of_nat (length text))
  else Some (firstn (Z.to_nat pos) str ++ firstn (Z.to_nat (size - 1)) text,
             Z.of_nat (length text)).

(** [bigint_to_hex]: the loop runs from the top word down, so it is a
    recursion on the reversed list of words. *)
Fixpoint to_hex_loop (ws : list Z) (buf_size : Z) (str : list ascii)
    (pos : Z) (leading_zero : bool) : option (list ascii * Z * bool) :=
  match ws with
  | [] => Some (str, pos, leading_zero)
  | w :: ws' =>
      if leading_zero && (w =? 0)
      then to_hex_loop ws' buf_size str pos leading_zero
      else
        '(str1, n) <- snprintf str pos (buf_size - pos)
                        (if leading_zero then fmt_x w else fmt_08x w) ;;
        to_hex_loop ws' buf_size str1 (pos + n) false
  end.

Definition bigint_to_hex (a : bigint1024) (str : list ascii) (buf_size : Z)
  : option (list ascii) :=
  '(str1, _, leading_zero) <- to_hex_loop (rev a) buf_size str 0 true ;;
  if leading_zero
  then '(str2, _) <- snprintf str1 0 buf_size ["0"%char] ;; Some str2
  else Some str1.

(** The bit count that [generate_1024bit_prime] prints: four bits for every
    hexadecimal digit of the string. *)
Definition char_between (lo hi c : ascii) : bool :=
  (N_of_ascii lo <=? N_of_ascii c)%N && (N_of_ascii c <=? N_of_ascii hi)%N.

Fixpoint bit_count_loop (s : list ascii) (bit_count : Z) : Z :=
  match s with
  | [] => bit_count
  | c :: s' =>
      bit_count_loop s'
        (if char_between "0" "9" c then bit_count + 4
         else if char_between "a" "f" c then bit_count + 4
         else if char_between "A" "F" c then bit_count + 4
         else bit_count)
  end.

Definition bit_count (s : list ascii) : Z := bit_count_loop s 0.

End BigOutput.

(** ** Definitions used by the proofs *)

(** The nonzero residues [1 .. p-1] and the product of a list. *)
Definition residues (p : Z) : list Z :=
  map Z.of_nat (seq 1 (Z.to_nat (p - 1))).

Definition prodZ (l : list Z) : Z := fold_right Z.mul 1 l.

(** The modulus after [k] further left shifts, and the list of the values
    it takes on the way. *)
Fixpoint shl_iter (k : nat) (a : Big.bigint1024) : Big.bigint1024 :=
  match k with
  | O => a
  | S k' => shl_iter k' (Big.bigint_shl_one a)
  end.

Fixpoint shl_orbit (k : nat) (a : Big.bigint1024) : list Big.bigint1024 :=
  match k with
  | O => [a]
  | S k' => a :: shl_orbit k' (Big.bigint_shl_one a)
  end.

(** The generator after [j] rounds of [is_probable_prime n], and the base
    drawn in round [j] (rounds are counted from 0). *)
Fixpoint state_after {L : Libc} (j : nat) (n : Z) (s : rng) : rng :=
  match j with
  | O => s
  | S j' => state_after j' n (snd (Native.rand_ull (ull (n - 3)) s))
  end.

Definition round_base {L : Libc} (j : nat) (n : Z) (s : rng) : Z :=
  ull (2 + fst (Native.rand_ull (ull (n - 3)) (state_after j n s))).

(** Words that fit 32 bits. *)
Definition limbs_ok (a : Big.bigint1024) : Prop :=
  Forall (fun w => 0 <= w < 2 ^ 32) a.

(** The weight of a list of words: [2^(32 * length)]. *)
Definition weight (a : Big.bigint1024) : Z := 2 ^ (32 * Z.of_nat (length a)).

(** The generator after [j] rounds of [is_probable_prime_1024], and the
    verdict of round [j]: [None] when the round does not finish within the
    fuel. *)
Fixpoint big_state_after {L : Libc} (j : nat) (s : rng) : rng :=
  match j with
  | O => s
  | S j' => big_state_after j' (snd (Big.bigint_rand s))
  end.

Definition big_round_verdict {L : Libc} (fuel j : nat) (n : Big.bigint1024)
    (s : rng) : option bool :=
  match Big.bigint_rand_range fuel n (big_state_after j s) with
  | Some (a, _) => option_map fst (Big.miller_rabin_witness_1024 fuel n a)
  | None => None
  end.

(** The verdict a report ends with. *)
Definition verdict_of (out : list NativeIO.event) : option bool :=
  match last out NativeIO.Prompt with
  | NativeIO.EqualsSmallPrime _ => Some true
  | NativeIO.DivisibleBySmallPrime _ => Some false
  | NativeIO.Overall b => Some b
  | _ => None
  end.

(** The number a string of hexadecimal digits denotes. *)
Definition hex_digit_val (c : ascii) : Z :=
  let n := Z.of_N (N_of_ascii c) in
  if n <=? 57 then n - 48 else n - 87.

Definition hex_val_from (acc : Z) (s : list ascii) : Z :=
  fold_left (fun acc c => 16 * acc + hex_digit_val c) s acc.

Definition hex_val (s : list ascii) : Z := hex_val_from 0 s.

(** A lower-case hexadecimal digit. *)
Definition is_hex_digit (c : ascii) : bool :=
  BigOutput.char_between "0" "9" c || BigOutput.char_between "a" "f" c.

(** The value of a list of words given most significant word first, and
    such a list without its leading zero words. *)
Definition val_from (acc : Z) (ws : list Z) : Z :=
  fold_left (fun acc w => 2 ^ 32 * acc + w) ws acc.

Fixpoint skip_zero_words (ws : list Z) : list Z :=
  match ws with
  | [] => []
  | w :: ws' => if w =? 0 then skip_zero_words ws' else ws
  end.

(** * Theorems *)

(** [lia] after the divisions and remainders of the goal are turned into
    their defining equations. *)
Ltac mlia := Z.div_mod_to_equations; lia.

Lemma u32_mod x : u32 x = x mod 2 ^ 32.
Proof. exact (Z.land_ones x 32 ltac:(lia)). Qed.

Lemma ull_mod x : ull x = x mod 2 ^ 64.
Proof. exact (Z.land_ones x 64 ltac:(lia)). Qed.

(** *** Elementary number theory *)

Lemma in_residues p x : In x (residues p) <-> 1 <= x <= p - 1.
Proof.
  unfold residues. rewrite in_map_iff. split.
  - intros (k & <- & Hk%in_seq). lia.
  - intros Hx. exists (Z.to_nat x). split; [lia|]. apply in_seq. lia.
Qed.

Lemma NoDup_residues p : NoDup (residues p).
Proof.
  unfold residues. apply NoDup_map_NoDup_ForallPairs.
  - intros x y _ _ H. lia.
  - apply seq_NoDup.
Qed.

Lemma prodZ_perm l l' : Permutation l l' -> prodZ l = prodZ l'.
Proof.
  unfold prodZ. induction 1; cbn.
  - reflexivity.
  - now f_equal.
  - ring.
  - congruence.
Qed.

Lemma prodZ_map_scale a p l :
  0 < p ->
  prodZ (map (fun x => (a * x) mod p) l) mod p
  = (a ^ Z.of_nat (length l) * prodZ l) mod p.
Proof.
  intros Hp. induction l as [|x l IH].
  - reflexivity.
  - cbn [map prodZ fold_right length]. fold (prodZ (map (fun x => (a * x) mod p) l)).
    fold (prodZ l).
    rewrite Zmult_mod_idemp_l, <- Zmult_mod_idemp_r, IH, Zmult_mod_idemp_r.
    rewrite Nat2Z.inj_succ, Z.pow_succ_r by lia. f_equal. ring.
Qed.

Lemma prime_mul_split p a b : Z.prime p -> (p | a * b) -> (p | a) \/ (p | b).
Proof. intros Hp. apply Z.divide_prime_mul, Hp. Qed.

Lemma small_divide p z : 0 < p -> (p | z) -> - p < z < p -> z = 0.
Proof.
  intros Hp [c ->] Hz.
  destruct (Z.lt_total c 0) as [L|[->|L]]; [|lia|].
  - assert (c * p <= (-1) * p) by (apply Z.mul_le_mono_nonneg_r; lia). lia.
  - assert (1 * p <= c * p) by (apply Z.mul_le_mono_nonneg_r; lia). lia.
Qed.

Lemma prime_not_div_small p x : Z.prime p -> 1 <= x <= p - 1 -> ~ (p | x).
Proof.
  intros Hp Hx Hd. apply Z.divide_pos_le in Hd; lia.
Qed.

Lemma prime_not_div_prod p l :
  Z.prime p -> (forall x, In x l -> ~ (p | x)) -> ~ (p | prodZ l).
Proof.
  intros Hp. induction l as [|x l IH]; intros Hl; cbn.
  - intros Hd. apply Z.divide_1_r in Hd. pose proof (Z.prime_ge_2 _ Hp). lia.
  - intros [Hd|Hd]%prime_mul_split; trivial.
    + now apply (Hl x); [left|].
    + apply IH; trivial. intros y Hy. apply Hl. now right.
Qed.

Lemma mod_eq_divide p x y : 0 < p -> x mod p = y mod p -> (p | x - y).
Proof.
  intros Hp E. apply Z.mod_divide; [lia|].
  rewrite Zminus_mod, E, Z.sub_diag. now apply Z.mod_0_l; lia.
Qed.

Lemma divide_mod_eq p x y : 0 < p -> (p | x - y) -> x mod p = y mod p.
Proof.
  intros Hp [c Hc]. replace x with (y + c * p) by lia. now rewrite Z.mod_add by lia.
Qed.

(** Fermat's little theorem. *)
Theorem fermat_little p a :
  Z.prime p -> ~ (p | a) -> a ^ (p - 1) mod p = 1.
Proof.
  intros Hp Ha. pose proof (Z.prime_ge_2 _ Hp) as H2.
  set (f := fun x => (a * x) mod p).
  assert (Hf : forall x, 1 <= x <= p - 1 -> 1 <= f x <= p - 1).
  { intros x Hx. unfold f.
    assert ((a * x) mod p <> 0).
    { intros E. apply Z.mod_divide in E; [|lia].
      apply prime_mul_split in E; trivial. destruct E as [E|E]; [tauto|].
      now apply (prime_not_div_small p x). }
    pose proof (Z.mod_pos_bound (a * x) p). lia. }
  assert (Hperm : Permutation (map f (residues p)) (residues p)).
  { apply NoDup_Permutation_bis.
    - apply NoDup_map_NoDup_ForallPairs; [|apply NoDup_residues].
      intros x y Hx%in_residues Hy%in_residues E. unfold f in E.
      apply mod_eq_divide in E; [|lia].
      replace (a * x - a * y) with (a * (x - y)) in E by ring.
      apply prime_mul_split in E; trivial. destruct E as [E|E]; [tauto|].
      apply small_divide in E; lia.
    - rewrite length_map. lia.
    - intros y (x & <- & Hx%in_residues)%in_map_iff. apply in_residues. auto. }
  apply prodZ_perm in Hperm.
  assert (E : prodZ (map f (residues p)) mod p = prodZ (residues p) mod p)
    by now rewrite Hperm.
  unfold f in E. rewrite prodZ_map_scale in E by lia.
  assert (Hlen : Z.of_nat (length (residues p)) = p - 1).
  { unfold residues. rewrite length_map, length_seq. lia. }
  rewrite Hlen in E.
  apply mod_eq_divide in E; [|lia].
  replace (a ^ (p - 1) * prodZ (residues p) - prodZ (residues p))
    with ((a ^ (p - 1) - 1) * prodZ (residues p)) in E by ring.
  apply prime_mul_split in E; trivial. destruct E as [E|E].
  - apply divide_mod_eq in E; [|lia]. rewrite E. apply Z.mod_small. lia.
  - exfalso. revert E. apply prime_not_div_prod; trivial.
    intros x Hx%in_residues. now apply prime_not_div_small.
Qed.

(** A square root of 1 modulo a prime is 1 or -1. *)
Lemma prime_sqrt_one p x :
  Z.prime p -> (x * x) mod p = 1 -> x mod p = 1 \/ x mod p = p - 1.
Proof.
  intros Hp E. pose proof (Z.prime_ge_2 _ Hp) as H2.
  assert (D : (p | (x - 1) * (x + 1))).
  { replace ((x - 1) * (x + 1)) with (x * x - 1) by ring.
    apply mod_eq_divide; [lia|]. rewrite E. symmetry. apply Z.mod_small. lia. }
  apply prime_mul_split in D; trivial. destruct D as [D|D].
  - left. apply divide_mod_eq in D; [|lia]. rewrite D. apply Z.mod_small. lia.
  - right. replace (x + 1) with (x - (-1)) in D by ring.
    apply divide_mod_eq in D; [|lia]. rewrite D.
    replace (-1) with ((p - 1) + (-1) * p) by ring.
    rewrite Z.mod_add by lia. apply Z.mod_small. lia.
Qed.

Lemma pow2_succ_square x i : 0 <= i -> x ^ (2 ^ (i + 1)) = (x ^ (2 ^ i)) ^ 2.
Proof.
  intros Hi. rewrite <- Z.pow_mul_r by lia. f_equal.
  rewrite Z.pow_add_r by lia. ring.
Qed.

(** If [x^(2^j)] is 1 modulo a prime, then [x] is 1 or some earlier square
    is -1. *)
Lemma prime_square_chain p x j :
  Z.prime p -> 0 <= j -> x ^ (2 ^ j) mod p = 1 ->
  x mod p = 1 \/ exists i, 0 <= i < j /\ x ^ (2 ^ i) mod p = p - 1.
Proof.
  intros Hp Hj. revert j Hj. apply (natlike_ind (fun j => _ -> _)).
  - rewrite Z.pow_0_r, Z.pow_1_r. auto.
  - intros j Hj IH E. rewrite <- Z.add_1_r, pow2_succ_square, Z.pow_2_r in E by lia.
    rewrite <- Zmult_mod_idemp_l, <- Zmult_mod_idemp_r in E.
    destruct (prime_sqrt_one p (x ^ 2 ^ j mod p) Hp) as [E1|E1].
    + exact E.
    + rewrite Z.mod_mod in E1 by (pose proof (Z.prime_ge_2 _ Hp); lia).
      destruct (IH E1) as [?|(i & Hi & Ei)]; auto.
      right. exists i. split; [lia|trivial].
    + rewrite Z.mod_mod in E1 by (pose proof (Z.prime_ge_2 _ Hp); lia).
      right. exists j. split; [lia|trivial].
Qed.

Lemma pow_mod_congr p x y t :
  0 < p -> x mod p = y mod p -> x ^ t mod p = y ^ t mod p.
Proof.
  intros Hp E. rewrite (Zpower_mod x), (Zpower_mod y), E by lia. reflexivity.
Qed.

Lemma minus_one_pow_odd p t :
  2 <= p -> 0 <= t -> t mod 2 = 1 -> (p - 1) ^ t mod p = p - 1.
Proof.
  intros Hp Ht Hodd.
  rewrite (pow_mod_congr p (p - 1) (- (1)) t) by
    (try lia; replace (p - 1) with (-(1) + 1 * p) by ring; now rewrite Z.mod_add by lia).
  rewrite Z.pow_opp_odd.
  - rewrite Z.pow_1_l by lia.
    replace (- (1)) with ((p - 1) + (-1) * p) by ring.
    rewrite Z.mod_add by lia. apply Z.mod_small. lia.
  - exists (t / 2). mlia.
Qed.

Lemma two_adic x :
  0 < x -> exists j t, 0 <= j /\ 0 < t /\ x = 2 ^ j * t /\ t mod 2 = 1.
Proof.
  destruct x as [|q|q]; try lia. intros _.
  induction q as [q IH|q IH|].
  - exists 0, (Z.pos q~1). repeat split; try lia. rewrite Pos2Z.inj_xI. mlia.
  - destruct IH as (j & t & Hj & Ht & E & Ho).
    exists (j + 1), t. repeat split; try lia.
    rewrite Z.pow_add_r by lia. rewrite Pos2Z.inj_xO, E. ring.
  - exists 0, 1. repeat split; lia.
Qed.

Lemma bounded_divisor_dec d k :
  0 <= k ->
  (exists n, 1 < n < k /\ (n | d)) \/ (forall n, 1 < n < k -> ~ (n | d)).
Proof.
  revert k. apply natlike_ind.
  - right. intros n Hn. lia.
  - intros k Hk [IH|IH].
    + left. destruct IH as (n & Hn & Hd). exists n. split; [lia|trivial].
    + destruct (Z.BoolSpec_divide k d) as [Y|N].
      * destruct (Z_lt_dec 1 k) as [Hk1|Hk1].
        -- left. exists k. split; [lia|trivial].
        -- right. intros n Hn. lia.
      * right. intros n Hn. destruct (Z.eq_dec n k) as [->|]; trivial.
        apply IH. lia.
Qed.

Lemma exists_prime_divisor d : 0 <= d -> 1 < d -> exists p, Z.prime p /\ (p | d).
Proof.
  intros H. revert d H.
  apply (Z_lt_induction (fun d => 1 < d -> exists p, Z.prime p /\ (p | d))).
  intros d IH Hd.
  destruct (bounded_divisor_dec d d) as [(n & Hn & Dn)|Hprime]; [lia| |].
  - destruct (IH n) as (p & Hp & Dp); try lia.
    exists p. split; trivial. now apply Z.divide_trans with n.
  - exists d. split; [split; trivial|apply Z.divide_refl].
Qed.

(** Proth's criterion: [N = k * 2^m + 1] with [k < 2^m] is prime as soon as
    some [a] has [a^((N-1)/2) = -1] modulo [N]. *)
Theorem proth N k m a :
  0 < m -> 0 < k < 2 ^ m -> N = k * 2 ^ m + 1 ->
  a ^ (k * 2 ^ (m - 1)) mod N = N - 1 -> Z.prime N.
Proof.
  intros Hm Hk HN Ha.
  assert (Hpow : 2 ^ m = 2 * 2 ^ (m - 1)).
  { rewrite <- Z.pow_succ_r by lia. f_equal. lia. }
  assert (Hpm : 0 < 2 ^ (m - 1)) by (apply Z.pow_pos_nonneg; lia).
  assert (Hbig : forall p, Z.prime p -> (p | N) -> 2 ^ m < p).
  { intros p Hp Dp. pose proof (Z.prime_ge_2 _ Hp) as H2.
    assert (Hp2 : p <> 2).
    { intros ->. destruct Dp as [c Hc]. lia. }
    set (c := a ^ k).
    assert (Ec : c ^ (2 ^ (m - 1)) mod p = p - 1).
    { unfold c. rewrite <- Z.pow_mul_r by lia.
      apply (f_equal (fun z => z mod p)) in Ha.
      rewrite (Z.mod_mod_divide _ N p Dp) in Ha. rewrite Ha.
      destruct Dp as [e ->].
      replace (e * p - 1) with ((p - 1) + (e - 1) * p) by ring.
      rewrite Z.mod_add by lia. apply Z.mod_small. lia. }
    assert (Nc : ~ (p | c)).
    { intros D. apply Z.mod0_divide in D.
      rewrite Zpower_mod, D, Z.pow_0_l, Z.mod_0_l in Ec by lia. lia. }
    pose proof (fermat_little p c Hp Nc) as F.
    destruct (two_adic (p - 1)) as (j & t & Hj & Ht & E & Ho); [lia|].
    destruct (Z_lt_dec j m) as [L|L].
    - exfalso.
      assert (E1 : c ^ (2 ^ (m - 1) * t) mod p = 1).
      { replace (2 ^ (m - 1) * t) with ((p - 1) * 2 ^ (m - 1 - j)).
        - rewrite Z.pow_mul_r by (try apply Z.pow_nonneg; lia).
          rewrite Zpower_mod, F, Z.pow_1_l by (try apply Z.pow_nonneg; lia).
          apply Z.mod_small. lia.
        - rewrite E. replace (m - 1) with (j + (m - 1 - j)) at 2 by lia.
          rewrite Z.pow_add_r by lia. ring. }
      rewrite Z.pow_mul_r in E1 by lia.
      rewrite (Zpower_mod (c ^ 2 ^ (m - 1)) t p) in E1 by lia.
      rewrite Ec in E1. rewrite (minus_one_pow_odd p t) in E1 by (trivial; lia).
      lia.
    - assert (2 ^ m <= 2 ^ j) by (apply Z.pow_le_mono_r; lia).
      assert (2 ^ j * 1 <= 2 ^ j * t) by (apply Z.mul_le_mono_nonneg_l; lia).
      lia. }
  assert (HN1 : 1 < N) by nia.
  split; trivial. intros n Hn [e He].
  assert (He1 : 1 < e < N) by nia.
  assert (Hmin : exists d, 1 < d /\ (d | N) /\ d * d <= N).
  { destruct (Z_le_dec n e).
    - exists n. repeat split; try lia; [now exists e|nia].
    - exists e. repeat split; try lia; [exists n; lia|nia]. }
  destruct Hmin as (d & Hd & Dd & Hdd).
  destruct (exists_prime_divisor d) as (p & Hp & Dp); try lia.
  assert (DpN : (p | N)) by now apply Z.divide_trans with d.
  pose proof (Hbig p Hp DpN) as Hp_big.
  assert (p <= d) by (apply Z.divide_pos_le; trivial; lia).
  assert (2 ^ m * 2 ^ m < d * d) by nia.
  nia.
Qed.

(** *** The native modular layer *)

Module NativeFacts.
Import Native.

Lemma land_1 b : Z.land b 1 = b mod 2.
Proof. exact (Z.land_ones b 1 ltac:(lia)). Qed.

Lemma shiftr_1 b : Z.shiftr b 1 = b / 2.
Proof. now rewrite Z.shiftr_div_pow2 by lia. Qed.

Lemma shiftl_1 a : Z.shiftl a 1 = 2 * a.
Proof. rewrite Z.shiftl_mul_pow2 by lia. lia. Qed.

Lemma mulmod_loop_bound fuel : forall res a b m,
  0 < m < 2 ^ 64 -> 0 <= res < m -> 0 <= a < m ->
  0 <= mulmod_loop fuel res a b m < m.
Proof.
  induction fuel as [|fuel IH]; cbn [mulmod_loop]; intros res a b m Hm Hres Ha; [lia|].
  destruct (b =? 0); [lia|].
  apply IH; trivial.
  - destruct (Z.land b 1 =? 1); [|lia].
    rewrite ?ull_mod. destruct (Z.geb_spec ((res + a) mod 2 ^ 64) m); mlia.
  - rewrite shiftl_1. rewrite ?ull_mod.
    destruct (Z.geb_spec ((2 * a) mod 2 ^ 64) m); mlia.
Qed.

Lemma mulmod_bound a b m : 0 < m -> 0 <= mulmod a b m < m.
Proof. intros Hm. unfold mulmod. apply Z.mod_pos_bound; lia. Qed.

Lemma mulmod_loop_spec fuel : forall res a b m,
  0 < m <= 2 ^ 63 -> 0 <= res < m -> 0 <= a < m ->
  0 <= b < 2 ^ Z.of_nat fuel ->
  mulmod_loop fuel res a b m = (res + a * b) mod m.
Proof.
  induction fuel as [|fuel IH]; cbn [mulmod_loop]; intros res a b m Hm Hres Ha Hb.
  - change (2 ^ Z.of_nat 0) with 1 in Hb. replace b with 0 by lia.
    rewrite Z.mul_0_r, Z.add_0_r, Z.mod_small; lia.
  - destruct (Z.eqb_spec b 0) as [->|Hb0].
    { rewrite Z.mul_0_r, Z.add_0_r, Z.mod_small; lia. }
    rewrite Nat2Z.inj_succ, Z.pow_succ_r in Hb by lia.
    rewrite land_1, shiftr_1, shiftl_1.
    set (res1 := if b mod 2 =? 1 then _ else res).
    set (a2 := if _ >=? m then _ else _).
    assert (Hr1 : 0 <= res1 < m /\ res1 = (res + a * (b mod 2)) mod m).
    { subst res1. destruct (Z.eqb_spec (b mod 2) 1) as [E|E].
      - rewrite E, Z.mul_1_r. rewrite ?ull_mod.
        rewrite (Z.mod_small (res + a)) by lia.
        destruct (Z.geb_spec (res + a) m).
        + rewrite (Z.mod_small (res + a - m)) by lia.
          split; [lia|].
          replace (res + a) with ((res + a - m) + 1 * m) by lia.
          rewrite Z.mod_add, Z.mod_small; lia.
        + rewrite Z.mod_small; lia.
      - replace (b mod 2) with 0 by mlia.
        rewrite Z.mul_0_r, Z.add_0_r, Z.mod_small; lia. }
    assert (Ha2 : 0 <= a2 < m /\ a2 = (2 * a) mod m).
    { subst a2. rewrite ?ull_mod. rewrite (Z.mod_small (2 * a)) by lia.
      destruct (Z.geb_spec (2 * a) m).
      - rewrite (Z.mod_small (2 * a - m)) by lia. split; [lia|].
        replace (2 * a) with ((2 * a - m) + 1 * m) by lia.
        rewrite Z.mod_add, Z.mod_small; lia.
      - rewrite Z.mod_small; lia. }
    destruct Hr1 as [Hr1 Er1], Ha2 as [Ha2 Ea2].
    rewrite IH by (trivial; mlia).
    rewrite Er1, Ea2.
    rewrite Zplus_mod_idemp_l, <- Zplus_mod_idemp_r, Zmult_mod_idemp_l,
      Zplus_mod_idemp_r.
    f_equal.
    rewrite (Z.div_mod b 2) at 3 by lia. ring.
Qed.

Lemma mulmod_spec a b m :
  0 < m <= 2 ^ 63 -> 0 <= b < 2 ^ 64 -> mulmod a b m = (a * b) mod m.
Proof.
  intros Hm Hb. unfold mulmod.
  rewrite mulmod_loop_spec; trivial.
  - rewrite Z.mod_mod by lia. rewrite Z.add_0_l, Zmult_mod_idemp_l. reflexivity.
  - lia.
  - apply Z.mod_pos_bound; lia.
Qed.

Lemma powmod_loop_spec fuel : forall res base exp m,
  1 < m <= 2 ^ 63 -> 0 <= res < m -> 0 <= base < m ->
  0 <= exp < 2 ^ Z.of_nat fuel ->
  powmod_loop fuel res base exp m = (res * base ^ exp) mod m.
Proof.
  induction fuel as [|fuel IH]; cbn [powmod_loop]; intros res base exp m Hm Hres Hb He.
  - change (2 ^ Z.of_nat 0) with 1 in He. replace exp with 0 by lia.
    rewrite Z.pow_0_r, Z.mul_1_r, Z.mod_small; lia.
  - destruct (Z.eqb_spec exp 0) as [->|He0].
    { rewrite Z.pow_0_r, Z.mul_1_r, Z.mod_small; lia. }
    rewrite Nat2Z.inj_succ, Z.pow_succ_r in He by lia.
    rewrite land_1, shiftr_1.
    rewrite !mulmod_spec by lia.
    rewrite IH by (try destruct (exp mod 2 =? 1); mlia).
    rewrite (Z.div_mod exp 2) at 3 by lia.
    rewrite Z.pow_add_r, Z.pow_mul_r by mlia.
    rewrite <- Zmult_mod_idemp_r, <- Zpower_mod, Zmult_mod_idemp_r by lia.
    rewrite Z.pow_2_r.
    destruct (Z.eqb_spec (exp mod 2) 1) as [E|E].
    + rewrite E, Z.pow_1_r, Zmult_mod_idemp_l. f_equal. ring.
    + replace (exp mod 2) with 0 by mlia. rewrite Z.pow_0_r. f_equal. ring.
Qed.

Lemma powmod_spec base exp m :
  1 < m <= 2 ^ 63 -> 0 <= exp < 2 ^ 64 -> powmod base exp m = base ^ exp mod m.
Proof.
  intros Hm He. unfold powmod.
  rewrite powmod_loop_spec by (trivial; mlia).
  rewrite Z.mul_1_l, <- Zpower_mod by lia. reflexivity.
Qed.

Lemma halve_loop_spec fuel : forall d s d' s',
  0 < d < 2 ^ Z.of_nat fuel ->
  halve_loop fuel d s = (d', s') ->
  s <= s' /\ d = d' * 2 ^ (s' - s) /\ d' mod 2 = 1 /\ 0 < d'.
Proof.
  induction fuel as [|fuel IH]; cbn [halve_loop]; intros d s d' s' Hd E.
  - change (2 ^ Z.of_nat 0) with 1 in Hd. lia.
  - rewrite Nat2Z.inj_succ, Z.pow_succ_r in Hd by lia.
    rewrite land_1, shiftr_1 in E.
    destruct (Z.eqb_spec (d mod 2) 0) as [Ev|Od].
    + apply IH in E; [|mlia]. destruct E as (Hs & Ed & Ho & Hp).
      repeat split; trivial; try lia.
      replace (s' - s) with (Z.succ (s' - (s + 1))) by lia.
      rewrite Z.pow_succ_r by lia.
      replace d with (2 * (d / 2)) by mlia. rewrite Ed at 1. ring.
    + injection E as <- <-. rewrite Z.sub_diag, Z.pow_0_r.
      repeat split; try lia. mlia.
Qed.

Lemma square_loop_hit cnt : forall x n i,
  1 < n <= 2 ^ 63 -> 0 <= x < n ->
  (1 <= i <= Z.of_nat cnt) -> x ^ (2 ^ i) mod n = n - 1 ->
  square_loop cnt x n = true.
Proof.
  induction cnt as [|cnt IH]; cbn [square_loop]; intros x n i Hn Hx Hi E.
  - lia.
  - rewrite mulmod_spec by lia. rewrite ?ull_mod.
    rewrite (Z.mod_small (n - 1)) by lia.
    destruct (Z.eqb_spec (x * x mod n) (n - 1)) as [|Ne]; trivial.
    apply (IH _ _ (i - 1)); trivial.
    + apply Z.mod_pos_bound. lia.
    + assert (i <> 1).
      { intros ->. apply Ne. rewrite <- E. change (2 ^ 1) with 2.
        now rewrite Z.pow_2_r. }
      lia.
    + rewrite <- E, <- Zpower_mod by lia.
      rewrite <- Z.pow_2_r, <- Z.pow_mul_r by (try apply Z.pow_nonneg; lia).
      do 2 f_equal. rewrite <- Z.pow_succ_r by lia. f_equal. lia.
Qed.

(** The witness test never rejects a prime, as long as the modulus stays
    within 63 bits, where [mulmod] is exact. *)
Theorem miller_rabin_witness_prime n a :
  Z.prime n -> 3 <= n <= 2 ^ 63 -> miller_rabin_witness n a = true.
Proof.
  intros Hp Hn. unfold miller_rabin_witness.
  destruct (Z.eqb_spec (a mod n) 0) as [|Ha]; trivial.
  assert (Nd : ~ (n | a)) by (intros D%Z.mod0_divide; tauto).
  rewrite ?ull_mod. rewrite (Z.mod_small (n - 1)) by lia.
  destruct (halve_loop 64 (n - 1) 0) as [d s] eqn:Eh.
  apply halve_loop_spec in Eh; [|change (Z.of_nat 64) with 64; lia].
  destruct Eh as (Hs & Ed & Ho & Hd). rewrite Z.sub_0_r in Ed.
  rewrite powmod_spec.
  2: lia.
  2:{ assert (1 * d <= d * 2 ^ s)
        by (rewrite (Z.mul_comm d); apply Z.mul_le_mono_nonneg_r;
            [lia|pose proof (Z.pow_pos_nonneg 2 s); lia]).
      lia. }
  pose proof (fermat_little n a Hp Nd) as F.
  rewrite Ed, Z.pow_mul_r in F by lia.
  apply prime_square_chain in F; trivial.
  destruct F as [F|(i & Hi & F)].
  - rewrite F. reflexivity.
  - destruct (Z.eq_dec i 0) as [->|Hi0].
    + rewrite Z.pow_0_r, Z.pow_1_r in F. rewrite F, Z.eqb_refl, orb_true_r.
      reflexivity.
    + destruct (_ || _); trivial.
      apply (square_loop_hit _ _ _ i); try lia.
      * apply Z.mod_pos_bound. lia.
      * rewrite <- Zpower_mod by lia. exact F.
Qed.

End NativeFacts.

(** *** The 1024-bit reducer: when the alignment loop never exits *)

Module BigLoops.
Import Big.

(** Once the shifted modulus has reached a fixed point of the shift that is
    still below the product, the first loop of [bigint_mod_mul] cannot
    exit, whatever the fuel. *)
Lemma align_loop_stuck k : forall fuel n_shifted rem shift,
  forallb (fun x => bigint_compare x rem <? 0) (shl_orbit k n_shifted) = true ->
  bigint_shl_one (shl_iter k n_shifted) = shl_iter k n_shifted ->
  align_loop fuel n_shifted rem shift = None.
Proof.
  induction k as [|k IH]; intros fuel n_shifted rem shift Hall Hfix.
  - cbn [shl_orbit forallb shl_iter] in Hall, Hfix. rewrite andb_true_r in Hall.
    revert shift. induction fuel as [|fuel IHf]; intros shift; trivial.
    cbn [align_loop]. rewrite Hall, Hfix. apply IHf.
  - destruct fuel as [|fuel]; trivial.
    cbn [shl_orbit forallb] in Hall. apply andb_true_iff in Hall as [H1 H2].
    cbn [align_loop]. rewrite H1. apply IH; trivial.
Qed.

End BigLoops.

(** *** The native generator and the rounds of the native driver *)

Module NativeDriver.
Import Native NativeFacts.

Section WithLibc.
Context {L : Libc}.

Lemma rand_ull_range max s : 0 < max -> 0 <= fst (rand_ull max s) < max.
Proof.
  intros Hm. unfold rand_ull.
  destruct (Z.eqb_spec max 0); [lia|].
  destruct (rand32 s) as [hi s1], (rand32 s1) as [lo s2]. cbn [fst].
  apply Z.mod_pos_bound. lia.
Qed.

Lemma lor_1 r : Z.lor r 1 = 2 * (r / 2) + 1.
Proof.
  apply Z.bits_inj'. intros i Hi. rewrite Z.lor_spec.
  destruct (Z.eq_dec i 0) as [->|Hi0].
  - rewrite Z.testbit_odd_0. apply orb_true_r.
  - replace i with (Z.succ (i - 1)) by lia.
    rewrite Z.testbit_odd_succ by lia.
    rewrite (Z.bits_above_log2 1) by (cbn; lia).
    rewrite orb_false_r. symmetry. apply Z.div2_bits. lia.
Qed.

Lemma gen_random_odd_spec bits s :
  2 <= bits <= 63 ->
  exists r s', gen_random_odd bits s = Some (r, s') /\
    2 ^ (bits - 1) <= r < 2 ^ bits /\
    Z.testbit r (bits - 1) = true /\ Z.testbit r 0 = true /\ Z.odd r = true.
Proof.
  intros Hb. unfold gen_random_odd, shl_ull.
  destruct (Z.ltb_spec bits 2); [lia|].
  replace ((0 <=? bits - 1) && (bits - 1 <? 64)) with true
    by (symmetry; apply andb_true_iff; split; [apply Z.leb_le|apply Z.ltb_lt]; lia).
  replace ((0 <=? bits) && (bits <? 64)) with true
    by (symmetry; apply andb_true_iff; split; [apply Z.leb_le|apply Z.ltb_lt]; lia).
  rewrite !Z.shiftl_1_l.
  assert (Hhigh : 0 < 2 ^ (bits - 1)) by (apply Z.pow_pos_nonneg; lia).
  assert (Htop : 2 ^ bits = 2 * 2 ^ (bits - 1)).
  { rewrite <- Z.pow_succ_r by lia. f_equal. lia. }
  assert (Hlt : 2 ^ bits < 2 ^ 64) by (apply Z.pow_lt_mono_r; lia).
  rewrite (ull_mod (2 ^ bits)), (ull_mod (2 ^ (bits - 1))).
  rewrite !Z.mod_small by lia.
  rewrite ull_mod, Z.mod_small by lia.
  replace (2 ^ bits - 2 ^ (bits - 1)) with (2 ^ (bits - 1)) by lia.
  pose proof (rand_ull_range (2 ^ (bits - 1)) s Hhigh) as Hr.
  destruct (rand_ull (2 ^ (bits - 1)) s) as [r0 s1]. cbn [fst] in Hr.
  rewrite ull_mod, Z.mod_small by lia.
  eexists _, _. split; [reflexivity|].
  set (r := r0 + 2 ^ (bits - 1)).
  assert (Hr' : 2 ^ (bits - 1) <= r < 2 ^ bits) by (subst r; lia).
  assert (Hlor : 2 ^ (bits - 1) <= Z.lor r 1 < 2 ^ bits).
  { rewrite lor_1.
    assert (Ev : 2 ^ (bits - 1) = 2 * 2 ^ (bits - 2)).
    { rewrite <- Z.pow_succ_r by lia. f_equal. lia. }
    Z.div_mod_to_equations. lia. }
  split; [exact Hlor|]. split; [|split].
  - apply Z.testbit_true; [lia|].
    set (v := Z.lor r 1) in *. set (h := 2 ^ (bits - 1)) in *.
    replace (v / h) with 1; [reflexivity|].
    apply (Z.div_unique v h 1 (v - h)); lia.
  - rewrite Z.lor_spec. apply orb_true_r.
  - rewrite <- Z.bit0_odd, Z.lor_spec. apply orb_true_r.
Qed.

Lemma state_after_S j : forall n s,
  state_after (S j) n s
  = snd (rand_ull (ull (n - 3)) (state_after j n s)).
Proof.
  induction j as [|j IH]; intros n s; [reflexivity|].
  change (state_after (S (S j)) n s)
    with (state_after (S j) n (snd (rand_ull (ull (n - 3)) s))).
  rewrite IH. reflexivity.
Qed.

(** The loop of [is_probable_prime] stops at the first failing round. *)
Lemma rounds_loop_fail k : forall n s j,
  (j < k)%nat ->
  (forall i, (i < j)%nat -> miller_rabin_witness n (round_base i n s) = true) ->
  miller_rabin_witness n (round_base j n s) = false ->
  rounds_loop k n s = (false, state_after (S j) n s).
Proof.
  induction k as [|k IH]; intros n s j Hj Hpass Hfail; [lia|].
  cbn [rounds_loop].
  destruct (rand_ull (ull (n - 3)) s) as [r s1] eqn:Er.
  destruct j as [|j].
  - unfold round_base in Hfail. cbn [state_after] in Hfail.
    rewrite Er in Hfail. cbn [fst] in Hfail. rewrite Hfail.
    cbn [state_after]. rewrite Er. reflexivity.
  - pose proof (Hpass 0%nat ltac:(lia)) as H0.
    unfold round_base in H0. cbn [state_after] in H0.
    rewrite Er in H0. cbn [fst] in H0. rewrite H0.
    rewrite (IH n s1 j); [|lia| |].
    + cbn [state_after]. rewrite Er. reflexivity.
    + intros i Hi. specialize (Hpass (S i) ltac:(lia)).
      unfold round_base in *. cbn [state_after] in Hpass.
      rewrite Er in Hpass. exact Hpass.
    + unfold round_base in *. cbn [state_after] in Hfail.
      rewrite Er in Hfail. exact Hfail.
Qed.

Lemma rounds_loop_pass k : forall n s,
  (forall i, (i < k)%nat -> miller_rabin_witness n (round_base i n s) = true) ->
  rounds_loop k n s = (true, state_after k n s).
Proof.
  induction k as [|k IH]; intros n s Hpass; [reflexivity|].
  cbn [rounds_loop].
  destruct (rand_ull (ull (n - 3)) s) as [r s1] eqn:Er.
  pose proof (Hpass 0%nat ltac:(lia)) as H0.
  unfold round_base in H0. cbn [state_after] in H0.
  rewrite Er in H0. cbn [fst] in H0. rewrite H0.
  rewrite IH.
  - cbn [state_after]. rewrite Er. reflexivity.
  - intros i Hi. specialize (Hpass (S i) ltac:(lia)).
    unfold round_base in *. cbn [state_after] in Hpass.
    rewrite Er in Hpass. exact Hpass.
Qed.

(** Some round fails, or all pass: the first failing round exists. *)
Lemma first_failing_round (P : nat -> bool) k :
  (forall i, (i < k)%nat -> P i = true) \/
  (exists j, (j < k)%nat /\ (forall i, (i < j)%nat -> P i = true) /\ P j = false).
Proof.
  induction k as [|k [IH|(j & Hj & Hpass & Hfail)]].
  - left. intros i Hi. lia.
  - destruct (P k) eqn:Ek.
    + left. intros i Hi. destruct (Nat.eq_dec i k) as [->|]; trivial.
      apply IH. lia.
    + right. exists k. repeat split; trivial. lia.
  - right. exists j. repeat split; trivial. lia.
Qed.

(** [is_probable_prime_with_print] draws and tests every round, whatever
    the verdicts, and reports the conjunction of all of them. *)
Lemma print_rounds_loop_runs_all k : forall n acc s,
  4 < n ->
  let '(res, out, s') := print_rounds_loop k n acc s in
  s' = state_after k n s /\ length out = k /\
  res = acc && forallb snd out /\
  forall i, (i < k)%nat ->
    nth_error out i
    = Some (round_base i n s, miller_rabin_witness n (round_base i n s)).
Proof.
  induction k as [|k IH]; intros n acc s Hn.
  - cbn. rewrite andb_true_r. repeat split; trivial. intros i Hi. lia.
  - cbn [print_rounds_loop].
    destruct (Z.gtb_spec n 4); [|lia].
    destruct (rand_ull (ull (n - 3)) s) as [r s1] eqn:Er.
    specialize (IH n (if miller_rabin_witness n (ull (2 + r)) then acc else false) s1 Hn).
    destruct (print_rounds_loop k n _ s1) as [[res out] s2].
    destruct IH as (Es & El & Eres & Hnth).
    split; [|split; [|split]].
    + cbn [state_after]. rewrite Er. exact Es.
    + cbn. now rewrite El.
    + rewrite Eres. cbn [forallb snd].
      destruct (miller_rabin_witness n (ull (2 + r))), acc; reflexivity.
    + intros [|i] Hi.
      * cbn. unfold round_base. cbn [state_after]. rewrite Er. reflexivity.
      * cbn [nth_error]. rewrite Hnth by lia.
        unfold round_base. cbn [state_after]. rewrite Er. reflexivity.
Qed.

End WithLibc.
End NativeDriver.

(** *** The 1024-bit arithmetic unit

    Every operation on words is related to the integer the words stand
    for ([bigint_val]). *)

(** An [or] of two values without common bits is their sum. *)
Lemma lor_disjoint lo hi k :
  0 <= k -> 0 <= lo < 2 ^ k -> Z.lor lo (hi * 2 ^ k) = lo + hi * 2 ^ k.
Proof.
  intros Hk Hlo. apply Z.bits_inj'. intros i Hi. rewrite Z.lor_spec.
  destruct (Z.lt_ge_cases i k) as [L|G].
  - rewrite Z.mul_pow2_bits_low, orb_false_r by lia.
    rewrite <- (Z.mod_pow2_bits_low (lo + hi * 2 ^ k) k i) by lia.
    rewrite Z.mod_add, Z.mod_small by lia. reflexivity.
  - replace i with ((i - k) + k) at 2 3 by lia.
    rewrite <- (Z.div_pow2_bits (hi * 2 ^ k) k (i - k)) by lia.
    rewrite <- (Z.div_pow2_bits (lo + hi * 2 ^ k) k (i - k)) by lia.
    rewrite Z.div_mul, Z.div_add, (Z.div_small lo) by lia.
    replace (Z.testbit lo i) with false; [reflexivity|].
    symmetry. destruct (Z.eq_dec lo 0) as [->|N]; [apply Z.testbit_0_l|].
    apply Z.bits_above_log2; [lia|].
    assert (Z.log2 lo < k) by (apply Z.log2_lt_pow2; lia). lia.
Qed.

Module BigFacts.
Import Big.

Lemma weight_nil : weight [] = 1.
Proof. reflexivity. Qed.

Lemma weight_cons w a : weight (w :: a) = 2 ^ 32 * weight a.
Proof.
  unfold weight. cbn [length]. rewrite Nat2Z.inj_succ, <- Z.pow_add_r by lia.
  f_equal. lia.
Qed.

Lemma weight_pos a : 0 < weight a.
Proof. unfold weight. apply Z.pow_pos_nonneg; lia. Qed.

Lemma weight_length a b : length a = length b -> weight a = weight b.
Proof. unfold weight. now intros ->. Qed.

Lemma val_bound a : limbs_ok a -> 0 <= bigint_val a < weight a.
Proof.
  induction 1 as [|w a Hw _ IH].
  - rewrite weight_nil. cbn. lia.
  - rewrite weight_cons. cbn [bigint_val]. pose proof (weight_pos a). nia.
Qed.

Lemma val_inj a : forall b,
  length a = length b -> limbs_ok a -> limbs_ok b ->
  bigint_val a = bigint_val b -> a = b.
Proof.
  induction a as [|x a IH]; intros [|y b] Hlen Ha Hb E; try discriminate; trivial.
  inversion Ha as [|? ? Hx Ha']; inversion Hb as [|? ? Hy Hb']; subst.
  cbn [bigint_val] in E.
  assert (x = y /\ bigint_val a = bigint_val b) as [-> E'] by lia.
  f_equal. apply IH; trivial. now injection Hlen.
Qed.

(** [bigint_compare] is the sign of the difference of the values. *)
Lemma compare_spec a : forall b,
  length a = length b -> limbs_ok a -> limbs_ok b ->
  bigint_compare a b = Z.sgn (bigint_val a - bigint_val b).
Proof.
  induction a as [|x a IH]; intros [|y b] Hlen Ha Hb; try discriminate; trivial.
  inversion Ha as [|? ? Hx Ha']; inversion Hb as [|? ? Hy Hb']; subst.
  cbn [bigint_compare bigint_val]. rewrite (IH b) by (trivial; now injection Hlen).
  destruct (Z.eqb_spec (Z.sgn (bigint_val a - bigint_val b)) 0) as [E|N].
  - apply Z.sgn_null_iff in E. replace (bigint_val a) with (bigint_val b) by lia.
    destruct (Z.gtb_spec x y); [|destruct (Z.ltb_spec x y)]; lia.
  - lia.
Qed.

Lemma compare_ge a b :
  length a = length b -> limbs_ok a -> limbs_ok b ->
  (bigint_compare a b >=? 0) = (bigint_val b <=? bigint_val a).
Proof.
  intros. rewrite compare_spec by trivial.
  destruct (Z.leb_spec (bigint_val b) (bigint_val a)), (Z.geb_spec (Z.sgn (bigint_val a - bigint_val b)) 0); lia.
Qed.

Lemma compare_lt a b :
  length a = length b -> limbs_ok a -> limbs_ok b ->
  (bigint_compare a b <? 0) = (bigint_val a <? bigint_val b).
Proof.
  intros. rewrite compare_spec by trivial.
  destruct (Z.ltb_spec (bigint_val a) (bigint_val b)), (Z.ltb_spec (Z.sgn (bigint_val a - bigint_val b)) 0); lia.
Qed.

Lemma compare_eq a b :
  length a = length b -> limbs_ok a -> limbs_ok b ->
  (bigint_compare a b =? 0) = (bigint_val a =? bigint_val b).
Proof.
  intros. rewrite compare_spec by trivial.
  destruct (Z.eqb_spec (bigint_val a) (bigint_val b)), (Z.eqb_spec (Z.sgn (bigint_val a - bigint_val b)) 0); lia.
Qed.

Lemma mod_weight_cons c z B M :
  0 < B -> 0 < M -> 0 <= c < B -> c + B * (z mod M) = (c + B * z) mod (B * M).
Proof.
  intros HB HM Hc.
  apply Z.mod_unique with (q := z / M).
  - left. pose proof (Z.mod_pos_bound z M HM). nia.
  - rewrite (Z.div_mod z M) at 1 by lia. ring.
Qed.

(** [bigint_sub] subtracts modulo the width. *)
Lemma sub_loop_spec a : forall b borrow,
  length a = length b -> limbs_ok a -> limbs_ok b -> 0 <= borrow <= 1 ->
  length (sub_loop a b borrow) = length a /\
  limbs_ok (sub_loop a b borrow) /\
  bigint_val (sub_loop a b borrow)
  = (bigint_val a - bigint_val b - borrow) mod weight a.
Proof.
  induction a as [|x a IH]; intros [|y b] bw Hlen Ha Hb Hbw; try discriminate.
  - cbn [sub_loop bigint_val length]. split; [reflexivity|]. split; [constructor|].
    rewrite weight_nil, Z.mod_1_r. reflexivity.
  - inversion Ha as [|? ? Hx Ha']; inversion Hb as [|? ? Hy Hb']; subst.
    cbn [sub_loop]. rewrite !ull_mod, u32_mod.
    rewrite Zminus_mod_idemp_l.
    set (t := x - y - bw).
    assert (Ht : - 2 ^ 32 <= t < 2 ^ 32) by (subst t; lia).
    set (bw' := Z.land (Z.shiftr (t mod 2 ^ 64) 32) 1).
    assert (Hbw' : bw' = - (t / 2 ^ 32)).
    { subst bw'. rewrite Z.shiftr_div_pow2 by lia.
      change 1 with (Z.ones 1). rewrite Z.land_ones by lia.
      change (2 ^ 1) with 2. Z.div_mod_to_equations. lia. }
    assert (Hlow : (t mod 2 ^ 64) mod 2 ^ 32 = t mod 2 ^ 32).
    { Z.div_mod_to_equations. lia. }
    rewrite Hlow.
    destruct (IH b bw') as (Hl & Hok & Hv); trivial.
    { now injection Hlen. }
    { rewrite Hbw'. Z.div_mod_to_equations. lia. }
    split; [cbn [length]; now rewrite Hl|]. split.
    + constructor; trivial. apply Z.mod_pos_bound. lia.
    + cbn [bigint_val]. rewrite Hv, weight_cons.
      rewrite mod_weight_cons; try lia.
      2: apply weight_pos.
      2: apply Z.mod_pos_bound; lia.
      f_equal. rewrite Hbw'. subst t. Z.div_mod_to_equations. lia.
Qed.

Lemma sub_spec a b :
  length a = length b -> limbs_ok a -> limbs_ok b ->
  bigint_val b <= bigint_val a ->
  length (bigint_sub a b) = length a /\ limbs_ok (bigint_sub a b) /\
  bigint_val (bigint_sub a b) = bigint_val a - bigint_val b.
Proof.
  intros Hlen Ha Hb Hle. unfold bigint_sub.
  destruct (sub_loop_spec a b 0) as (Hl & Hok & Hv); trivial; try lia.
  repeat split; trivial. rewrite Hv, Z.sub_0_r. apply Z.mod_small.
  pose proof (val_bound a Ha). pose proof (val_bound b Hb). lia.
Qed.

(** [bigint_shl_one] doubles modulo the width. *)
Lemma shl_loop_spec a : forall carry,
  limbs_ok a -> 0 <= carry <= 1 ->
  length (shl_loop a carry) = length a /\
  limbs_ok (shl_loop a carry) /\
  bigint_val (shl_loop a carry) = (2 * bigint_val a + carry) mod weight a.
Proof.
  induction a as [|w a IH]; intros carry Ha Hc.
  - cbn [shl_loop bigint_val length]. split; [reflexivity|]. split; [constructor|].
    rewrite weight_nil, Z.mod_1_r. reflexivity.
  - inversion Ha as [|? ? Hw Ha']; subst. cbn [shl_loop].
    rewrite u32_mod, Z.shiftl_mul_pow2, Z.shiftr_div_pow2 by lia.
    change (2 ^ 1) with 2.
    assert (Hlor : Z.lor ((w * 2) mod 2 ^ 32) carry
                   = carry + 2 * (w mod 2 ^ 31)).
    { replace ((w * 2) mod 2 ^ 32) with ((w mod 2 ^ 31) * 2 ^ 1)
        by (change (2 ^ 1) with 2; Z.div_mod_to_equations; lia).
      rewrite Z.lor_comm, lor_disjoint; change (2 ^ 1) with 2; lia. }
    rewrite Hlor.
    destruct (IH (w / 2 ^ 31)) as (Hl & Hok & Hv); trivial.
    { Z.div_mod_to_equations. lia. }
    split; [cbn [length]; now rewrite Hl|]. split.
    + constructor; trivial. Z.div_mod_to_equations. lia.
    + cbn [bigint_val]. rewrite Hv, weight_cons.
      rewrite mod_weight_cons; try lia.
      2: apply weight_pos.
      2: Z.div_mod_to_equations; lia.
      f_equal. Z.div_mod_to_equations. lia.
Qed.

Lemma shl_spec a :
  limbs_ok a ->
  length (bigint_shl_one a) = length a /\ limbs_ok (bigint_shl_one a) /\
  bigint_val (bigint_shl_one a) = (2 * bigint_val a) mod weight a.
Proof.
  intros Ha. destruct (shl_loop_spec a 0 Ha) as (Hl & Hok & Hv); [lia|].
  unfold bigint_shl_one. rewrite Z.add_0_r in Hv. auto.
Qed.

(** [bigint_shr_one] halves. *)
Lemma shr_loop_spec a :
  limbs_ok a ->
  length (fst (shr_loop a)) = length a /\
  limbs_ok (fst (shr_loop a)) /\
  bigint_val (fst (shr_loop a)) = bigint_val a / 2 /\
  snd (shr_loop a) = bigint_val a mod 2.
Proof.
  induction 1 as [|w a Hw Ha IH].
  - cbn. repeat split. constructor.
  - cbn [shr_loop]. destruct (shr_loop a) as [rest carry].
    cbn [fst snd] in *. destruct IH as (Hl & Hok & Hv & Hc).
    rewrite u32_mod, Z.shiftl_mul_pow2, Z.shiftr_div_pow2 by lia.
    change (2 ^ 1) with 2.
    assert (Hcar : 0 <= carry <= 1) by (rewrite Hc; Z.div_mod_to_equations; lia).
    rewrite (Z.mod_small (carry * 2 ^ 31)) by lia.
    rewrite lor_disjoint by (try lia; Z.div_mod_to_equations; lia).
    split; [cbn [length]; now rewrite Hl|]. split; [|split].
    + constructor; trivial. Z.div_mod_to_equations. lia.
    + cbn [bigint_val]. rewrite Hv, Hc.
      set (v := bigint_val a). Z.div_mod_to_equations. lia.
    + rewrite Z.land_ones with (n := 1) by lia. cbn [bigint_val].
      change (2 ^ 1) with 2. set (v := bigint_val a). Z.div_mod_to_equations. lia.
Qed.

Lemma shr_spec a :
  limbs_ok a ->
  length (bigint_shr_one a) = length a /\ limbs_ok (bigint_shr_one a) /\
  bigint_val (bigint_shr_one a) = bigint_val a / 2.
Proof.
  intros Ha. destruct (shr_loop_spec a Ha) as (Hl & Hok & Hv & _).
  unfold bigint_shr_one. auto.
Qed.

Lemma is_zero_spec a :
  limbs_ok a -> bigint_is_zero a = (bigint_val a =? 0).
Proof.
  unfold bigint_is_zero. induction 1 as [|w a Hw Ha IH]; [reflexivity|].
  cbn [forallb bigint_val]. rewrite IH.
  pose proof (val_bound a Ha).
  destruct (Z.eqb_spec w 0), (Z.eqb_spec (bigint_val a) 0),
    (Z.eqb_spec (w + 2 ^ 32 * bigint_val a) 0); cbn; trivial; lia.
Qed.

Lemma is_one_spec a :
  a <> [] -> limbs_ok a -> bigint_is_one a = (bigint_val a =? 1).
Proof.
  intros Hne Ha. destruct a as [|w a]; [contradiction|].
  inversion Ha as [|? ? Hw Ha']; subst.
  cbn [bigint_is_one bigint_val].
  change (forallb (fun w => w =? 0) a) with (bigint_is_zero a).
  rewrite is_zero_spec by trivial. pose proof (val_bound a Ha').
  destruct (Z.eqb_spec w 1), (Z.eqb_spec (bigint_val a) 0),
    (Z.eqb_spec (w + 2 ^ 32 * bigint_val a) 1); cbn; trivial; lia.
Qed.

Lemma is_even_spec a :
  bigint_is_even a = (bigint_val a mod 2 =? 0).
Proof.
  unfold bigint_is_even. change 1 with (Z.ones 1) at 1.
  rewrite Z.land_ones by lia. change (2 ^ 1) with 2.
  destruct a as [|w a]; [reflexivity|]. cbn [nth bigint_val].
  f_equal. set (v := bigint_val a). Z.div_mod_to_equations. lia.
Qed.

Lemma words_of_length cnt : forall x, length (words_of cnt x) = cnt.
Proof. induction cnt as [|cnt IH]; intros x; cbn; [|rewrite IH]; reflexivity. Qed.

Lemma words_of_ok cnt : forall x, limbs_ok (words_of cnt x).
Proof.
  induction cnt as [|cnt IH]; intros x; cbn [words_of]; constructor.
  - apply Z.mod_pos_bound. lia.
  - apply IH.
Qed.

Lemma words_of_val cnt : forall x,
  bigint_val (words_of cnt x) = x mod 2 ^ (32 * Z.of_nat cnt).
Proof.
  induction cnt as [|cnt IH]; intros x.
  - cbn. now rewrite Z.mod_1_r.
  - cbn [words_of bigint_val]. rewrite IH.
    replace (2 ^ (32 * Z.of_nat (S cnt))) with (2 ^ 32 * 2 ^ (32 * Z.of_nat cnt))
      by (rewrite <- Z.pow_add_r by lia; f_equal; lia).
    assert (0 < 2 ^ (32 * Z.of_nat cnt)) by (apply Z.pow_pos_nonneg; lia).
    rewrite mod_weight_cons; try lia.
    2: apply Z.mod_pos_bound; lia.
    f_equal. Z.div_mod_to_equations. lia.
Qed.

Lemma words_of_val_id a :
  limbs_ok a -> words_of (length a) (bigint_val a) = a.
Proof.
  intros Ha. apply val_inj; trivial.
  - apply words_of_length.
  - apply words_of_ok.
  - rewrite words_of_val. apply Z.mod_small. apply (val_bound a Ha).
Qed.

Lemma wf_of_Z x : wf (bigint_of_Z x).
Proof. split; [apply words_of_length|apply words_of_ok]. Qed.

Lemma val_of_Z x : bigint_val (bigint_of_Z x) = x mod 2 ^ 1024.
Proof. unfold bigint_of_Z. now rewrite words_of_val. Qed.

Lemma of_Z_val a : wf a -> bigint_of_Z (bigint_val a) = a.
Proof.
  intros [Hl Ha]. unfold bigint_of_Z. rewrite <- Hl. now apply words_of_val_id.
Qed.

Lemma weight_wf a : wf a -> weight a = 2 ^ 1024.
Proof. intros [Hl _]. unfold weight. now rewrite Hl. Qed.

Lemma set_u32_eq v : bigint_set_u32 v = bigint_of_Z (v mod 2 ^ 32).
Proof.
  apply val_inj.
  - reflexivity.
  - unfold bigint_set_u32. cbn. constructor.
    + rewrite u32_mod. apply Z.mod_pos_bound. lia.
    + repeat constructor; lia.
  - apply words_of_ok.
  - rewrite val_of_Z. unfold bigint_set_u32. cbn [bigint_zero WORDS_COUNT repeat].
    rewrite u32_mod. cbn [bigint_val]. 
    pose proof (Z.mod_pos_bound v (2 ^ 32) ltac:(lia)).
    rewrite (Z.mod_small _ (2 ^ 1024)) by lia. lia.
Qed.
End BigFacts.

(** *** The schoolbook product *)

Module BigMul.
Import Big BigFacts.

Lemma val_app a b :
  bigint_val (a ++ b) = bigint_val a + weight a * bigint_val b.
Proof.
  induction a as [|w a IH].
  - rewrite weight_nil. cbn [app bigint_val]. lia.
  - cbn [app bigint_val]. rewrite IH, weight_cons. ring.
Qed.

Lemma val_repeat_0 k : bigint_val (repeat 0 k) = 0.
Proof. induction k as [|k IH]; cbn [repeat bigint_val]; [|rewrite IH]; reflexivity. Qed.

Lemma limbs_ok_repeat_0 k : limbs_ok (repeat 0 k).
Proof. induction k; cbn; constructor; trivial. lia. Qed.

Lemma val_all_zero a : Forall (fun w => w = 0) a -> bigint_val a = 0.
Proof. induction 1 as [|w a -> _ IH]; cbn [bigint_val]; [|rewrite IH]; reflexivity. Qed.

(** One row of the schoolbook product: the row adds [ai * b] and the carry
    into the buffer, provided the entry that receives the last carry is
    still 0. *)
Lemma mul_row_spec ai b :
  0 <= ai < 2 ^ 32 -> forall temp carry,
  limbs_ok b -> limbs_ok temp -> 0 <= carry < 2 ^ 32 ->
  (length b < length temp)%nat -> nth (length b) temp 0 = 0 ->
  length (mul_row ai b temp carry) = length temp /\
  limbs_ok (mul_row ai b temp carry) /\
  skipn (S (length b)) (mul_row ai b temp carry) = skipn (S (length b)) temp /\
  bigint_val (mul_row ai b temp carry)
  = ai * bigint_val b + bigint_val temp + carry.
Proof.
  intros Hai. induction b as [|bj b IH]; intros temp carry Hb Ht Hc Hlen Hz.
  - destruct temp as [|t temp]; [cbn in Hlen; lia|].
    inversion Ht as [|? ? Ht0 Ht']; subst. cbn in Hz. subst t.
    cbn [mul_row length skipn bigint_val].
    split; [reflexivity|]. split; [constructor; trivial|].
    split; [reflexivity|]. lia.
  - destruct temp as [|t temp]; [cbn in Hlen; lia|].
    inversion Ht as [|? ? Ht0 Ht']; inversion Hb as [|? ? Hbj Hb']; subst.
    cbn [mul_row]. rewrite !ull_mod.
    assert (Hprod : 0 <= ai * bj <= (2 ^ 32 - 1) * (2 ^ 32 - 1)) by nia.
    rewrite (Z.mod_small (ai * bj)) by lia.
    rewrite (Z.mod_small (ai * bj + t)) by lia.
    rewrite (Z.mod_small (ai * bj + t + carry)) by lia.
    set (product := ai * bj + t + carry) in *.
    change 4294967295 with (Z.ones 32). rewrite Z.land_ones by lia.
    rewrite Z.shiftr_div_pow2 by lia.
    destruct (IH temp (product / 2 ^ 32)) as (Hl & Hok & Hsk & Hv); trivial.
    { Z.div_mod_to_equations. lia. }
    { cbn [length] in Hlen. lia. }
    split; [cbn [length]; now rewrite Hl|]. split; [|split].
    + constructor; trivial. apply Z.mod_pos_bound. lia.
    + cbn [length skipn]. cbn [skipn] in Hsk. exact Hsk.
    + cbn [bigint_val]. rewrite Hv. subst product.
      Z.div_mod_to_equations. lia.
Qed.

Lemma skipn_all_zero_nth k a :
  Forall (fun w => w = 0) (skipn k a) -> nth k a 0 = 0.
Proof.
  revert a. induction k as [|k IH]; intros [|w a] H; trivial.
  - cbn in *. now inversion H.
  - cbn [skipn nth] in *. now apply IH.
Qed.

Lemma skipn_S_tail {A} k (l : list A) : skipn (S k) l = skipn k (tl l).
Proof. destruct l; [now destruct k|reflexivity]. Qed.

Lemma Forall_skipn_S {A} (P : A -> Prop) k (l : list A) :
  Forall P (skipn k l) -> Forall P (skipn (S k) l).
Proof.
  revert l. induction k as [|k IH]; intros [|x l] H; cbn [skipn] in *; trivial.
  - now inversion H.
  - destruct l; [now destruct k|]. apply (IH (a :: l)). exact H.
Qed.

(** All rows: the buffer gains [a * b]. *)
Lemma mul_rows_spec a b : forall temp,
  limbs_ok a -> limbs_ok b -> limbs_ok temp ->
  (length a + length b <= length temp)%nat ->
  Forall (fun w => w = 0) (skipn (length b) temp) ->
  length (mul_rows a b temp) = length temp /\
  limbs_ok (mul_rows a b temp) /\
  bigint_val (mul_rows a b temp)
  = bigint_val a * bigint_val b + bigint_val temp.
Proof.
  induction a as [|ai a IH]; intros temp Ha Hb Ht Hlen Hz.
  - cbn [mul_rows bigint_val]. repeat split; trivial.
  - inversion Ha as [|? ? Hai Ha']; subst. cbn [mul_rows length] in *.
    destruct (mul_row_spec ai b Hai temp 0) as (Hl & Hok & Hsk & Hv); trivial;
      try lia.
    { now apply skipn_all_zero_nth. }
    destruct (mul_row ai b temp 0) as [|t0 temp'] eqn:Er.
    { cbn [length] in Hl. lia. }
    inversion Hok as [|? ? Ht0 Hok']; subst.
    destruct (IH temp') as (Hl' & Hok2 & Hv'); trivial.
    { cbn [length] in Hl. lia. }
    { change (skipn (S (length b)) (t0 :: temp')) with (skipn (length b) temp')
        in Hsk.
      rewrite Hsk. now apply Forall_skipn_S. }
    split; [cbn [length]; rewrite Hl', <- Hl; reflexivity|]. split.
    + constructor; trivial.
    + cbn [bigint_val] in *. rewrite Hv'. nia.
Qed.

Lemma val_firstn k : forall a,
  limbs_ok a ->
  bigint_val (firstn k a) = bigint_val a mod 2 ^ (32 * Z.of_nat k).
Proof.
  induction k as [|k IH]; intros a Ha.
  - cbn. now rewrite Z.mod_1_r.
  - destruct a as [|w a].
    + cbn [firstn bigint_val]. symmetry. apply Z.mod_0_l. apply Z.pow_nonzero; lia.
    + inversion Ha as [|? ? Hw Ha']; subst.
      cbn [firstn bigint_val]. rewrite IH by trivial.
      replace (2 ^ (32 * Z.of_nat (S k))) with (2 ^ 32 * 2 ^ (32 * Z.of_nat k))
        by (rewrite <- Z.pow_add_r by lia; f_equal; lia).
      apply mod_weight_cons; try lia.
Qed.

Lemma map_u32_ok a : limbs_ok a -> map u32 a = a.
Proof.
  induction 1 as [|w a Hw _ IH]; cbn [map]; [reflexivity|].
  rewrite IH, u32_mod, Z.mod_small by lia. reflexivity.
Qed.

Lemma limbs_ok_firstn k : forall a, limbs_ok a -> limbs_ok (firstn k a).
Proof.
  induction k as [|k IH]; intros a Ha; [constructor|].
  destruct Ha as [|w a Hw Ha]; cbn [firstn]; constructor; trivial.
  now apply IH.
Qed.

(** [bigint_mul] keeps the low 1024 bits of the product. *)
Theorem bigint_mul_spec a b :
  wf a -> wf b ->
  wf (bigint_mul a b) /\
  bigint_val (bigint_mul a b) = (bigint_val a * bigint_val b) mod 2 ^ 1024.
Proof.
  intros [Hla Ha] [Hlb Hb]. unfold bigint_mul.
  destruct (mul_rows_spec a b (repeat 0 (WORDS_COUNT * 2))) as (Hl & Hok & Hv);
    trivial.
  - apply limbs_ok_repeat_0.
  - rewrite Hla, Hlb, repeat_length. unfold WORDS_COUNT. lia.
  - rewrite Hlb. apply Forall_forall. intros w Hw%In_nth_error.
    destruct Hw as [i Hi]. rewrite nth_error_skipn in Hi.
    apply nth_error_In, repeat_spec in Hi. exact Hi.
  - rewrite map_u32_ok by now apply limbs_ok_firstn.
    split; [split|].
    + rewrite length_firstn, Hl, repeat_length. reflexivity.
    + now apply limbs_ok_firstn.
    + rewrite val_firstn, Hv, val_repeat_0, Z.add_0_r by trivial. reflexivity.
Qed.

End BigMul.

(** *** The 1024-bit reducer: alignment and subtraction *)

Module BigMod.
Import Big BigFacts BigMul.

Lemma wf_shl a : wf a -> wf (bigint_shl_one a).
Proof.
  intros [Hl Ha]. destruct (shl_spec a Ha) as (Hl' & Hok & _).
  split; [congruence|trivial].
Qed.

Lemma val_shl a :
  wf a -> bigint_val (bigint_shl_one a) = (2 * bigint_val a) mod 2 ^ 1024.
Proof.
  intros Hw. destruct (shl_spec a (proj2 Hw)) as (_ & _ & Hv).
  now rewrite Hv, weight_wf.
Qed.

Lemma wf_shr a : wf a -> wf (bigint_shr_one a).
Proof.
  intros [Hl Ha]. destruct (shr_spec a Ha) as (Hl' & Hok & _).
  split; [congruence|trivial].
Qed.

Lemma val_shr a : wf a -> bigint_val (bigint_shr_one a) = bigint_val a / 2.
Proof. intros Hw. now destruct (shr_spec a (proj2 Hw)) as (_ & _ & Hv). Qed.

Lemma wf_sub a b :
  wf a -> wf b -> bigint_val b <= bigint_val a -> wf (bigint_sub a b).
Proof.
  intros [Hla Ha] [Hlb Hb] Hle.
  destruct (sub_spec a b) as (Hl & Hok & _); trivial; [congruence|].
  split; [congruence|trivial].
Qed.

Lemma val_sub a b :
  wf a -> wf b -> bigint_val b <= bigint_val a ->
  bigint_val (bigint_sub a b) = bigint_val a - bigint_val b.
Proof.
  intros [Hla Ha] [Hlb Hb] Hle.
  destruct (sub_spec a b) as (_ & _ & Hv); trivial. congruence.
Qed.

Lemma val_wf_bound a : wf a -> 0 <= bigint_val a < 2 ^ 1024.
Proof. intros Hw. rewrite <- (weight_wf a Hw). apply val_bound, Hw. Qed.

Lemma wf_compare_lt a b :
  wf a -> wf b -> (bigint_compare a b <? 0) = (bigint_val a <? bigint_val b).
Proof. intros [? ?] [? ?]. apply compare_lt; trivial; congruence. Qed.

Lemma wf_compare_ge a b :
  wf a -> wf b -> (bigint_compare a b >=? 0) = (bigint_val b <=? bigint_val a).
Proof. intros [? ?] [? ?]. apply compare_ge; trivial; congruence. Qed.

Lemma wf_compare_eq a b :
  wf a -> wf b -> (bigint_compare a b =? 0) = (bigint_val a =? bigint_val b).
Proof. intros [? ?] [? ?]. apply compare_eq; trivial; congruence. Qed.

Lemma shl_iter_spec k : forall a,
  wf a ->
  wf (shl_iter k a) /\
  bigint_val (shl_iter k a) = (2 ^ Z.of_nat k * bigint_val a) mod 2 ^ 1024.
Proof.
  induction k as [|k IH]; intros a Ha.
  - cbn [shl_iter]. split; trivial. change (2 ^ Z.of_nat 0) with 1.
    rewrite Z.mul_1_l. symmetry. apply Z.mod_small, val_wf_bound, Ha.
  - cbn [shl_iter]. destruct (IH (bigint_shl_one a)) as [Hw Hv]; [now apply wf_shl|].
    split; trivial. rewrite Hv, val_shl by trivial.
    rewrite Zmult_mod_idemp_r, Nat2Z.inj_succ, Z.pow_succ_r by lia.
    f_equal. ring.
Qed.

Lemma pow2_mul_mod k v :
  0 <= k -> 0 <= v ->
  exists m, 0 <= m <= v /\ (2 ^ k * v) mod 2 ^ 1024 = 2 ^ k * m.
Proof.
  intros Hk Hv. destruct (Z.le_gt_cases k 1024) as [L|G].
  - exists (v mod 2 ^ (1024 - k)).
    assert (0 < 2 ^ (1024 - k)) by (apply Z.pow_pos_nonneg; lia).
    split; [split; [apply Z.mod_pos_bound; lia|apply Z.mod_le; lia]|].
    replace (2 ^ 1024) with (2 ^ k * 2 ^ (1024 - k))
      by (rewrite <- Z.pow_add_r by lia; f_equal; lia).
    apply Zmult_mod_distr_l.
  - exists 0. split; [lia|]. rewrite Z.mul_0_r.
    replace (2 ^ k * v) with ((2 ^ (k - 1024) * v) * 2 ^ 1024)
      by (replace k with ((k - 1024) + 1024) at 2 by lia;
          rewrite Z.pow_add_r by lia; ring).
    apply Z.mod_mul. lia.
Qed.

(** What the alignment loop returns, whenever it returns: the modulus
    shifted [k] more times, which is no longer below the product. *)
Lemma align_loop_result fuel : forall n_shifted rem shift r,
  wf n_shifted -> wf rem ->
  align_loop fuel n_shifted rem shift = Some r ->
  exists k,
    snd r = (shift + k)%nat /\ fst r = shl_iter k n_shifted /\
    bigint_val rem <= bigint_val (fst r).
Proof.
  induction fuel as [|fuel IH]; intros ns rem shift r Hns Hrem E; [discriminate|].
  cbn [align_loop] in E. rewrite wf_compare_lt in E by trivial.
  destruct (Z.ltb_spec (bigint_val ns) (bigint_val rem)) as [Hlt|Hge].
  - apply IH in E; trivial; [|now apply wf_shl].
    destruct E as (k & Es & Ef & Hle).
    exists (S k). cbn [shl_iter]. split; [lia|]. split; trivial.
  - injection E as <-. exists 0%nat. cbn [fst snd shl_iter].
    split; [lia|]. split; trivial.
Qed.

(** If doubling the modulus stays inside the width until it reaches the
    product, the alignment loop returns within [d + 1] iterations, and the
    shifts are exact. *)
Lemma align_loop_exact d : forall fuel n_shifted rem shift,
  wf n_shifted -> wf rem ->
  bigint_val rem <= 2 ^ 1023 -> 0 < bigint_val n_shifted ->
  bigint_val rem <= 2 ^ Z.of_nat d * bigint_val n_shifted ->
  (d < fuel)%nat ->
  exists k n',
    align_loop fuel n_shifted rem shift = Some (n', (shift + k)%nat) /\
    wf n' /\ bigint_val n' = 2 ^ Z.of_nat k * bigint_val n_shifted /\
    bigint_val rem <= bigint_val n'.
Proof.
  induction d as [|d IH]; intros fuel ns rem shift Hns Hrem Hr Hpos Hd Hf;
    (destruct fuel as [|fuel]; [lia|]);
    cbn [align_loop]; rewrite wf_compare_lt by trivial;
    destruct (Z.ltb_spec (bigint_val ns) (bigint_val rem)) as [Hlt|Hge].
  - change (2 ^ Z.of_nat 0) with 1 in Hd. exfalso. lia.
  - exists 0%nat, ns. rewrite Nat.add_0_r. change (2 ^ Z.of_nat 0) with 1.
    split; [reflexivity|]. split; [trivial|]. split; lia.
  - assert (Hv : bigint_val (bigint_shl_one ns) = 2 * bigint_val ns).
    { rewrite val_shl by trivial. apply Z.mod_small. lia. }
    destruct (IH fuel (bigint_shl_one ns) rem (S shift))
      as (k & n' & E & Hw & Hv' & Hle); trivial.
    + now apply wf_shl.
    + lia.
    + rewrite Hv. rewrite Nat2Z.inj_succ, Z.pow_succ_r in Hd by lia. lia.
    + lia.
    + exists (S k), n'. rewrite E. split; [f_equal; f_equal; lia|].
      split; trivial. split; trivial.
      rewrite Hv', Hv, Nat2Z.inj_succ, Z.pow_succ_r by lia. ring.
  - exists 0%nat, ns. rewrite Nat.add_0_r. change (2 ^ Z.of_nat 0) with 1.
    split; [reflexivity|]. split; [trivial|]. split; lia.
Qed.

(** The subtraction loop: with the shifted modulus equal to
    [2^(c-1) * m] and the remainder below [2^c * m], [c] iterations leave
    the remainder modulo [m]. *)
Lemma reduce_loop_spec c : forall rem n_shifted m,
  wf rem -> wf n_shifted -> 0 < m ->
  (c <> 0%nat -> bigint_val n_shifted = 2 ^ (Z.of_nat c - 1) * m) ->
  bigint_val rem < 2 ^ Z.of_nat c * m ->
  wf (reduce_loop c rem n_shifted) /\
  bigint_val (reduce_loop c rem n_shifted) = bigint_val rem mod m.
Proof.
  induction c as [|c IH]; intros rem ns m Hrem Hns Hm Hv Hlt.
  - cbn [reduce_loop]. split; trivial. change (2 ^ Z.of_nat 0) with 1 in Hlt.
    symmetry. apply Z.mod_small. pose proof (val_wf_bound rem Hrem). lia.
  - cbn [reduce_loop]. rewrite wf_compare_ge by trivial.
    specialize (Hv ltac:(discriminate)).
    replace (Z.of_nat (S c) - 1) with (Z.of_nat c) in Hv by lia.
    rewrite Nat2Z.inj_succ, Z.pow_succ_r in Hlt by lia.
    assert (Hpc : 0 < 2 ^ Z.of_nat c) by (apply Z.pow_pos_nonneg; lia).
    set (rem1 := if bigint_val ns <=? bigint_val rem then _ else _).
    assert (H1 : wf rem1 /\ bigint_val rem1 < 2 ^ Z.of_nat c * m /\
                 bigint_val rem1 mod m = bigint_val rem mod m).
    { subst rem1. destruct (Z.leb_spec (bigint_val ns) (bigint_val rem)).
      - split; [now apply wf_sub|]. rewrite val_sub by trivial. split; [lia|].
        rewrite Hv. replace (bigint_val rem - 2 ^ Z.of_nat c * m)
          with (bigint_val rem + (- 2 ^ Z.of_nat c) * m) by ring.
        apply Z.mod_add. lia.
      - split; trivial. split; [lia|reflexivity]. }
    destruct H1 as (Hw1 & Hlt1 & Hmod1).
    destruct (IH rem1 (bigint_shr_one ns) m) as [Hw Hval]; trivial.
    + now apply wf_shr.
    + intros Hc. rewrite val_shr, Hv by trivial.
      replace (Z.of_nat c) with (Z.succ (Z.of_nat c - 1)) at 1 by lia.
      rewrite Z.pow_succ_r by lia.
      replace (2 * 2 ^ (Z.of_nat c - 1) * m) with ((2 ^ (Z.of_nat c - 1) * m) * 2) by ring.
      apply Z.div_mul. lia.
    + split; trivial. congruence.
Qed.

Lemma reduce_loop_zero c : forall rem n_shifted,
  wf rem -> wf n_shifted -> bigint_val rem = 0 ->
  wf (reduce_loop c rem n_shifted) /\
  bigint_val (reduce_loop c rem n_shifted) = 0.
Proof.
  induction c as [|c IH]; intros rem ns Hrem Hns Hz; cbn [reduce_loop]; [auto|].
  rewrite wf_compare_ge by trivial.
  pose proof (val_wf_bound ns Hns).
  destruct (Z.leb_spec (bigint_val ns) (bigint_val rem)).
  - apply IH; [apply wf_sub|apply wf_shr|rewrite val_sub]; trivial; lia.
  - apply IH; trivial. now apply wf_shr.
Qed.

(** Whatever [bigint_mod_mul] returns is a canonical residue. *)
Theorem bigint_mod_mul_bound fuel a b n c :
  wf a -> wf b -> wf n -> 0 < bigint_val n ->
  bigint_mod_mul fuel a b n = Some c ->
  wf c /\ bigint_val c < bigint_val n.
Proof.
  intros Ha Hb Hn Hpos E. unfold bigint_mod_mul in E.
  destruct (bigint_mul_spec a b Ha Hb) as [Hp _].
  set (prod := bigint_mul a b) in *.
  destruct (align_loop fuel n prod 0) as [[ns shift]|] eqn:Ea; [|discriminate].
  cbn [bind] in E. injection E as <-.
  apply align_loop_result in Ea; trivial.
  destruct Ea as (k & Es & Ef & Hle). cbn [fst snd] in *. subst shift ns.
  destruct (shl_iter_spec k n Hn) as [Hw Hv].
  destruct (pow2_mul_mod (Z.of_nat k) (bigint_val n)) as (m & Hm & Em); try lia.
  rewrite Em in Hv. change (0 + k)%nat with k.
  assert (Hpk : 0 < 2 ^ Z.of_nat k) by (apply Z.pow_pos_nonneg; lia).
  destruct (Z.eq_dec m 0) as [->|Hm0].
  - destruct (reduce_loop_zero (S k) prod (shl_iter k n)) as [Hw' Hz]; trivial.
    { pose proof (val_wf_bound prod Hp). lia. }
    cbn [reduce_loop] in Hw', Hz |- *. split; trivial. lia.
  - destruct (reduce_loop_spec (S k) prod (shl_iter k n) m) as [Hw' Hz]; trivial.
    + lia.
    + intros _. rewrite Hv. f_equal. f_equal. lia.
    + rewrite Nat2Z.inj_succ, Z.pow_succ_r by lia. nia.
    + cbn [reduce_loop] in Hw', Hz |- *. split; trivial. rewrite Hz.
      pose proof (Z.mod_pos_bound (bigint_val prod) m). lia.
Qed.

(** When the product stays within [2^1023], [bigint_mod_mul] returns the
    exact residue, for any fuel of at least 1024. *)
Theorem bigint_mod_mul_exact fuel a b n :
  wf a -> wf b -> wf n -> 0 < bigint_val n ->
  bigint_val a * bigint_val b <= 2 ^ 1023 -> (1024 <= fuel)%nat ->
  bigint_mod_mul fuel a b n
  = Some (bigint_of_Z ((bigint_val a * bigint_val b) mod bigint_val n)).
Proof.
  intros Ha Hb Hn Hpos Hsmall Hf. unfold bigint_mod_mul.
  destruct (bigint_mul_spec a b Ha Hb) as [Hp Hpv].
  pose proof (val_wf_bound a Ha). pose proof (val_wf_bound b Hb).
  rewrite Z.mod_small in Hpv by nia.
  set (prod := bigint_mul a b) in *.
  destruct (align_loop_exact 1023 fuel n prod 0)
    as (k & n' & E & Hw & Hv & Hle); trivial; try lia.
  rewrite E. cbn [bind]. change (0 + k)%nat with k. f_equal.
  assert (Hpk : 0 < 2 ^ Z.of_nat k) by (apply Z.pow_pos_nonneg; lia).
  destruct (reduce_loop_spec (S k) prod n' (bigint_val n)) as [Hw' Hz]; trivial.
  - intros _. rewrite Hv. f_equal. f_equal. lia.
  - rewrite Nat2Z.inj_succ, Z.pow_succ_r by lia. nia.
  - rewrite <- Hpv, <- Hz. symmetry. now apply of_Z_val.
Qed.

End BigMod.

(** *** The 1024-bit exponentiation and the reduction of the base *)

Module BigWitness.
Import Big BigFacts BigMul BigMod.

Lemma wf_set_u32 v : wf (bigint_set_u32 v).
Proof. rewrite set_u32_eq. apply wf_of_Z. Qed.

Lemma val_set_u32 v : 0 <= v < 2 ^ 32 -> bigint_val (bigint_set_u32 v) = v.
Proof.
  intros Hv. rewrite set_u32_eq, val_of_Z, (Z.mod_small v) by lia.
  apply Z.mod_small. lia.
Qed.

(** The accumulators of [bigint_mod_exp] stay canonical residues. *)
Lemma mod_exp_loop_bound cnt : forall fuel result b e m r,
  wf result -> wf b -> wf e -> wf m -> 0 < bigint_val m ->
  bigint_val result < bigint_val m ->
  mod_exp_loop cnt fuel result b e m = Some r ->
  wf r /\ bigint_val r < bigint_val m.
Proof.
  induction cnt as [|cnt IH]; intros fuel result b e m r Hres Hb He Hm Hpos Hlt E;
    cbn [mod_exp_loop] in E.
  - injection E as <-. auto.
  - destruct (bigint_is_zero e); [injection E as <-; auto|].
    destruct (Z.land (nth 0 e 0) 1 =? 1).
    + destruct (bigint_mod_mul fuel result b m) as [result1|] eqn:E1; [|discriminate].
      cbn [bind] in E.
      destruct (bigint_mod_mul fuel b b m) as [b1|] eqn:E2; [|discriminate].
      cbn [bind] in E.
      apply bigint_mod_mul_bound in E1; trivial.
      apply bigint_mod_mul_bound in E2; trivial.
      apply IH in E; trivial; try tauto. now apply wf_shr.
    + cbn [bind] in E.
      destruct (bigint_mod_mul fuel b b m) as [b1|] eqn:E2; [|discriminate].
      cbn [bind] in E.
      apply bigint_mod_mul_bound in E2; trivial.
      apply IH in E; trivial; try tauto. now apply wf_shr.
Qed.

Theorem bigint_mod_exp_bound fuel base exp m r :
  wf base -> wf exp -> wf m -> 1 < bigint_val m ->
  bigint_mod_exp fuel base exp m = Some r ->
  wf r /\ bigint_val r < bigint_val m.
Proof.
  intros Hb He Hm Hpos E. unfold bigint_mod_exp in E.
  apply mod_exp_loop_bound in E; trivial; try lia;
    try apply wf_set_u32; try (rewrite val_set_u32; lia).
Qed.

(** Repeated subtraction reduces modulo [n]; it needs one iteration more
    than the quotient. *)
Lemma subtract_loop_spec fuel : forall temp n,
  wf temp -> wf n -> 0 < bigint_val n ->
  bigint_val temp / bigint_val n < Z.of_nat fuel ->
  subtract_loop fuel temp n
  = Some (bigint_of_Z (bigint_val temp mod bigint_val n)).
Proof.
  induction fuel as [|fuel IH]; intros temp n Ht Hn Hpos Hq.
  - pose proof (val_wf_bound temp Ht).
    assert (0 <= bigint_val temp / bigint_val n) by (apply Z.div_pos; lia). lia.
  - cbn [subtract_loop]. rewrite wf_compare_ge by trivial.
    pose proof (val_wf_bound temp Ht) as Hb.
    destruct (Z.leb_spec (bigint_val n) (bigint_val temp)) as [Hle|Hlt].
    + rewrite IH; trivial.
      * rewrite val_sub by trivial. do 2 f_equal.
        replace (bigint_val temp - bigint_val n)
          with (bigint_val temp + (-1) * bigint_val n) by ring.
        apply Z.mod_add. lia.
      * now apply wf_sub.
      * rewrite val_sub by trivial.
        replace (bigint_val temp - bigint_val n)
          with (bigint_val temp + (-1) * bigint_val n) by ring.
        rewrite Z.div_add by lia. lia.
    + rewrite Z.mod_small by lia. now rewrite of_Z_val.
Qed.

(** A base at or above the modulus: a multiple of [n] passes at once and
    leaves the caller's [a] alone. *)
Lemma witness_1024_multiple fuel n a :
  wf n -> wf a -> 0 < bigint_val n <= bigint_val a ->
  bigint_val a / bigint_val n < Z.of_nat fuel ->
  bigint_val a mod bigint_val n = 0 ->
  miller_rabin_witness_1024 fuel n a = Some (true, a).
Proof.
  intros Hn Ha Hle Hq Hz. unfold miller_rabin_witness_1024.
  rewrite wf_compare_ge by trivial.
  destruct (Z.leb_spec (bigint_val n) (bigint_val a)); [|lia].
  rewrite subtract_loop_spec by (trivial; lia). cbn [bind].
  rewrite Hz. reflexivity.
Qed.

(** Otherwise the test goes on with the reduced base. *)
Lemma witness_1024_reduces fuel n a :
  wf n -> wf a -> 0 < bigint_val n <= bigint_val a ->
  bigint_val a / bigint_val n < Z.of_nat fuel ->
  bigint_val a mod bigint_val n <> 0 ->
  miller_rabin_witness_1024 fuel n a
  = miller_rabin_witness_1024 fuel n
      (bigint_of_Z (bigint_val a mod bigint_val n)).
Proof.
  intros Hn Ha Hle Hq Hnz. unfold miller_rabin_witness_1024.
  pose proof (Z.mod_pos_bound (bigint_val a) (bigint_val n) ltac:(lia)) as Hr.
  pose proof (val_wf_bound n Hn) as Hbn.
  set (a' := bigint_of_Z (bigint_val a mod bigint_val n)).
  assert (Hva' : bigint_val a' = bigint_val a mod bigint_val n).
  { subst a'. rewrite val_of_Z. apply Z.mod_small. lia. }
  rewrite !wf_compare_ge by (trivial; apply wf_of_Z).
  destruct (Z.leb_spec (bigint_val n) (bigint_val a)); [|lia].
  destruct (Z.leb_spec (bigint_val n) (bigint_val a')); [lia|].
  rewrite subtract_loop_spec by (trivial; lia). cbn [bind]. fold a'.
  rewrite is_zero_spec by apply wf_of_Z. rewrite Hva'.
  destruct (Z.eqb_spec (bigint_val a mod bigint_val n) 0); [contradiction|].
  reflexivity.
Qed.

End BigWitness.

(** *** The 1024-bit candidate generator *)

Lemma lxor_range a b k :
  0 <= a < 2 ^ k -> 0 <= b < 2 ^ k -> 0 <= Z.lxor a b < 2 ^ k.
Proof.
  intros Ha Hb.
  assert (Hk : 0 <= k).
  { destruct (Z.le_gt_cases 0 k); trivial. rewrite Z.pow_neg_r in Ha; lia. }
  assert (Hn : 0 <= Z.lxor a b) by (apply Z.lxor_nonneg; lia).
  split; trivial.
  destruct (Z.eq_dec (Z.lxor a b) 0) as [->|Hx]; [lia|].
  apply Z.log2_lt_pow2; [lia|].
  pose proof (Z.log2_lxor a b ltac:(lia) ltac:(lia)) as Hl.
  assert (La : Z.log2 a < k \/ a = 0)
    by (destruct (Z.eq_dec a 0); [auto|left; apply Z.log2_lt_pow2; lia]).
  assert (Lb : Z.log2 b < k \/ b = 0)
    by (destruct (Z.eq_dec b 0); [auto|left; apply Z.log2_lt_pow2; lia]).
  destruct La as [La| ->], Lb as [Lb| ->].
  - lia.
  - rewrite Z.lxor_0_r in *. lia.
  - rewrite Z.lxor_0_l in *. lia.
  - rewrite Z.lxor_0_l in Hx. lia.
Qed.

Lemma lor_high_bit w k :
  0 <= k -> 0 <= w < 2 ^ (k + 1) -> Z.lor w (2 ^ k) = w mod 2 ^ k + 2 ^ k.
Proof.
  intros Hk Hw.
  assert (Hp : 0 < 2 ^ k) by (apply Z.pow_pos_nonneg; lia).
  rewrite Z.pow_add_r in Hw by lia. change (2 ^ 1) with 2 in Hw.
  assert (Hlo : 0 <= w mod 2 ^ k < 2 ^ k) by (apply Z.mod_pos_bound; lia).
  assert (Hhi : w / 2 ^ k = 0 \/ w / 2 ^ k = 1).
  { assert (0 <= w / 2 ^ k) by (apply Z.div_pos; lia).
    assert (w / 2 ^ k < 2) by (apply Z.div_lt_upper_bound; lia). lia. }
  pose proof (Z.div_mod w (2 ^ k) ltac:(lia)) as E.
  pose proof (lor_disjoint (w mod 2 ^ k) 1 k Hk Hlo) as Hd.
  rewrite Z.mul_1_l in Hd.
  destruct Hhi as [H0|H1].
  - rewrite H0 in E. replace w with (w mod 2 ^ k) at 1 by lia. exact Hd.
  - rewrite H1 in E.
    assert (Ew : w = Z.lor (w mod 2 ^ k) (2 ^ k)) by lia.
    rewrite Ew at 1. rewrite <- Z.lor_assoc, Z.lor_diag. exact Hd.
Qed.

Module BigRandom.
Import Big BigFacts.

Section WithLibc.
Context {L : Libc}.

Lemma rand_words_spec cnt : forall s,
  length (fst (rand_words cnt s)) = cnt /\ limbs_ok (fst (rand_words cnt s)).
Proof.
  induction cnt as [|cnt IH]; intros s; cbn [rand_words].
  - split; [reflexivity|constructor].
  - destruct (rand s) as [x s1], (rand s1) as [y s2].
    specialize (IH s2). destruct (rand_words cnt s2) as [rest s3].
    cbn [fst] in *. destruct IH as [Hl Hok].
    split; [cbn [length]; now rewrite Hl|].
    constructor; trivial.
    apply lxor_range; rewrite u32_mod; apply Z.mod_pos_bound; lia.
Qed.

Lemma upd_word_length i f : forall a, length (upd_word i f a) = length a.
Proof.
  induction i as [|i IH]; intros [|w a]; cbn [upd_word length]; trivial.
  now rewrite IH.
Qed.

Lemma upd_word_ok i f : forall a,
  (forall w, 0 <= w < 2 ^ 32 -> 0 <= f w < 2 ^ 32) ->
  limbs_ok a -> limbs_ok (upd_word i f a).
Proof.
  induction i as [|i IH]; intros a Hf Ha; destruct Ha as [|w a Hw Ha];
    cbn [upd_word]; constructor; auto.
  now apply IH.
Qed.

Lemma upd_word_nth_same i f : forall a,
  (i < length a)%nat -> nth i (upd_word i f a) 0 = f (nth i a 0).
Proof.
  induction i as [|i IH]; intros [|w a] Hi; cbn [length] in Hi; try lia;
    cbn [upd_word nth]; trivial.
  apply IH. lia.
Qed.

Lemma upd_word_nth_other i j f : forall a,
  i <> j -> nth j (upd_word i f a) 0 = nth j a 0.
Proof.
  revert j. induction i as [|i IH]; intros [|j] [|w a] Hij;
    cbn [upd_word nth]; trivial; try lia.
  apply IH. lia.
Qed.

Lemma val_ge_word i : forall a,
  limbs_ok a -> nth i a 0 * 2 ^ (32 * Z.of_nat i) <= bigint_val a.
Proof.
  induction i as [|i IH]; intros a Ha; destruct Ha as [|w a Hw Ha];
    cbn [nth bigint_val]; try lia.
  - pose proof (val_bound a Ha). change (2 ^ (32 * Z.of_nat 0)) with 1. lia.
  - specialize (IH a Ha).
    replace (2 ^ (32 * Z.of_nat (S i))) with (2 ^ 32 * 2 ^ (32 * Z.of_nat i))
      by (rewrite <- Z.pow_add_r by lia; f_equal; lia).
    lia.
Qed.

(** [bigint_rand_odd_1024]: bit 1023 and bit 0 are set. *)
Theorem bigint_rand_odd_1024_spec s :
  let a := fst (bigint_rand_odd_1024 s) in
  wf a /\ 2 ^ 1023 <= bigint_val a < 2 ^ 1024 /\
  Z.testbit (bigint_val a) 1023 = true /\
  Z.testbit (bigint_val a) 0 = true /\ Z.odd (bigint_val a) = true.
Proof.
  unfold bigint_rand_odd_1024, bigint_rand.
  destruct (rand_words_spec WORDS_COUNT s) as [Hl Hok].
  destruct (rand_words WORDS_COUNT s) as [a s1]. cbn [fst] in *.
  set (a1 := upd_word (WORDS_COUNT - 1) (fun w => Z.lor w 2147483648) a).
  set (a2 := upd_word 0 (fun w => Z.lor w 1) a1).
  assert (Hok1 : limbs_ok a1).
  { apply upd_word_ok; trivial. intros w Hw.
    change 2147483648 with (2 ^ 31). rewrite lor_high_bit by lia.
    Z.div_mod_to_equations. lia. }
  assert (Hok2 : limbs_ok a2).
  { apply upd_word_ok; trivial. intros w Hw.
    rewrite NativeDriver.lor_1. Z.div_mod_to_equations. lia. }
  assert (Hw2 : wf a2).
  { split; trivial. subst a2 a1. now rewrite !upd_word_length. }
  assert (Htop : 2 ^ 31 <= nth 31 a2 0).
  { subst a2. rewrite upd_word_nth_other by lia. subst a1.
    change (WORDS_COUNT - 1)%nat with 31%nat.
    rewrite upd_word_nth_same by (rewrite Hl; unfold WORDS_COUNT; lia).
    change 2147483648 with (2 ^ 31).
    assert (Hn : 0 <= nth 31 a 0 < 2 ^ 32).
    { apply (proj1 (Forall_forall _ a) Hok). apply nth_In.
      rewrite Hl. unfold WORDS_COUNT. lia. }
    rewrite lor_high_bit by lia. Z.div_mod_to_equations. lia. }
  assert (Hlow : nth 0 a2 0 mod 2 = 1).
  { subst a2. rewrite upd_word_nth_same
      by (subst a1; rewrite upd_word_length, Hl; unfold WORDS_COUNT; lia).
    rewrite NativeDriver.lor_1. Z.div_mod_to_equations. lia. }
  pose proof (BigMod.val_wf_bound a2 Hw2) as Hb.
  pose proof (val_ge_word 31 a2 Hok2) as Hge.
  change (2 ^ (32 * Z.of_nat 31)) with (2 ^ 992) in Hge.
  assert (Hrange : 2 ^ 1023 <= bigint_val a2 < 2 ^ 1024).
  { split; [|lia]. change (2 ^ 1023) with (2 ^ 31 * 2 ^ 992). nia. }
  pose proof (is_even_spec a2) as Hev. unfold bigint_is_even in Hev.
  assert (Hodd : bigint_val a2 mod 2 = 1).
  { change 1 with (Z.ones 1) in Hev at 1. rewrite Z.land_ones in Hev by lia.
    change (2 ^ 1) with 2 in Hev. rewrite Hlow in Hev.
    destruct (Z.eqb_spec (bigint_val a2 mod 2) 0); [discriminate|].
    Z.div_mod_to_equations. lia. }
  split; trivial. split; trivial. split; [|split].
  - apply Z.testbit_true; [lia|].
    replace (bigint_val a2 / 2 ^ 1023) with 1; [reflexivity|].
    apply (Z.div_unique _ (2 ^ 1023) 1 (bigint_val a2 - 2 ^ 1023)); lia.
  - rewrite Z.bit0_odd, Zodd_mod, Hodd. reflexivity.
  - rewrite Zodd_mod, Hodd. reflexivity.
Qed.

End WithLibc.
End BigRandom.

(** *** The rounds of the 1024-bit driver and its search loop *)

Module BigDriver.
Import Big BigFacts.

Section WithLibc.
Context {L : Libc}.

Lemma rand_range_state fuel n s a s1 :
  bigint_rand_range fuel n s = Some (a, s1) -> s1 = snd (bigint_rand s).
Proof.
  unfold bigint_rand_range. destruct (bigint_rand s) as [r s'].
  destruct (subtract_loop fuel r _) as [temp|]; cbn [bind]; [|discriminate].
  intros E. injection E as _ <-. reflexivity.
Qed.

Lemma big_rounds_fail rounds : forall fuel n s j,
  (j < rounds)%nat ->
  (forall i, (i < j)%nat -> big_round_verdict fuel i n s = Some true) ->
  big_round_verdict fuel j n s = Some false ->
  rounds_loop rounds fuel n s = Some (false, big_state_after (S j) s).
Proof.
  induction rounds as [|rounds IH]; intros fuel n s j Hj Hpass Hfail; [lia|].
  cbn [rounds_loop]. destruct j as [|j].
  - unfold big_round_verdict in Hfail. cbn [big_state_after] in Hfail.
    destruct (bigint_rand_range fuel n s) as [[a s1]|] eqn:Er; [|discriminate].
    cbn [bind]. apply rand_range_state in Er. subst s1.
    destruct (miller_rabin_witness_1024 fuel n a) as [[pass a']|]; [|discriminate].
    cbn in Hfail. injection Hfail as ->. reflexivity.
  - pose proof (Hpass 0%nat ltac:(lia)) as H0.
    unfold big_round_verdict in H0. cbn [big_state_after] in H0.
    destruct (bigint_rand_range fuel n s) as [[a s1]|] eqn:Er; [|discriminate].
    cbn [bind]. apply rand_range_state in Er. subst s1.
    destruct (miller_rabin_witness_1024 fuel n a) as [[pass a']|]; [|discriminate].
    cbn in H0. injection H0 as ->. cbn [bind].
    apply (IH fuel n _ j); [lia| |exact Hfail].
    intros i Hi. exact (Hpass (S i) ltac:(lia)).
Qed.

Lemma big_rounds_true rounds : forall fuel n s s',
  rounds_loop rounds fuel n s = Some (true, s') ->
  s' = big_state_after rounds s /\
  forall i, (i < rounds)%nat -> big_round_verdict fuel i n s = Some true.
Proof.
  induction rounds as [|rounds IH]; intros fuel n s s' E; cbn [rounds_loop] in E.
  - injection E as <-. split; [reflexivity|]. intros i Hi. lia.
  - destruct (bigint_rand_range fuel n s) as [[a s1]|] eqn:Er; [|discriminate].
    cbn [bind] in E.
    destruct (miller_rabin_witness_1024 fuel n a) as [[pass a']|] eqn:Ew;
      [|discriminate].
    cbn [bind] in E. destruct pass; [|discriminate].
    pose proof (rand_range_state _ _ _ _ _ Er) as Es. subst s1.
    apply IH in E. destruct E as [Es Hall]. split; [exact Es|].
    intros [|i] Hi.
    + unfold big_round_verdict. cbn [big_state_after]. rewrite Er, Ew. reflexivity.
    + apply (Hall i). lia.
Qed.

(** The 1024-bit search does not look at the clock before its thousandth
    attempt. *)
Lemma big_search_clock_free iters : forall fuel clock1 clock2 tick1 tick2 attempts s,
  0 <= attempts -> attempts + Z.of_nat iters < 1000 ->
  search_loop iters fuel clock1 tick1 attempts s
  = search_loop iters fuel clock2 tick2 attempts s.
Proof.
  induction iters as [|iters IH]; intros fuel c1 c2 t1 t2 attempts s Ha Hlt;
    [reflexivity|].
  cbn [search_loop].
  destruct (bigint_rand_odd_1024 s) as [candidate s1].
  destruct (existsb _ small_primes).
  - apply IH; lia.
  - destruct (is_probable_prime_1024 fuel candidate 10 s1) as [[ok s2]|];
      [|reflexivity].
    cbn [bind]. destruct ok; [reflexivity|].
    destruct (Z.eqb_spec ((attempts + 1) mod 1000) 0) as [E|_].
    + rewrite Z.mod_small in E by lia. lia.
    + apply IH; lia.
Qed.

End WithLibc.
End BigDriver.

(** *** The native search loop *)

Module NativeSearch.
Import Native.

Section WithLibc.
Context {L : Libc}.

(** The 30-bit search looks at the clock only to decide whether to reseed:
    while the readings stay within 60 seconds of the start, they do not
    matter. *)
Lemma search_loop_clock_free fuel :
  forall clock1 clock2 start1 start2 tick1 tick2 attempts s,
  (forall i, clock1 i - start1 <= 60) ->
  (forall i, clock2 i - start2 <= 60) ->
  search_loop fuel clock1 start1 tick1 attempts s
  = search_loop fuel clock2 start2 tick2 attempts s.
Proof.
  induction fuel as [|fuel IH];
    intros c1 c2 st1 st2 t1 t2 attempts s H1 H2; [reflexivity|].
  cbn [search_loop].
  destruct (gen_random_odd 30 s) as [[candidate s1]|]; [|reflexivity].
  destruct (match small_prime_loop small_primes candidate with
            | Some false => true | _ => false end).
  - now apply IH.
  - destruct (is_probable_prime candidate 10 s1) as [ok s2].
    destruct ok; [reflexivity|].
    destruct (Z.gtb_spec (c1 t1 - st1) 60) as [G|_]; [specialize (H1 t1); lia|].
    destruct (Z.gtb_spec (c2 t2 - st2) 60) as [G|_]; [specialize (H2 t2); lia|].
    now apply IH.
Qed.

End WithLibc.
End NativeSearch.

(** *** Facts used by several claims *)

Module ClaimFacts.
Import NativeFacts.

Lemma powmod_loop_bound fuel : forall res base exp m,
  0 < m -> 0 <= res < m -> 0 <= Native.powmod_loop fuel res base exp m < m.
Proof.
  induction fuel as [|fuel IH]; cbn [Native.powmod_loop]; intros res base exp m Hm Hres;
    [lia|].
  destruct (exp =? 0); [lia|]. apply IH; trivial.
  destruct (Z.land exp 1 =? 1); [apply mulmod_bound|]; lia.
Qed.

Lemma native_witness_reduces n a :
  0 < n ->
  Native.miller_rabin_witness n a = Native.miller_rabin_witness n (a mod n).
Proof.
  intros Hn. unfold Native.miller_rabin_witness, Native.powmod.
  rewrite Z.mod_mod by lia. reflexivity.
Qed.

Lemma small_primes_all_exact :
  forallb (fun p =>
    match Native.small_prime_loop small_primes p,
          Big.small_prime_loop small_primes (Big.bigint_set_u32 p) with
    | Some true, Some true => 2 <=? p
    | _, _ => false
    end) small_primes = true.
Proof. vm_compute. reflexivity. Qed.

(** A base below the modulus is left alone by the 1024-bit test. *)
Lemma witness_1024_frame fuel n a r a' :
  Big.wf n -> Big.wf a -> Big.bigint_val a < Big.bigint_val n ->
  Big.miller_rabin_witness_1024 fuel n a = Some (r, a') -> a' = a.
Proof.
  intros Hn Ha Hlt. unfold Big.miller_rabin_witness_1024.
  rewrite BigMod.wf_compare_ge by trivial.
  destruct (Z.leb_spec (Big.bigint_val n) (Big.bigint_val a)); [lia|].
  cbn [Big.bind].
  destruct (Big.halve_loop _ _ _) as [[d s]|]; [|discriminate]. cbn [Big.bind].
  destruct (Big.bigint_mod_exp _ _ _ _) as [x|]; [|discriminate]. cbn [Big.bind].
  destruct (_ || _); [intros E; now injection E|].
  destruct (Big.square_loop _ _ _ _ _) as [b|]; [|discriminate]. cbn [Big.bind].
  intros E; now injection E.
Qed.

(** A number from 2 on that the sieve leaves undecided is above 4, so the
    rounds of [is_probable_prime_with_print] always draw their base. *)
Lemma undecided_gt_4 n :
  2 <= n -> Native.small_prime_loop small_primes n = None -> 4 < n.
Proof.
  intros Hn Hs.
  assert (H : n = 2 \/ n = 3 \/ n = 4 \/ 4 < n) by lia.
  destruct H as [->|[->|[->|H]]]; trivial; vm_compute in Hs; discriminate.
Qed.

(** The rounds of [is_probable_prime_with_print]: the verdict is that of
    all the rounds together, and every round is run. *)
Lemma print_rounds_verdict {L : Libc} k n s :
  4 < n ->
  let r := Native.print_rounds_loop k n true s in
  (fst (fst r) = true <->
   forall i, (i < k)%nat ->
     Native.miller_rabin_witness n (round_base i n s) = true) /\
  length (snd (fst r)) = k /\ snd r = state_after k n s.
Proof.
  intros Hn. cbv zeta.
  pose proof (NativeDriver.print_rounds_loop_runs_all k n true s Hn) as H.
  destruct (Native.print_rounds_loop k n true s) as [[res out] s'].
  destruct H as (Es & El & Er & Hnth). cbn [fst snd andb] in *.
  split; [|split; trivial]. rewrite Er. split.
  - intros F i Hi. rewrite forallb_forall in F.
    specialize (F _ (nth_error_In _ _ (Hnth i Hi))). exact F.
  - intros Hall. apply forallb_forall. intros x Hx.
    apply In_nth_error in Hx as [i Hi].
    assert (Hlt : (i < k)%nat).
    { rewrite <- El. apply nth_error_Some. rewrite Hi. discriminate. }
    rewrite Hnth in Hi by trivial. injection Hi as <-. cbn [snd].
    now apply Hall.
Qed.

End ClaimFacts.

(** *** Where the 1024-bit test is sound *)

Module BigSound.
Import Big BigFacts BigMul BigMod BigWitness.

Lemma low_bit_spec a : Z.land (nth 0 a 0) 1 = bigint_val a mod 2.
Proof.
  change 1 with (Z.ones 1) at 1. rewrite Z.land_ones by lia.
  change (2 ^ 1) with 2. destruct a as [|w a]; [reflexivity|].
  cbn [nth bigint_val]. set (v := bigint_val a). mlia.
Qed.

Lemma val_of_Z_small x : 0 <= x < 2 ^ 1024 -> bigint_val (bigint_of_Z x) = x.
Proof. intros Hx. rewrite val_of_Z. now apply Z.mod_small. Qed.

(** Below [2^511] every product of residues fits the reducer, and
    [bigint_mod_exp] is square-and-multiply on exact residues. *)
Lemma mod_exp_loop_exact cnt : forall fuel result b e m,
  wf result -> wf b -> wf e -> wf m ->
  1 < bigint_val m <= 2 ^ 511 ->
  bigint_val result < bigint_val m -> bigint_val b < bigint_val m ->
  bigint_val e < 2 ^ Z.of_nat cnt -> (1024 <= fuel)%nat ->
  mod_exp_loop cnt fuel result b e m
  = Some (bigint_of_Z
            ((bigint_val result * bigint_val b ^ bigint_val e) mod bigint_val m)).
Proof.
  induction cnt as [|cnt IH]; intros fuel result b e m Hres Hb He Hm Hrange Hr Hbm Hcnt Hf;
    pose proof (val_wf_bound result Hres) as Br;
    pose proof (val_wf_bound b Hb) as Bb;
    pose proof (val_wf_bound e He) as Be;
    cbn [mod_exp_loop].
  - change (2 ^ Z.of_nat 0) with 1 in Hcnt.
    replace (bigint_val e) with 0 by lia.
    rewrite Z.pow_0_r, Z.mul_1_r, Z.mod_small by lia. now rewrite of_Z_val.
  - rewrite is_zero_spec by apply He.
    destruct (Z.eqb_spec (bigint_val e) 0) as [E0|E0].
    { rewrite E0, Z.pow_0_r, Z.mul_1_r, Z.mod_small by lia. now rewrite of_Z_val. }
    rewrite Nat2Z.inj_succ, Z.pow_succ_r in Hcnt by lia.
    assert (Hsq : forall x y, 0 <= x < bigint_val m -> 0 <= y < bigint_val m ->
                   x * y <= 2 ^ 1023).
    { intros x y Hx Hy. assert (x * y <= 2 ^ 511 * 2 ^ 511) by nia.
      change (2 ^ 511 * 2 ^ 511) with (2 ^ 1022) in *. lia. }
    rewrite low_bit_spec.
    rewrite (bigint_mod_mul_exact fuel b b m) by (trivial; try lia; apply Hsq; lia).
    assert (Hodd_case :
      (if bigint_val e mod 2 =? 1 then bigint_mod_mul fuel result b m else Some result)
      = Some (bigint_of_Z ((bigint_val result * bigint_val b ^ (bigint_val e mod 2))
                            mod bigint_val m))).
    { destruct (Z.eqb_spec (bigint_val e mod 2) 1) as [E1|E1].
      - rewrite E1, Z.pow_1_r.
        apply bigint_mod_mul_exact; trivial; try lia. apply Hsq; lia.
      - replace (bigint_val e mod 2) with 0 by mlia.
        rewrite Z.pow_0_r, Z.mul_1_r, Z.mod_small by lia. now rewrite of_Z_val. }
    rewrite Hodd_case. cbn [bind].
    assert (Hm1 : forall z, 0 <= z mod bigint_val m < 2 ^ 1024).
    { intros z. pose proof (Z.mod_pos_bound z (bigint_val m) ltac:(lia)).
      pose proof (val_wf_bound m Hm). lia. }
    rewrite IH; trivial; try apply wf_of_Z; try (now apply wf_shr);
      rewrite ?val_of_Z_small by apply Hm1; rewrite ?val_shr by trivial;
      try (apply Z.mod_pos_bound; lia).
    + f_equal. f_equal.
      rewrite Zmult_mod_idemp_l, <- Zmult_mod_idemp_r, <- Zpower_mod,
        Zmult_mod_idemp_r by lia.
      f_equal. rewrite (Z.div_mod (bigint_val e) 2) at 3 by lia.
      rewrite Z.pow_add_r, Z.pow_mul_r, Z.pow_2_r by mlia. ring.
    + mlia.
Qed.

Theorem bigint_mod_exp_exact fuel base exp m :
  wf base -> wf exp -> wf m -> 1 < bigint_val m <= 2 ^ 511 ->
  bigint_val base < bigint_val m -> (1024 <= fuel)%nat ->
  bigint_mod_exp fuel base exp m
  = Some (bigint_of_Z (bigint_val base ^ bigint_val exp mod bigint_val m)).
Proof.
  intros Hb He Hm Hrange Hlt Hf. unfold bigint_mod_exp.
  rewrite mod_exp_loop_exact; trivial; try apply wf_set_u32;
    rewrite ?val_set_u32 by lia; try lia.
  - now rewrite Z.mul_1_l.
  - change (Z.of_nat (WORDS_COUNT * 32)) with 1024. apply (val_wf_bound exp He).
Qed.

Lemma halve_loop_1024_spec fuel : forall d s,
  wf d -> 0 < bigint_val d < 2 ^ Z.of_nat fuel ->
  exists d' k,
    halve_loop fuel d s = Some (d', (s + k)%nat) /\ wf d' /\
    bigint_val d = bigint_val d' * 2 ^ Z.of_nat k /\
    bigint_val d' mod 2 = 1.
Proof.
  induction fuel as [|fuel IH]; intros d s Hd Hv.
  - change (2 ^ Z.of_nat 0) with 1 in Hv. lia.
  - cbn [halve_loop]. rewrite is_even_spec.
    rewrite Nat2Z.inj_succ, Z.pow_succ_r in Hv by lia.
    destruct (Z.eqb_spec (bigint_val d mod 2) 0) as [Ev|Od].
    + destruct (IH (bigint_shr_one d) (S s)) as (d' & k & E & Hw & Hval & Ho).
      * now apply wf_shr.
      * rewrite val_shr by trivial. mlia.
      * exists d', (S k). rewrite E. split; [do 2 f_equal; lia|].
        split; trivial. split; trivial.
        rewrite val_shr in Hval by trivial.
        rewrite Nat2Z.inj_succ, Z.pow_succ_r by lia.
        replace (bigint_val d) with (2 * (bigint_val d / 2)) by mlia.
        rewrite Hval. ring.
    + exists d, 0%nat. rewrite Nat.add_0_r. change (2 ^ Z.of_nat 0) with 1.
      split; trivial. split; trivial. split; [lia|mlia].
Qed.

Lemma square_loop_1024_hit cnt : forall fuel x n i,
  wf x -> wf n -> 1 < bigint_val n <= 2 ^ 511 ->
  bigint_val x < bigint_val n -> (1024 <= fuel)%nat ->
  1 <= i <= Z.of_nat cnt ->
  bigint_val x ^ (2 ^ i) mod bigint_val n = bigint_val n - 1 ->
  square_loop cnt fuel x n (bigint_sub n (bigint_set_u32 1)) = Some true.
Proof.
  induction cnt as [|cnt IH]; intros fuel x n i Hx Hn Hrange Hlt Hf Hi E;
    [lia|].
  cbn [square_loop].
  pose proof (val_wf_bound x Hx) as Bx. pose proof (val_wf_bound n Hn) as Bn.
  assert (Hone : bigint_val (bigint_set_u32 1) = 1) by (apply val_set_u32; lia).
  assert (Hw1 : wf (bigint_sub n (bigint_set_u32 1)))
    by (apply wf_sub; try apply wf_set_u32; trivial; lia).
  assert (Hv1 : bigint_val (bigint_sub n (bigint_set_u32 1)) = bigint_val n - 1)
    by (rewrite val_sub; try apply wf_set_u32; trivial; lia).
  assert (Hprod : bigint_val x * bigint_val x <= 2 ^ 1023).
  { assert (bigint_val x * bigint_val x <= 2 ^ 511 * 2 ^ 511) by nia.
    change (2 ^ 511 * 2 ^ 511) with (2 ^ 1022) in *. lia. }
  rewrite bigint_mod_mul_exact by (trivial; lia).
  cbn [bind].
  set (x' := bigint_of_Z _).
  assert (Hx' : bigint_val x' = (bigint_val x * bigint_val x) mod bigint_val n).
  { subst x'. apply val_of_Z_small.
    pose proof (Z.mod_pos_bound (bigint_val x * bigint_val x) (bigint_val n)). lia. }
  rewrite wf_compare_eq by (trivial; apply wf_of_Z). rewrite Hx', Hv1.
  destruct (Z.eqb_spec ((bigint_val x * bigint_val x) mod bigint_val n)
              (bigint_val n - 1)) as [|Ne]; trivial.
  apply (IH _ _ _ (i - 1)); trivial; try apply wf_of_Z.
  - rewrite Hx'. apply Z.mod_pos_bound. lia.
  - assert (i <> 1).
    { intros ->. apply Ne. rewrite <- E. change (2 ^ 1) with 2.
      now rewrite Z.pow_2_r. }
    lia.
  - rewrite Hx', <- E, <- Zpower_mod by lia.
    rewrite <- Z.pow_2_r, <- Z.pow_mul_r by (try apply Z.pow_nonneg; lia).
    do 2 f_equal. rewrite <- Z.pow_succ_r by lia. f_equal. lia.
Qed.

(** The 1024-bit witness test never rejects a prime below [2^511]: there
    the truncation of [bigint_mul] and the overflow of the alignment loop
    cannot occur. *)
Theorem miller_rabin_witness_1024_prime fuel n a :
  Z.prime n -> 3 <= n <= 2 ^ 511 -> 1 <= a < n -> (1024 <= fuel)%nat ->
  miller_rabin_witness_1024 fuel (bigint_of_Z n) (bigint_of_Z a)
  = Some (true, bigint_of_Z a).
Proof.
  intros Hp Hn Ha Hf. unfold miller_rabin_witness_1024.
  assert (Hvn : bigint_val (bigint_of_Z n) = n) by (apply val_of_Z_small; lia).
  assert (Hva : bigint_val (bigint_of_Z a) = a) by (apply val_of_Z_small; lia).
  assert (Hone : bigint_val (bigint_set_u32 1) = 1) by (apply val_set_u32; lia).
  rewrite wf_compare_ge by apply wf_of_Z. rewrite Hvn, Hva.
  destruct (Z.leb_spec n a); [lia|]. cbn [bind].
  set (n1 := bigint_sub (bigint_of_Z n) (bigint_set_u32 1)).
  assert (Hw1 : wf n1)
    by (apply wf_sub; try apply wf_of_Z; try apply wf_set_u32; lia).
  assert (Hv1 : bigint_val n1 = n - 1)
    by (subst n1; rewrite val_sub; try apply wf_of_Z; try apply wf_set_u32; lia).
  destruct (halve_loop_1024_spec fuel n1 0 Hw1) as (d & s & Eh & Hwd & Ed & Ho).
  { rewrite Hv1. split; [lia|].
    assert (2 ^ 1024 <= 2 ^ Z.of_nat fuel) by (apply Z.pow_le_mono_r; lia). lia. }
  rewrite Eh. cbn [bind]. change (0 + s)%nat with s.
  rewrite Hv1 in Ed.
  rewrite bigint_mod_exp_exact; trivial; try apply wf_of_Z; rewrite ?Hvn, ?Hva;
    try lia.
  cbn [bind].
  assert (Nd : ~ (n | a)).
  { intros D. apply Z.divide_pos_le in D; lia. }
  pose proof (fermat_little n a Hp Nd) as F.
  rewrite Ed, Z.pow_mul_r in F by (pose proof (val_wf_bound d Hwd); lia).
  apply prime_square_chain in F; trivial; [|lia].
  set (x := bigint_of_Z (a ^ bigint_val d mod n)).
  assert (Hx : bigint_val x = a ^ bigint_val d mod n).
  { subst x. apply val_of_Z_small.
    pose proof (Z.mod_pos_bound (a ^ bigint_val d) n). lia. }
  rewrite is_one_spec; [|subst x; discriminate|apply wf_of_Z].
  rewrite wf_compare_eq by (trivial; apply wf_of_Z). rewrite Hx, Hv1.
  destruct F as [F|(i & Hi & F)].
  - rewrite F. reflexivity.
  - destruct (Z.eq_dec i 0) as [->|Hi0].
    + rewrite Z.pow_0_r, Z.pow_1_r in F. rewrite F, Z.eqb_refl, orb_true_r.
      reflexivity.
    + destruct (_ || _); trivial.
      assert (Hsq : square_loop (s - 1) fuel x (bigint_of_Z n) n1 = Some true).
      { subst n1. apply (square_loop_1024_hit _ _ _ _ i); trivial;
          try apply wf_of_Z; rewrite ?Hvn, ?Hx; try lia.
        - apply Z.mod_pos_bound. lia.
        - rewrite <- Zpower_mod by lia. exact F. }
      rewrite Hsq. reflexivity.
Qed.

End BigSound.

(** *** The bounded loops never run out of iterations

    The loops of [mulmod], [powmod] and the halving of [n - 1] shift a
    64-bit operand right once per iteration, and the loop of
    [bigint_mod_exp] a 1024-bit one; the iteration bounds of the model are
    therefore never reached: more iterations change nothing. *)
Module LoopBounds.
Import NativeFacts.

Lemma half_lt_pow2 b fuel :
  0 <= b < 2 ^ Z.of_nat (S fuel) -> 0 <= b / 2 < 2 ^ Z.of_nat fuel.
Proof.
  rewrite Nat2Z.inj_succ, Z.pow_succ_r by lia. intros Hb. mlia.
Qed.

Lemma mulmod_loop_fuel fuel : forall k res a b m,
  0 <= b < 2 ^ Z.of_nat fuel ->
  Native.mulmod_loop (fuel + k) res a b m = Native.mulmod_loop fuel res a b m.
Proof.
  induction fuel as [|fuel IH]; intros k res a b m Hb.
  - change (2 ^ Z.of_nat 0) with 1 in Hb. replace b with 0 by lia.
    destruct k; reflexivity.
  - cbn [Nat.add Native.mulmod_loop]. destruct (b =? 0); trivial.
    apply IH. rewrite shiftr_1. now apply half_lt_pow2.
Qed.

Lemma powmod_loop_fuel fuel : forall k res base exp m,
  0 <= exp < 2 ^ Z.of_nat fuel ->
  Native.powmod_loop (fuel + k) res base exp m
  = Native.powmod_loop fuel res base exp m.
Proof.
  induction fuel as [|fuel IH]; intros k res base exp m He.
  - change (2 ^ Z.of_nat 0) with 1 in He. replace exp with 0 by lia.
    destruct k; reflexivity.
  - cbn [Nat.add Native.powmod_loop]. destruct (exp =? 0); trivial.
    apply IH. rewrite shiftr_1. now apply half_lt_pow2.
Qed.

Lemma halve_loop_fuel fuel : forall k d s,
  0 < d < 2 ^ Z.of_nat fuel ->
  Native.halve_loop (fuel + k) d s = Native.halve_loop fuel d s.
Proof.
  induction fuel as [|fuel IH]; intros k d s Hd.
  - change (2 ^ Z.of_nat 0) with 1 in Hd. lia.
  - cbn [Nat.add Native.halve_loop]. rewrite land_1, shiftr_1.
    destruct (Z.eqb_spec (d mod 2) 0); trivial.
    apply IH. pose proof (half_lt_pow2 d fuel ltac:(lia)). mlia.
Qed.

Lemma mod_exp_loop_fuel cnt : forall k fuel result b e m,
  limbs_ok e -> Big.bigint_val e < 2 ^ Z.of_nat cnt ->
  Big.mod_exp_loop (cnt + k) fuel result b e m
  = Big.mod_exp_loop cnt fuel result b e m.
Proof.
  induction cnt as [|cnt IH]; intros k fuel result b e m He Hv.
  - change (2 ^ Z.of_nat 0) with 1 in Hv.
    pose proof (BigFacts.val_bound e He).
    assert (Hz : Big.bigint_is_zero e = true)
      by (rewrite BigFacts.is_zero_spec by trivial; apply Z.eqb_eq; lia).
    destruct k; cbn [Nat.add Big.mod_exp_loop]; [reflexivity|now rewrite Hz].
  - cbn [Nat.add Big.mod_exp_loop]. destruct (Big.bigint_is_zero e); trivial.
    destruct (if Z.land (nth 0 e 0) 1 =? 1 then _ else _) as [result1|]; trivial.
    cbn [Big.bind]. destruct (Big.bigint_mod_mul fuel b b m) as [b1|]; trivial.
    cbn [Big.bind].
    destruct (BigFacts.shr_spec e He) as (_ & Hok & Hval).
    apply IH; trivial. rewrite Hval.
    pose proof (BigFacts.val_bound e He).
    apply (half_lt_pow2 (Big.bigint_val e) cnt). lia.
Qed.

End LoopBounds.

(** ** The claims *)

(** C1 (the witness test never rejects a prime) fails on the code.
    [12610078956637388801 = 175 * 2^56 + 1] is prime (Proth's criterion with
    base 3), it is odd, 2 is an admissible base, and the native witness
    test answers "composite": [mulmod] wraps for a modulus above 2^63. *)
Theorem C1_witness_rejects_a_prime :
  Z.prime 12610078956637388801 /\ 12610078956637388801 mod 2 = 1 /\
  2 <= 2 <= 12610078956637388801 - 2 /\
  Native.miller_rabin_witness 12610078956637388801 2 = false.
Proof.
  split.
  - apply (proth _ 175 56 3); [reflexivity|split; reflexivity|reflexivity|].
    rewrite <- Zpow_mod_correct by discriminate. vm_compute. reflexivity.
  - split; [reflexivity|]. split; [split; discriminate|].
    vm_compute. reflexivity.
Qed.

(** C2 (modular multiplication is exact) fails on the code.  Natively,
    [2^63 * 2 = 2^64] is 1 modulo [2^64 - 1], but the doubling of [a] wraps
    to 0 and [mulmod] returns 0.  In the 1024-bit program the product
    [2^512 * 2^512] is cut to its low 1024 bits, so the result modulo 3 is
    0 instead of 1; and for the modulus [2^1023 + 1] and the product
    [2^512 * (2^511 + 2^510)], which fits the width, the alignment loop
    shifts the modulus out of the width and never exits. *)
Theorem C2_mod_multiply_wraps :
  (Native.mulmod (2 ^ 63) 2 (2 ^ 64 - 1) = 0 /\
   (2 ^ 63 * 2) mod (2 ^ 64 - 1) = 1) /\
  ((forall fuel,
      Big.bigint_mod_mul (S fuel) (Big.bigint_of_Z (2 ^ 512))
        (Big.bigint_of_Z (2 ^ 512)) (Big.bigint_of_Z 3)
      = Some (Big.bigint_of_Z 0)) /\
   (2 ^ 512 * 2 ^ 512) mod 3 = 1) /\
  (forall fuel,
     Big.bigint_mod_mul fuel (Big.bigint_of_Z (2 ^ 512))
       (Big.bigint_of_Z (2 ^ 511 + 2 ^ 510)) (Big.bigint_of_Z (2 ^ 1023 + 1))
     = None).
Proof.
  split; [split; reflexivity|]. split; [split; [|reflexivity]|].
  - intros fuel. vm_compute. reflexivity.
  - intros fuel. unfold Big.bigint_mod_mul.
    replace (Big.align_loop fuel _ _ 0) with (@None (Big.bigint1024 * nat));
      [reflexivity|].
    symmetry.
    let prod := eval vm_compute in
      (Big.bigint_mul (Big.bigint_of_Z (2 ^ 512))
         (Big.bigint_of_Z (2 ^ 511 + 2 ^ 510))) in
    change (Big.bigint_mul _ _) with prod.
    apply (BigLoops.align_loop_stuck 1024); vm_compute; reflexivity.
Qed.

(** C3 (modular exponentiation is exact) fails on the code, by the defect of
    C2.  Natively [2^64] is 1 modulo [2^64 - 1] but [powmod] returns 0; in
    the 1024-bit program [(2^512)^2] is 1 modulo 3 but [bigint_mod_exp]
    returns 0. *)
Theorem C3_mod_exp_wraps :
  (Native.powmod 2 64 (2 ^ 64 - 1) = 0 /\ 2 ^ 64 mod (2 ^ 64 - 1) = 1) /\
  ((forall fuel,
      Big.bigint_mod_exp (S fuel) (Big.bigint_of_Z (2 ^ 512))
        (Big.bigint_of_Z 2) (Big.bigint_of_Z 3)
      = Some (Big.bigint_of_Z 0)) /\
   (2 ^ 512) ^ 2 mod 3 = 1).
Proof.
  split; [split; reflexivity|]. split; [|reflexivity].
  intros fuel. vm_compute. reflexivity.
Qed.

(** C4, as the code has it.  When the sieve does not decide [n],
    [is_probable_prime] answers "probably prime" only if the base of every
    round passes the witness test, and the first failing round [j] makes it
    answer "composite" with the generator left where round [j] left it: no
    later round draws a base.  The same holds for [is_probable_prime_1024],
    round by round within the fuel.  [is_probable_prime_with_print] answers
    "probably prime" exactly when the base of every round passes, but it
    does not stop at a failure: it always runs and prints all the rounds
    and leaves the generator as all of them leave it. *)
Theorem C4_rounds_short_circuit {L : Libc} (rounds j : nat) (s : rng) :
  (j < rounds)%nat ->
  (forall n, 2 <= n -> Native.small_prime_loop small_primes n = None ->
     (fst (Native.is_probable_prime n (Z.of_nat rounds) s) = true ->
      forall i, (i < rounds)%nat ->
        Native.miller_rabin_witness n (round_base i n s) = true) /\
     ((forall i, (i < j)%nat ->
         Native.miller_rabin_witness n (round_base i n s) = true) ->
      Native.miller_rabin_witness n (round_base j n s) = false ->
      Native.is_probable_prime n (Z.of_nat rounds) s
      = (false, state_after (S j) n s))) /\
  (forall fuel n, Big.small_prime_loop small_primes n = None ->
     (forall s',
        Big.is_probable_prime_1024 fuel n (Z.of_nat rounds) s = Some (true, s') ->
        forall i, (i < rounds)%nat -> big_round_verdict fuel i n s = Some true) /\
     ((forall i, (i < j)%nat -> big_round_verdict fuel i n s = Some true) ->
      big_round_verdict fuel j n s = Some false ->
      Big.is_probable_prime_1024 fuel n (Z.of_nat rounds) s
      = Some (false, big_state_after (S j) s))) /\
  (forall n, 2 <= n -> Native.small_prime_loop small_primes n = None ->
     let r := Native.is_probable_prime_with_print n (Z.of_nat rounds) s in
     (fst (fst r) = true <->
      forall i, (i < rounds)%nat ->
        Native.miller_rabin_witness n (round_base i n s) = true) /\
     fst (fst r) = fst (Native.is_probable_prime n (Z.of_nat rounds) s) /\
     length (snd (fst r)) = rounds /\
     snd r = state_after rounds n s).
Proof.
  intros Hj.
  assert (HN : forall n, 2 <= n -> Native.small_prime_loop small_primes n = None ->
            fst (Native.is_probable_prime n (Z.of_nat rounds) s) = true ->
            forall i, (i < rounds)%nat ->
              Native.miller_rabin_witness n (round_base i n s) = true).
  { intros n Hn Hs. unfold Native.is_probable_prime.
    destruct (Z.ltb_spec n 2); [lia|]. rewrite Hs, Nat2Z.id.
    intros Ht i Hi.
    destruct (NativeDriver.first_failing_round
                (fun i => Native.miller_rabin_witness n (round_base i n s)) rounds)
      as [Hall|(j' & Hj' & Hpass & Hfail)]; [now apply Hall|].
    rewrite (NativeDriver.rounds_loop_fail rounds n s j') in Ht by trivial.
    discriminate. }
  split; [|split].
  - intros n Hn Hs. split; [now apply HN|].
    unfold Native.is_probable_prime.
    destruct (Z.ltb_spec n 2); [lia|]. rewrite Hs, Nat2Z.id.
    intros Hpass Hfail. now apply NativeDriver.rounds_loop_fail.
  - intros fuel n Hs. unfold Big.is_probable_prime_1024.
    rewrite Hs, Nat2Z.id. split.
    + intros s' E. now apply BigDriver.big_rounds_true in E.
    + intros Hpass Hfail. now apply BigDriver.big_rounds_fail.
  - intros n Hn Hs. cbv zeta.
    pose proof (ClaimFacts.print_rounds_verdict rounds n s
                  (ClaimFacts.undecided_gt_4 n Hn Hs)) as Hp.
    cbv zeta in Hp.
    assert (Ew : Native.is_probable_prime_with_print n (Z.of_nat rounds) s
                 = Native.print_rounds_loop rounds n true s).
    { unfold Native.is_probable_prime_with_print.
      destruct (Z.ltb_spec n 2); [lia|]. now rewrite Hs, Nat2Z.id. }
    rewrite Ew. destruct Hp as (Hiff & Hlen & Hst).
    split; [exact Hiff|]. split; [|split; trivial].
    destruct (fst (Native.is_probable_prime n (Z.of_nat rounds) s)) eqn:Ep.
    + apply Hiff. now apply HN.
    + apply not_true_is_false. intros Ht.
      assert (Hall := proj1 Hiff Ht).
      unfold Native.is_probable_prime in Ep.
      destruct (Z.ltb_spec n 2); [lia|]. rewrite Hs, Nat2Z.id in Ep.
      rewrite NativeDriver.rounds_loop_pass in Ep by trivial. discriminate.
Qed.

Lemma C4_rounds_short_circuit_witness :
  @Native.is_probable_prime iso_libc 44521 10 1
  = (false, @state_after iso_libc 1 44521 1) /\
  snd (@Native.is_probable_prime_with_print iso_libc 44521 10 1)
  = @state_after iso_libc 10 44521 1.
Proof.
  pose proof (@C4_rounds_short_circuit iso_libc 10 0 1 ltac:(lia))
    as (HN & _ & HP).
  split.
  - refine (proj2 (HN 44521 _ _) _ _).
    + lia.
    + reflexivity.
    + intros i Hi. lia.
    + vm_compute. reflexivity.
  - refine (proj2 (proj2 (proj2 (HP 44521 _ _)))).
    + lia.
    + reflexivity.
Defined.

(** C4 as stated fails for [is_probable_prime_with_print], which has no
    return inside its loop.  For [44521 = 211 * 211], which the sieve leaves
    undecided, the base of the first round fails; the function answers
    "composite" only after all ten rounds, with ten lines printed and the
    generator where ten draws leave it, not where the first one left it. *)
Lemma C4_counterexample :
  Native.small_prime_loop small_primes 44521 = None /\
  Native.miller_rabin_witness 44521 (@round_base iso_libc 0 44521 1) = false /\
  fst (fst (@Native.is_probable_prime_with_print iso_libc 44521 10 1)) = false /\
  length (snd (fst (@Native.is_probable_prime_with_print iso_libc 44521 10 1)))
  = 10%nat /\
  snd (@Native.is_probable_prime_with_print iso_libc 44521 10 1)
  = @state_after iso_libc 10 44521 1 /\
  @state_after iso_libc 10 44521 1 <> @state_after iso_libc 1 44521 1.
Proof.
  split; [reflexivity|]. split; [vm_compute; reflexivity|].
  split; [vm_compute; reflexivity|]. split; [vm_compute; reflexivity|].
  split; [vm_compute; reflexivity|]. vm_compute. discriminate.
Qed.

(** C5.  Every prime of the table is reported as an exact match by the
    sieve stage, so the primality predicate answers "prime" for it without
    drawing a base. *)
Theorem C5_small_primes_exact {L : Libc} (p : Z) :
  In p small_primes ->
  (Native.small_prime_loop small_primes p = Some true /\
   forall k s, Native.is_probable_prime p k s = (true, s)) /\
  (Big.small_prime_loop small_primes (Big.bigint_set_u32 p) = Some true /\
   forall fuel rounds s,
     Big.is_probable_prime_1024 fuel (Big.bigint_set_u32 p) rounds s
     = Some (true, s)).
Proof.
  intros Hin.
  pose proof (proj1 (forallb_forall _ _) ClaimFacts.small_primes_all_exact p Hin) as H.
  cbv beta in H.
  destruct (Native.small_prime_loop small_primes p) as [[|]|] eqn:En;
    try discriminate.
  destruct (Big.small_prime_loop small_primes (Big.bigint_set_u32 p)) as [[|]|] eqn:Eb;
    try discriminate.
  apply Z.leb_le in H. split; split; trivial.
  - intros k s. unfold Native.is_probable_prime.
    destruct (Z.ltb_spec p 2); [lia|]. now rewrite En.
  - intros fuel rounds s. unfold Big.is_probable_prime_1024. now rewrite Eb.
Qed.

Lemma C5_small_primes_exact_witness :
  @Native.is_probable_prime iso_libc 199 10 1 = (true, 1) /\
  @Big.is_probable_prime_1024 iso_libc 0 (Big.bigint_set_u32 199) 10 1
  = Some (true, 1).
Proof.
  assert (Hin : In 199 small_primes) by (vm_compute; tauto).
  split.
  - exact (proj2 (proj1 (@C5_small_primes_exact iso_libc 199 Hin)) 10 1).
  - exact (proj2 (proj2 (@C5_small_primes_exact iso_libc 199 Hin)) 0%nat 10 1).
Defined.

(** C6, as the code has it.  For a bit length from 2 to 63 the native
    generator returns a value of exactly that many bits, with the top bit
    and the bottom bit set; the 1024-bit generator always returns a value
    with bit 1023 and bit 0 set. *)
Theorem C6_random_odd_bits {L : Libc} (bits : Z) (s : rng) :
  2 <= bits <= 63 ->
  (exists r s', Native.gen_random_odd bits s = Some (r, s') /\
     2 ^ (bits - 1) <= r < 2 ^ bits /\
     Z.testbit r (bits - 1) = true /\ Z.testbit r 0 = true /\
     Z.odd r = true) /\
  (let a := fst (Big.bigint_rand_odd_1024 s) in
   Big.wf a /\ 2 ^ 1023 <= Big.bigint_val a < 2 ^ 1024 /\
   Z.testbit (Big.bigint_val a) 1023 = true /\
   Z.testbit (Big.bigint_val a) 0 = true /\ Z.odd (Big.bigint_val a) = true).
Proof.
  intros Hb. split.
  - now apply NativeDriver.gen_random_odd_spec.
  - apply BigRandom.bigint_rand_odd_1024_spec.
Qed.

Lemma C6_random_odd_bits_witness :
  exists r s', @Native.gen_random_odd iso_libc 30 2 = Some (r, s') /\
    2 ^ (30 - 1) <= r < 2 ^ 30 /\
    Z.testbit r (30 - 1) = true /\ Z.testbit r 0 = true /\ Z.odd r = true.
Proof.
  exact (proj1 (@C6_random_odd_bits iso_libc 30 2 ltac:(lia))).
Defined.

(** C6 as stated fails for a bit length above the native width: for
    [bits = 65] the shift [1ULL << 64] is undefined and no value with bit 64
    set exists in 64 bits; the model returns nothing. *)
Lemma C6_counterexample :
  ~ (exists r s', @Native.gen_random_odd iso_libc 65 2 = Some (r, s') /\
       2 ^ (65 - 1) <= r /\ Z.odd r = true).
Proof.
  intros (r & s' & E & _). vm_compute in E. discriminate.
Qed.

(** C7.  A base at or above the modulus is first reduced: the verdict is
    that of the reduced base, and a base that reduces to 0 passes.  In the
    1024-bit program the reduction is a repeated subtraction, which needs
    [a / n + 1] iterations. *)
Theorem C7_base_reduced_first (n a : Z) :
  0 < n -> n <= a ->
  (Native.miller_rabin_witness n a = Native.miller_rabin_witness n (a mod n) /\
   (a mod n = 0 -> Native.miller_rabin_witness n a = true)) /\
  (a < 2 ^ 1024 -> forall fuel, a / n < Z.of_nat fuel ->
   (a mod n = 0 ->
    Big.miller_rabin_witness_1024 fuel (Big.bigint_of_Z n) (Big.bigint_of_Z a)
    = Some (true, Big.bigint_of_Z a)) /\
   (a mod n <> 0 ->
    Big.miller_rabin_witness_1024 fuel (Big.bigint_of_Z n) (Big.bigint_of_Z a)
    = Big.miller_rabin_witness_1024 fuel (Big.bigint_of_Z n)
        (Big.bigint_of_Z (a mod n)))).
Proof.
  intros Hn Ha. split.
  - split; [now apply ClaimFacts.native_witness_reduces|].
    intros Hz. unfold Native.miller_rabin_witness. now rewrite Hz.
  - intros Hlt fuel Hq.
    assert (Hvn : Big.bigint_val (Big.bigint_of_Z n) = n)
      by (rewrite BigFacts.val_of_Z; apply Z.mod_small; lia).
    assert (Hva : Big.bigint_val (Big.bigint_of_Z a) = a)
      by (rewrite BigFacts.val_of_Z; apply Z.mod_small; lia).
    split; intros Hr.
    + apply BigWitness.witness_1024_multiple;
        try apply BigFacts.wf_of_Z; rewrite ?Hvn, ?Hva; trivial; lia.
    + rewrite BigWitness.witness_1024_reduces;
        try apply BigFacts.wf_of_Z; rewrite ?Hvn, ?Hva; trivial; lia.
Qed.

Lemma C7_base_reduced_first_witness :
  Native.miller_rabin_witness 5 10 = true /\
  Big.miller_rabin_witness_1024 3 (Big.bigint_of_Z 5) (Big.bigint_of_Z 10)
  = Some (true, Big.bigint_of_Z 10).
Proof.
  split.
  - refine (proj2 (proj1 (C7_base_reduced_first 5 10 _ _)) _);
      [lia|lia|reflexivity].
  - refine (proj1 (proj2 (C7_base_reduced_first 5 10 _ _) _ 3%nat _) _);
      [lia|lia|reflexivity|reflexivity|reflexivity].
Defined.

(** C8 fails on the code.  [miller_rabin_witness_1024] receives the base
    through a pointer to [const] and stores the reduced base through it:
    called with [n = 5] and [a = 7], it leaves 2 in the caller's [a]. *)
Theorem C8_witness_overwrites_base :
  forall fuel,
    Big.miller_rabin_witness_1024 (4 + fuel) (Big.bigint_of_Z 5)
      (Big.bigint_of_Z 7)
    = Some (true, Big.bigint_of_Z 2) /\
    Big.bigint_of_Z 2 <> Big.bigint_of_Z 7.
Proof.
  intros fuel. split; [vm_compute; reflexivity|discriminate].
Qed.

(** C9, as the code has it.  The 30-bit search does not depend on the
    clock as long as no reading is more than 60 seconds after the start,
    and the 1024-bit search does not depend on it before its thousandth
    attempt: under these conditions two runs from the same generator state
    return the same prime and the same attempt count. *)
Theorem C9_search_repeatable {L : Libc} (iters : nat)
    (clock1 clock2 : nat -> Z) (s : rng) :
  (forall i, clock1 i - clock1 0%nat <= 60) ->
  (forall i, clock2 i - clock2 0%nat <= 60) ->
  Native.generate_30bit_prime iters clock1 s
  = Native.generate_30bit_prime iters clock2 s /\
  ((iters < 1000)%nat -> forall fuel,
   Big.generate_1024bit_prime iters fuel clock1 s
   = Big.generate_1024bit_prime iters fuel clock2 s).
Proof.
  intros H1 H2. split.
  - now apply NativeSearch.search_loop_clock_free.
  - intros Hi fuel. apply BigDriver.big_search_clock_free; lia.
Qed.

Lemma C9_search_repeatable_witness :
  @Native.generate_30bit_prime iso_libc 60 (fun _ => 1000) 7
  = @Native.generate_30bit_prime iso_libc 60 (fun i => 1000 + Z.of_nat i mod 60) 7.
Proof.
  refine (proj1 (@C9_search_repeatable iso_libc 60 _ _ 7 _ _)).
  - intros i. cbv beta. lia.
  - intros i. cbv beta. change (Z.of_nat 0 mod 60) with 0.
    pose proof (Z.mod_pos_bound (Z.of_nat i) 60). lia.
Defined.

(** C9 as stated fails: from the same seed, a run whose clock passes the
    60 second mark reseeds from the clock and accepts another prime after
    another number of attempts. *)
Lemma C9_counterexample :
  @Native.generate_30bit_prime iso_libc 60 (fun _ => 1000) 7
  = Some (564412951, 12) /\
  @Native.generate_30bit_prime iso_libc 60
    (fun i => match i with O => 1000 | _ => 1061 end) 7
  = Some (927862483, 8).
Proof. split; vm_compute; reflexivity. Qed.

(** C10 fails on the code, by the defect of C2.  The modulus [2^1023 + 1] is
    odd and fits the width, and so do the operands, which are even below
    it; but the alignment loop of [bigint_mod_mul] shifts the modulus out of
    the width and never exits, so neither [bigint_mod_mul] nor
    [bigint_mod_exp] returns a residue, whatever the fuel. *)
Theorem C10_no_residue_returned :
  (3 <= 2 ^ 1023 + 1 < 2 ^ 1024 /\ (2 ^ 1023 + 1) mod 2 = 1 /\
   0 <= 2 ^ 512 < 2 ^ 1023 + 1 /\ 0 <= 2 ^ 511 + 2 ^ 510 < 2 ^ 1023 + 1 /\
   0 <= 3 * 2 ^ 510 < 2 ^ 1023 + 1) /\
  (forall fuel,
     Big.bigint_mod_mul fuel (Big.bigint_of_Z (2 ^ 512))
       (Big.bigint_of_Z (2 ^ 511 + 2 ^ 510)) (Big.bigint_of_Z (2 ^ 1023 + 1))
     = None) /\
  (forall fuel,
     Big.bigint_mod_exp fuel (Big.bigint_of_Z (3 * 2 ^ 510))
       (Big.bigint_of_Z 2) (Big.bigint_of_Z (2 ^ 1023 + 1))
     = None).
Proof.
  split; [|split].
  - repeat split; try reflexivity; discriminate.
  - intros fuel. unfold Big.bigint_mod_mul.
    replace (Big.align_loop fuel _ _ 0) with (@None (Big.bigint1024 * nat));
      [reflexivity|].
    symmetry.
    let prod := eval vm_compute in
      (Big.bigint_mul (Big.bigint_of_Z (2 ^ 512))
         (Big.bigint_of_Z (2 ^ 511 + 2 ^ 510))) in
    change (Big.bigint_mul _ _) with prod.
    apply (BigLoops.align_loop_stuck 1024); vm_compute; reflexivity.
  - intros fuel. unfold Big.bigint_mod_exp.
    change (Big.WORDS_COUNT * 32)%nat with (S 1023).
    cbn [Big.mod_exp_loop].
    replace (Big.bigint_is_zero (Big.bigint_of_Z 2)) with false
      by (vm_compute; reflexivity).
    replace (Z.land (nth 0 (Big.bigint_of_Z 2) 0) 1 =? 1) with false
      by (vm_compute; reflexivity).
    cbn [Big.bind].
    replace (Big.bigint_mod_mul fuel (Big.bigint_of_Z (3 * 2 ^ 510))
               (Big.bigint_of_Z (3 * 2 ^ 510)) (Big.bigint_of_Z (2 ^ 1023 + 1)))
      with (@None Big.bigint1024); [reflexivity|].
    symmetry. unfold Big.bigint_mod_mul.
    replace (Big.align_loop fuel _ _ 0) with (@None (Big.bigint1024 * nat));
      [reflexivity|].
    symmetry.
    let prod := eval vm_compute in
      (Big.bigint_mul (Big.bigint_of_Z (3 * 2 ^ 510))
         (Big.bigint_of_Z (3 * 2 ^ 510))) in
    change (Big.bigint_mul _ _) with prod.
    apply (BigLoops.align_loop_stuck 1024); vm_compute; reflexivity.
Qed.

(** Where the modular layer keeps its results canonical, for an odd modulus
    [n >= 3].  Natively [mulmod] and [powmod] return values below [n] and
    their loops keep the accumulators below [n]; in the 1024-bit program
    whatever [bigint_mod_mul] and [bigint_mod_exp] return is below [n], and
    [bigint_mod_mul] does return, with the exact residue, whenever the
    product is at most [2^1023]. *)
Theorem canonical_residues_where_returned (n a b e : Z) :
  3 <= n -> n mod 2 = 1 -> 0 <= a -> 0 <= b -> 0 <= e ->
  (n < 2 ^ 64 ->
   0 <= Native.mulmod a b n < n /\ 0 <= Native.powmod a e n < n /\
   (forall fuel res x y, 0 <= res < n -> 0 <= x < n ->
      0 <= Native.mulmod_loop fuel res x y n < n) /\
   (forall fuel res x y, 0 <= res < n ->
      0 <= Native.powmod_loop fuel res x y n < n)) /\
  (n < 2 ^ 1024 -> a < 2 ^ 1024 -> b < 2 ^ 1024 -> e < 2 ^ 1024 ->
   forall fuel,
   (forall c,
      Big.bigint_mod_mul fuel (Big.bigint_of_Z a) (Big.bigint_of_Z b)
        (Big.bigint_of_Z n) = Some c ->
      Big.wf c /\ Big.bigint_val c < n) /\
   (forall c,
      Big.bigint_mod_exp fuel (Big.bigint_of_Z a) (Big.bigint_of_Z e)
        (Big.bigint_of_Z n) = Some c ->
      Big.wf c /\ Big.bigint_val c < n) /\
   (a * b <= 2 ^ 1023 -> (1024 <= fuel)%nat ->
    Big.bigint_mod_mul fuel (Big.bigint_of_Z a) (Big.bigint_of_Z b)
      (Big.bigint_of_Z n)
    = Some (Big.bigint_of_Z ((a * b) mod n)))).
Proof.
  intros Hn Hodd Ha Hb He. split.
  - intros Hlt. split; [apply NativeFacts.mulmod_bound; lia|].
    split; [unfold Native.powmod; apply ClaimFacts.powmod_loop_bound; lia|].
    split.
    + intros fuel res x y Hres Hx. apply NativeFacts.mulmod_loop_bound; lia.
    + intros fuel res x y Hres. apply ClaimFacts.powmod_loop_bound; lia.
  - intros Hn' Ha' Hb' He' fuel.
    assert (Hvn : Big.bigint_val (Big.bigint_of_Z n) = n)
      by (rewrite BigFacts.val_of_Z; apply Z.mod_small; lia).
    assert (Hva : Big.bigint_val (Big.bigint_of_Z a) = a)
      by (rewrite BigFacts.val_of_Z; apply Z.mod_small; lia).
    assert (Hvb : Big.bigint_val (Big.bigint_of_Z b) = b)
      by (rewrite BigFacts.val_of_Z; apply Z.mod_small; lia).
    split; [|split].
    + intros c E. apply BigMod.bigint_mod_mul_bound in E;
        try apply BigFacts.wf_of_Z; rewrite ?Hvn in *; trivial; lia.
    + intros c E. apply BigWitness.bigint_mod_exp_bound in E;
        try apply BigFacts.wf_of_Z; rewrite ?Hvn in *; trivial; lia.
    + intros Hab Hf.
      rewrite BigMod.bigint_mod_mul_exact;
        try apply BigFacts.wf_of_Z; rewrite ?Hvn, ?Hva, ?Hvb; trivial; lia.
Qed.

Lemma canonical_residues_example :
  (0 <= Native.mulmod 5 6 7 < 7 /\ 0 <= Native.powmod 5 3 7 < 7) /\
  Big.bigint_mod_mul 1024 (Big.bigint_of_Z 5) (Big.bigint_of_Z 6)
    (Big.bigint_of_Z 7)
  = Some (Big.bigint_of_Z ((5 * 6) mod 7)).
Proof.
  pose proof (canonical_residues_where_returned 7 5 6 3 ltac:(lia) eq_refl ltac:(lia)
                ltac:(lia) ltac:(lia)) as [HN HB].
  split.
  - destruct (HN eq_refl) as (H1 & H2 & _). split; assumption.
  - refine (proj2 (proj2 (HB eq_refl eq_refl eq_refl eq_refl 1024%nat)) _ _).
    + discriminate.
    + apply Nat.le_refl.
Defined.

(** * Further properties of the code

    The rest of the development covers the code around the claims: the
    interactive part of the native program, the arithmetic unit and the
    output of the 1024-bit program, and what else the functions above
    guarantee. *)

(** *** The native sieve and driver *)

Module NativeSieve.
Import Native NativeFacts NativeDriver.

Lemma small_primes_range p : In p small_primes -> 2 <= p <= 199.
Proof.
  assert (F : forallb (fun p => (2 <=? p) && (p <=? 199)) small_primes = true)
    by reflexivity.
  intros H. apply (proj1 (forallb_forall _ _) F) in H.
  apply andb_true_iff in H as [H1 H2]. apply Z.leb_le in H1, H2. lia.
Qed.

(** No entry of the table divides another one. *)
Lemma small_primes_coprime p q :
  In p small_primes -> In q small_primes -> q mod p = 0 -> p = q.
Proof.
  assert (F : forallb (fun p => forallb (fun q =>
                implb (q mod p =? 0) (p =? q)) small_primes) small_primes = true)
    by (vm_compute; reflexivity).
  intros Hp Hq E.
  apply (proj1 (forallb_forall _ _) F) in Hp.
  apply (proj1 (forallb_forall _ _) Hp) in Hq.
  rewrite E in Hq. cbn in Hq. now apply Z.eqb_eq.
Qed.

Lemma small_prime_loop_false ps n :
  small_prime_loop ps n = Some false ->
  exists p, In p ps /\ p <> n /\ n mod p = 0.
Proof.
  induction ps as [|p ps IH]; cbn [small_prime_loop]; [discriminate|].
  destruct (Z.eqb_spec p n) as [|Hne]; [discriminate|].
  destruct (Z.eqb_spec (n mod p) 0) as [E|_].
  - intros _. exists p. repeat split; trivial. now left.
  - intros H. destruct (IH H) as (q & Hq & Hqn & Eq).
    exists q. repeat split; trivial. now right.
Qed.

Lemma small_prime_loop_true ps n :
  small_prime_loop ps n = Some true -> In n ps.
Proof.
  induction ps as [|p ps IH]; cbn [small_prime_loop]; [discriminate|].
  destruct (Z.eqb_spec p n) as [->|Hne]; [now left|].
  destruct (n mod p =? 0); [discriminate|]. intros H. right. now apply IH.
Qed.

Lemma small_prime_loop_none ps n :
  small_prime_loop ps n = None ->
  forall p, In p ps -> p <> n /\ n mod p <> 0.
Proof.
  induction ps as [|p ps IH]; cbn [small_prime_loop]; intros H q Hq; [destruct Hq|].
  destruct (Z.eqb_spec p n) as [|Hne]; [discriminate|].
  destruct (Z.eqb_spec (n mod p) 0) as [|Hm]; [discriminate|].
  destruct Hq as [<-|Hq]; [split; trivial|now apply IH].
Qed.

Lemma small_prime_loop_reject ps n :
  ~ In n ps -> (exists p, In p ps /\ n mod p = 0) ->
  small_prime_loop ps n = Some false.
Proof.
  induction ps as [|p ps IH]; cbn [small_prime_loop]; intros Hn (q & Hq & E).
  - destruct Hq.
  - destruct (Z.eqb_spec p n) as [->|Hne]; [exfalso; apply Hn; now left|].
    destruct (Z.eqb_spec (n mod p) 0) as [|Hm]; trivial.
    apply IH.
    + intros H. apply Hn. now right.
    + destruct Hq as [->|Hq]; [contradiction|]. now exists q.
Qed.

(** A number the sieve leaves undecided is above 4, so the rounds always
    take the branch that draws a random base. *)
Lemma undecided_above_4 n :
  2 <= n -> small_prime_loop small_primes n = None -> 200 <= n.
Proof.
  intros Hn H.
  destruct (Z_lt_dec n 200) as [Hlt|]; [exfalso|lia].
  assert (F : forallb (fun m =>
                match small_prime_loop small_primes m with
                | None => false | Some _ => true end)
              (map Z.of_nat (seq 2 198)) = true) by (vm_compute; reflexivity).
  assert (Hin : In n (map Z.of_nat (seq 2 198))).
  { apply in_map_iff. exists (Z.to_nat n). split; [lia|].
    apply in_seq. lia. }
  apply (proj1 (forallb_forall _ _) F) in Hin. rewrite H in Hin. discriminate.
Qed.

Section WithLibc.
Context {L : Libc}.

Lemma round_base_range j n s :
  4 <= n < 2 ^ 64 -> 2 <= round_base j n s <= n - 2.
Proof.
  intros Hn. unfold round_base.
  rewrite (ull_mod (n - 3)), (Z.mod_small (n - 3)) by lia.
  pose proof (rand_ull_range (n - 3) (state_after j n s) ltac:(lia)) as Hr.
  rewrite ull_mod, Z.mod_small; lia.
Qed.

Lemma rounds_loop_verdict k n s :
  fst (rounds_loop k n s)
  = forallb (fun i => miller_rabin_witness n (round_base i n s)) (seq 0 k).
Proof.
  destruct (first_failing_round
              (fun i => miller_rabin_witness n (round_base i n s)) k)
    as [Hall|(j & Hj & Hpass & Hfail)].
  - rewrite rounds_loop_pass by trivial. cbn [fst]. symmetry.
    apply forallb_forall. intros i Hi. apply in_seq in Hi. apply Hall. lia.
  - rewrite (rounds_loop_fail k n s j) by trivial. cbn [fst]. symmetry.
    apply not_true_is_false. intros F.
    rewrite forallb_forall in F. specialize (F j).
    rewrite Hfail in F. discriminate F. apply in_seq. lia.
Qed.

Lemma forallb_nth_seq (f : nat -> Z * bool) (P : nat -> bool) k :
  forall out, length out = k ->
  (forall i, (i < k)%nat -> nth_error out i = Some (f i)) ->
  (forall i, (i < k)%nat -> snd (f i) = P i) ->
  forallb snd out = forallb P (seq 0 k).
Proof.
  intros out Hl Hn Hs.
  assert (E : out = map f (seq 0 k)).
  { apply nth_error_ext. intros i.
    destruct (Nat.lt_ge_cases i k) as [Hi|Hi].
    - rewrite Hn by trivial. rewrite nth_error_map, nth_error_seq.
      destruct (Nat.ltb_spec i k); [reflexivity|lia].
    - rewrite (proj2 (nth_error_None _ _)) by lia.
      rewrite (proj2 (nth_error_None _ _)); trivial.
      rewrite length_map, length_seq. lia. }
  rewrite E. clear E Hl Hn.
  assert (G : forall l, (forall i, In i l -> (i < k)%nat) ->
              forallb snd (map f l) = forallb P l).
  { induction l as [|i l IH]; intros Hk; [reflexivity|].
    cbn [map forallb]. rewrite Hs by (apply Hk; now left).
    rewrite IH; trivial. intros i' Hi'. apply Hk. now right. }
  apply G. intros i Hi. apply in_seq in Hi. lia.
Qed.

End WithLibc.
End NativeSieve.

(** *** The native witness test, characterised *)

Module NativeWitness.
Import Native NativeFacts.

(** The decomposition [d * 2^s] with [d] odd is unique. *)
Lemma two_adic_unique d s d' s' :
  0 <= s -> 0 <= s' -> d mod 2 = 1 -> d' mod 2 = 1 ->
  d * 2 ^ s = d' * 2 ^ s' -> d = d' /\ s = s'.
Proof.
  assert (G : forall d s d' s', 0 <= s -> s < s' -> d mod 2 = 1 ->
              d * 2 ^ s = d' * 2 ^ s' -> False).
  { clear. intros d s d' s' Hs Hlt Hd E.
    replace s' with (Z.succ (s' - s - 1) + s) in E by lia.
    rewrite Z.pow_add_r, Z.pow_succ_r, Z.mul_assoc in E by lia.
    apply Z.mul_cancel_r in E; [|apply Z.pow_nonzero; lia].
    rewrite E in Hd. rewrite (Z.mul_comm 2), Z.mul_assoc, Z.mod_mul in Hd; lia. }
  intros Hs Hs' Hd Hd' E.
  destruct (Z.lt_trichotomy s s') as [Hlt|[->|Hgt]].
  - exfalso. exact (G d s d' s' Hs Hlt Hd E).
  - split; trivial. apply Z.mul_cancel_r in E; trivial. apply Z.pow_nonzero; lia.
  - exfalso. symmetry in E. exact (G d' s' d s Hs' Hgt Hd' E).
Qed.

Lemma square_loop_true cnt : forall x n,
  1 < n <= 2 ^ 63 -> 0 <= x < n -> square_loop cnt x n = true ->
  exists i, 1 <= i <= Z.of_nat cnt /\ x ^ (2 ^ i) mod n = n - 1.
Proof.
  induction cnt as [|cnt IH]; cbn [square_loop]; intros x n Hn Hx E; [discriminate|].
  rewrite mulmod_spec in E by lia. rewrite ull_mod in E.
  rewrite (Z.mod_small (n - 1)) in E by lia.
  destruct (Z.eqb_spec (x * x mod n) (n - 1)) as [Eq|Ne].
  - exists 1. split; [lia|]. change (2 ^ 1) with 2. now rewrite Z.pow_2_r.
  - apply IH in E; [|lia|apply Z.mod_pos_bound; lia].
    destruct E as (i & Hi & E). exists (i + 1). split; [lia|].
    rewrite <- E, <- Zpower_mod by lia.
    rewrite <- Z.pow_2_r, <- Z.pow_mul_r by (try apply Z.pow_nonneg; lia).
    do 2 f_equal. rewrite Z.pow_add_r by lia. change (2 ^ 1) with 2. ring.
Qed.

(** The verdict in terms of the powers of the base. *)
Lemma witness_iff n a d s :
  3 <= n <= 2 ^ 63 -> n mod 2 = 1 -> 0 <= s -> d mod 2 = 1 ->
  n - 1 = d * 2 ^ s ->
  miller_rabin_witness n a = true <->
  (a mod n = 0 \/ a ^ d mod n = 1 \/
   exists r, 0 <= r < s /\ a ^ (d * 2 ^ r) mod n = n - 1).
Proof.
  intros Hn Hodd Hs Hd Edec. unfold miller_rabin_witness.
  destruct (Z.eqb_spec (a mod n) 0) as [Ha|Ha]; [tauto|].
  rewrite ?ull_mod. rewrite (Z.mod_small (n - 1)) by lia.
  destruct (halve_loop 64 (n - 1) 0) as [d0 s0] eqn:Eh.
  apply halve_loop_spec in Eh; [|change (Z.of_nat 64) with 64; lia].
  destruct Eh as (Hs0 & Ed0 & Ho0 & Hd0). rewrite Z.sub_0_r in Ed0.
  destruct (two_adic_unique d s d0 s0) as [<- <-]; trivial; [lia|].
  assert (Hpow : 0 < 2 ^ s) by (apply Z.pow_pos_nonneg; lia).
  assert (Hdn : 0 < d < n) by nia.
  assert (Hs1 : 1 <= s).
  { destruct (Z.eq_dec s 0) as [->|]; [|lia]. exfalso.
    rewrite Z.pow_0_r, Z.mul_1_r in Edec. rewrite <- Edec in Hd. mlia. }
  rewrite powmod_spec by lia.
  assert (Hx : 0 <= a ^ d mod n < n) by (apply Z.mod_pos_bound; lia).
  assert (Hchain : forall i, 0 <= i ->
            (a ^ d mod n) ^ (2 ^ i) mod n = a ^ (d * 2 ^ i) mod n).
  { intros i Hi. rewrite <- Zpower_mod by lia.
    now rewrite Z.pow_mul_r by (try apply Z.pow_nonneg; lia). }
  split.
  - intros H. right.
    destruct (Z.eqb_spec (a ^ d mod n) 1) as [E1|_]; [now left|].
    right.
    destruct (Z.eqb_spec (a ^ d mod n) (n - 1)) as [E2|_].
    + exists 0. split; [lia|]. now rewrite Z.pow_0_r, Z.mul_1_r.
    + cbn [orb] in H. apply square_loop_true in H; [|lia|trivial].
      destruct H as (i & Hi & E). exists i. split; [lia|].
      rewrite <- Hchain by lia. exact E.
  - intros [H|[H|(r & Hr & H)]]; [contradiction| |].
    + rewrite H. reflexivity.
    + destruct (Z.eq_dec r 0) as [->|Hr0].
      * rewrite Z.pow_0_r, Z.mul_1_r in H.
        rewrite H, Z.eqb_refl, orb_true_r. reflexivity.
      * destruct (_ || _); trivial.
        apply (square_loop_hit _ _ _ r); try lia.
        rewrite Hchain by lia. exact H.
Qed.

(** A base that passes satisfies Fermat's congruence. *)
Lemma witness_fermat n a :
  3 <= n <= 2 ^ 63 -> n mod 2 = 1 -> a mod n <> 0 ->
  miller_rabin_witness n a = true -> a ^ (n - 1) mod n = 1.
Proof.
  intros Hn Hodd Ha H.
  destruct (two_adic (n - 1)) as (s & d & Hs & Hd & E & Ho); [lia|].
  rewrite (Z.mul_comm _ d) in E.
  apply (witness_iff n a d s) in H; trivial.
  assert (Hm1 : (n - 1) * (n - 1) mod n = 1).
  { replace ((n - 1) * (n - 1)) with (1 + (n - 2) * n) by ring.
    rewrite Z.mod_add, Z.mod_small; lia. }
  destruct H as [H|[H|(r & Hr & H)]]; [contradiction| |].
  - rewrite E, Z.pow_mul_r by lia.
    rewrite Zpower_mod, H, Z.pow_1_l by (try apply Z.pow_nonneg; lia).
    apply Z.mod_small. lia.
  - assert (Hp1 : 0 <= 2 ^ r) by (apply Z.pow_nonneg; lia).
    assert (Hp2 : 0 <= 2 ^ (s - r - 1)) by (apply Z.pow_nonneg; lia).
    assert (En : n - 1 = (d * 2 ^ r) * (2 * 2 ^ (s - r - 1))).
    { rewrite E. replace s with (r + 1 + (s - r - 1)) at 1 by lia.
      rewrite !Z.pow_add_r by lia. change (2 ^ 1) with 2. ring. }
    rewrite En, Z.pow_mul_r by nia.
    set (y := a ^ (d * 2 ^ r)) in *.
    rewrite Z.pow_mul_r by lia.
    rewrite Zpower_mod by lia.
    rewrite (Zpower_mod y 2 n) by lia.
    rewrite H, Z.pow_2_r, Hm1, Z.pow_1_l by trivial.
    apply Z.mod_small. lia.
Qed.

End NativeWitness.

(** *** The native generator under a 15-bit [rand] *)

Module NativeBits.
Import Native NativeFacts NativeDriver.

Lemma testbit_small x i : 0 <= x < 2 ^ i -> Z.testbit x i = false.
Proof.
  intros Hx. destruct (Z.eq_dec x 0) as [->|N]; [apply Z.testbit_0_l|].
  apply Z.bits_above_log2; [lia|]. apply Z.log2_lt_pow2; lia.
Qed.

Section WithLibc.
Context {L : Libc}.
Hypothesis rand_15 : forall s, 0 <= fst (rand s) < 2 ^ 15.

Lemma rand32_bit15 s : Z.testbit (fst (rand32 s)) 15 = false.
Proof.
  unfold rand32. destruct (rand s) as [x s1]. pose proof (rand_15 s1) as Hy.
  destruct (rand s1) as [y s2]. cbn [fst] in *.
  rewrite Z.lor_spec. unfold u32.
  rewrite !Z.land_spec, Z.shiftl_spec_low by lia.
  rewrite (testbit_small y 15) by lia. reflexivity.
Qed.

Lemma rand_ull_bit15 k s :
  15 < k -> Z.testbit (fst (rand_ull (2 ^ k) s)) 15 = false.
Proof.
  intros Hk. unfold rand_ull.
  destruct (Z.eqb_spec (2 ^ k) 0) as [E|_];
    [pose proof (Z.pow_pos_nonneg 2 k); lia|].
  destruct (rand32 s) as [hi s1].
  pose proof (rand32_bit15 s1) as Hlo.
  destruct (rand32 s1) as [lo s2]. cbn [fst] in *.
  rewrite Z.mod_pow2_bits_low by lia.
  rewrite Z.lor_spec, Hlo. unfold ull.
  rewrite Z.land_spec, Z.shiftl_spec_low by lia. reflexivity.
Qed.

Lemma gen_random_odd_bit15 bits s r s' :
  17 <= bits <= 63 -> gen_random_odd bits s = Some (r, s') ->
  Z.testbit r 15 = false.
Proof.
  intros Hb. unfold gen_random_odd, shl_ull.
  destruct (Z.ltb_spec bits 2); [lia|].
  replace ((0 <=? bits - 1) && (bits - 1 <? 64)) with true
    by (symmetry; apply andb_true_iff; split; [apply Z.leb_le|apply Z.ltb_lt]; lia).
  replace ((0 <=? bits) && (bits <? 64)) with true
    by (symmetry; apply andb_true_iff; split; [apply Z.leb_le|apply Z.ltb_lt]; lia).
  rewrite !Z.shiftl_1_l.
  assert (Hhigh : 0 < 2 ^ (bits - 1)) by (apply Z.pow_pos_nonneg; lia).
  assert (Htop : 2 ^ bits = 2 * 2 ^ (bits - 1)).
  { rewrite <- Z.pow_succ_r by lia. f_equal. lia. }
  assert (Hlt : 2 ^ bits < 2 ^ 64) by (apply Z.pow_lt_mono_r; lia).
  rewrite (ull_mod (2 ^ bits)), (ull_mod (2 ^ (bits - 1))).
  rewrite !Z.mod_small by lia.
  rewrite ull_mod, Z.mod_small by lia.
  replace (2 ^ bits - 2 ^ (bits - 1)) with (2 ^ (bits - 1)) by lia.
  pose proof (rand_ull_range (2 ^ (bits - 1)) s Hhigh) as Hr.
  pose proof (rand_ull_bit15 (bits - 1) s ltac:(lia)) as Hbit.
  destruct (rand_ull (2 ^ (bits - 1)) s) as [r0 s1]. cbn [fst] in *.
  rewrite ull_mod, Z.mod_small by lia.
  intros E. injection E as <- <-.
  rewrite Z.lor_spec.
  replace (r0 + 2 ^ (bits - 1)) with (Z.lor r0 (1 * 2 ^ (bits - 1)))
    by (rewrite lor_disjoint; lia).
  rewrite Z.lor_spec, Hbit, Z.mul_1_l, Z.pow2_bits_false by lia.
  reflexivity.
Qed.

End WithLibc.

Lemma iso_rand_15 : forall s, 0 <= fst (@rand iso_libc s) < 2 ^ 15.
Proof.
  intros s. cbn [rand iso_libc iso_rand fst]. apply Z.mod_pos_bound. lia.
Qed.

End NativeBits.

(** *** What the 30-bit search returns *)

Module NativeResult.
Import Native NativeFacts NativeDriver NativeSieve.

Section WithLibc.
Context {L : Libc}.

Lemma search_loop_result fuel :
  forall clock start tick attempts s p att,
  search_loop fuel clock start tick attempts s = Some (p, att) ->
  (2 ^ 29 <= p < 2 ^ 30 /\ Z.odd p = true /\
   (forall q, In q small_primes -> p mod q <> 0) /\
   attempts < att <= attempts + Z.of_nat fuel) /\
  exists s0 s1, gen_random_odd 30 s0 = Some (p, s1) /\
    fst (is_probable_prime p 10 s1) = true.
Proof.
  induction fuel as [|fuel IH]; intros clock start tick attempts s p att E;
    [discriminate|].
  cbn [search_loop] in E.
  destruct (gen_random_odd_spec 30 s ltac:(lia)) as (c & s1 & Eg & Hc & _ & _ & Hodd).
  rewrite Eg in E.
  assert (Hstep : forall r, r < att <= r + Z.of_nat fuel ->
            attempts + 1 = r -> attempts < att <= attempts + Z.of_nat (S fuel))
    by (intros; lia).
  destruct (small_prime_loop small_primes c) as [[|]|] eqn:Es.
  - apply small_prime_loop_true, small_primes_range in Es.
    change (2 ^ (30 - 1)) with 536870912 in Hc. lia.
  - apply IH in E. destruct E as ((H1 & H2 & H3 & H4) & H5).
    split; [|exact H5]. repeat split; trivial; lia.
  - destruct (is_probable_prime c 10 s1) as [ok s2] eqn:Ep.
    destruct ok.
    + injection E as <- <-. split.
      * split; [exact Hc|]. split; [exact Hodd|]. split; [|lia].
        intros q Hq. now apply (small_prime_loop_none _ _ Es).
      * exists s, s1. split; trivial. now rewrite Ep.
    + destruct (clock tick - start >? 60);
        apply IH in E; destruct E as ((H1 & H2 & H3 & H4) & H5);
        (split; [|exact H5]); repeat split; trivial; lia.
Qed.

End WithLibc.
End NativeResult.

(** *** The report of [check_input_hex] *)

Module NativeReport.
Import Native NativeFacts NativeDriver NativeSieve NativeIO.

Lemma input_sieve_spec ps n :
  match input_sieve ps n with
  | Some (EqualsSmallPrime p) => small_prime_loop ps n = Some true /\ p = n
  | Some (DivisibleBySmallPrime p) =>
      small_prime_loop ps n = Some false /\ In p ps /\ n mod p = 0
  | Some _ => False
  | None => small_prime_loop ps n = None
  end.
Proof.
  induction ps as [|p ps IH]; cbn [input_sieve small_prime_loop]; trivial.
  destruct (Z.eqb_spec p n) as [->|Hne]; [split; trivial|].
  destruct (Z.eqb_spec (n mod p) 0) as [E|_].
  - repeat split; trivial. now left.
  - destruct (input_sieve ps n) as [[]|]; trivial.
    destruct IH as (H1 & H2 & H3). repeat split; trivial. now right.
Qed.

Section WithLibc.
Context {L : Libc}.

Lemma with_print_undecided n k s :
  2 <= n -> small_prime_loop small_primes n = None ->
  let '(res, out, s') := is_probable_prime_with_print n k s in
  res = fst (is_probable_prime n k s) /\
  length out = Z.to_nat k /\ res = forallb snd out /\
  s' = state_after (Z.to_nat k) n s /\
  forall i, (i < Z.to_nat k)%nat ->
    nth_error out i
    = Some (round_base i n s, miller_rabin_witness n (round_base i n s)).
Proof.
  intros Hn Hs. unfold is_probable_prime_with_print, is_probable_prime.
  destruct (Z.ltb_spec n 2); [lia|]. rewrite Hs.
  pose proof (undecided_above_4 n Hn Hs) as H200.
  pose proof (print_rounds_loop_runs_all (Z.to_nat k) n true s ltac:(lia)) as Hp.
  destruct (print_rounds_loop (Z.to_nat k) n true s) as [[res out] s'].
  destruct Hp as (Es & El & Er & Hnth). cbn [andb] in Er.
  repeat split; trivial.
  rewrite rounds_loop_verdict, Er.
  apply (forallb_nth_seq
           (fun i => (round_base i n s, miller_rabin_witness n (round_base i n s))));
    trivial.
Qed.

Lemma with_print_verdict n k s :
  fst (fst (is_probable_prime_with_print n k s)) = fst (is_probable_prime n k s).
Proof.
  destruct (Z_lt_dec n 2) as [Hlt|Hge].
  - unfold is_probable_prime_with_print, is_probable_prime.
    destruct (Z.ltb_spec n 2); [reflexivity|lia].
  - destruct (small_prime_loop small_primes n) as [b|] eqn:Es.
    + unfold is_probable_prime_with_print, is_probable_prime.
      destruct (Z.ltb_spec n 2); [reflexivity|]. now rewrite Es.
    + pose proof (with_print_undecided n k s ltac:(lia) Es) as H.
      destruct (is_probable_prime_with_print n k s) as [[res out] s'].
      cbn [fst]. tauto.
Qed.

Lemma verdict_of_app pre e : verdict_of (pre ++ [e]) = verdict_of [e].
Proof. unfold verdict_of. now rewrite last_last. Qed.

End WithLibc.
End NativeReport.

(** *** The menu loop of [main] *)

Module NativeMenu.
Import Native NativeIO.

Lemma skip_line_incl stdin x : In x (skip_line stdin) -> In x stdin.
Proof.
  induction stdin as [|c rest IH]; cbn [skip_line]; trivial.
  destruct (c =? 10); intros H; right; auto.
Qed.

Lemma read_line_incl cnt : forall stdin x,
  In x (snd (read_line cnt stdin)) -> In x stdin.
Proof.
  induction cnt as [|cnt IH]; intros [|c rest] x; cbn [read_line snd]; trivial.
  destruct (c =? 10); [cbn [snd]; intros H; now right|].
  specialize (IH rest x). destruct (read_line cnt rest) as [line rest'].
  cbn [snd] in *. intros H. right. auto.
Qed.

Lemma fgets_incl size stdin x : In x (snd (fgets size stdin)) -> In x stdin.
Proof.
  destruct stdin as [|c rest]; cbn [fgets snd]; trivial.
  pose proof (read_line_incl (size - 1) (c :: rest) x) as H.
  destruct (read_line (size - 1) (c :: rest)) as [line rest']. exact H.
Qed.

Section WithEnvironment.
Context {L : Libc}.
Variable strtoull : list Z -> Z.
Variable clock : nat -> Z.
Variable fopen_ok : nat -> bool.

(** [search_run] is the search of [generate_30bit_prime]. *)
Lemma search_run_agrees fuel : forall start tick attempts s,
  option_map (fun r => (fst (fst (fst r)), snd (fst (fst r))))
    (search_run clock fuel start tick attempts s)
  = search_loop fuel clock start tick attempts s.
Proof.
  induction fuel as [|fuel IH]; intros start tick attempts s; [reflexivity|].
  cbn [search_run search_loop].
  destruct (gen_random_odd 30 s) as [[candidate s1]|]; [|reflexivity].
  destruct (match small_prime_loop small_primes candidate with
            | Some false => true | _ => false end); [apply IH|].
  destruct (is_probable_prime candidate 10 s1) as [ok s2].
  destruct ok; [reflexivity|].
  destruct (clock tick - start >? 60); apply IH.
Qed.

(** Without a character ['3'] in the input the menu loop is never left. *)
Lemma main_loop_stays fuel : forall iters stdin s tick files,
  ~ In 51 stdin ->
  main_loop strtoull clock fopen_ok fuel iters stdin s tick files = None.
Proof.
  induction fuel as [|fuel IH]; intros iters stdin s tick files Hno; [reflexivity|].
  cbn [main_loop].
  assert (Hc : fst (getchar stdin) <> 51 /\ ~ In 51 (snd (getchar stdin))).
  { destruct stdin as [|c rest]; cbn [getchar fst snd].
    - split; [discriminate|tauto].
    - split; intros H; apply Hno; [now left|now right]. }
  destruct (getchar stdin) as [c stdin1]. cbn [fst snd] in Hc.
  destruct Hc as [Hc Hno1].
  assert (Hno2 : ~ In 51 (skip_line stdin1))
    by (intros H; apply Hno1; now apply skip_line_incl).
  destruct (c =? 49).
  - pose proof (fgets_incl 256 (skip_line stdin1) 51) as Hf.
    destruct (fgets 256 (skip_line stdin1)) as [line stdin3]. cbn [snd] in Hf.
    destruct (check_input_hex (option_map strtoull line) s) as [out s1].
    rewrite IH; [reflexivity|tauto].
  - destruct (c =? 50).
    + destruct (search_run clock iters (clock tick) (S tick) 0 s)
        as [[[[p attempts] s1] tick1]|]; [|reflexivity].
      rewrite IH; [reflexivity|trivial].
    + destruct (Z.eqb_spec c 51); [contradiction|].
      rewrite IH; [reflexivity|trivial].
Qed.

End WithEnvironment.
End NativeMenu.

(** *** The native driver on primes *)

Module NativeSound.

Lemma driver_accepts_primes {L : Libc} (n k : Z) (s : rng) :
  Z.prime n -> n <= 2 ^ 63 ->
  fst (Native.is_probable_prime n k s) = true.
Proof.
  intros Hp Hn. pose proof (Z.prime_ge_2 _ Hp) as H2.
  unfold Native.is_probable_prime.
  destruct (Z.ltb_spec n 2); [lia|].
  destruct (Native.small_prime_loop small_primes n) as [[|]|] eqn:Es; trivial.
  - exfalso.
    apply NativeSieve.small_prime_loop_false in Es as (p & Hin & Hne & Hm).
    apply NativeSieve.small_primes_range in Hin.
    apply Z.mod_divide in Hm; [|lia].
    pose proof (Z.divide_pos_le p n ltac:(lia) Hm).
    destruct Hp as [_ Hp]. apply (Hp p); trivial. lia.
  - rewrite NativeDriver.rounds_loop_pass; trivial.
    intros i _. apply NativeFacts.miller_rabin_witness_prime; trivial.
    pose proof (NativeSieve.undecided_above_4 n H2 Es). lia.
Qed.

End NativeSound.

(** *** The 1024-bit unit: addition, trial division, zero modulus *)

Module BigMore.
Import Big BigFacts BigMul BigMod BigWitness.

(** [bigint_add] adds with a carry out of the top word. *)
Lemma add_loop_spec a : forall b sum,
  length a = length b -> limbs_ok a -> limbs_ok b -> 0 <= sum <= 1 ->
  length (fst (add_loop a b sum)) = length a /\
  limbs_ok (fst (add_loop a b sum)) /\
  0 <= snd (add_loop a b sum) <= 1 /\
  bigint_val (fst (add_loop a b sum)) + weight a * snd (add_loop a b sum)
  = bigint_val a + bigint_val b + sum.
Proof.
  induction a as [|x a IH]; intros [|y b] sum Hlen Ha Hb Hs; try discriminate.
  - cbn [add_loop fst snd bigint_val length]. rewrite weight_nil, u32_mod.
    rewrite Z.mod_small by lia. repeat split; try lia. constructor.
  - inversion Ha as [|? ? Hx Ha']; inversion Hb as [|? ? Hy Hb']; subst.
    cbn [add_loop]. rewrite !ull_mod, u32_mod.
    rewrite (Z.mod_small (sum + x)) by lia.
    rewrite (Z.mod_small (sum + x + y)) by lia.
    rewrite Z.shiftr_div_pow2 by lia.
    set (t := sum + x + y).
    assert (Ht : 0 <= t < 2 * 2 ^ 32) by (subst t; lia).
    destruct (IH b (t / 2 ^ 32)) as (Hl & Hok & Hc & Hv); trivial.
    { now injection Hlen. }
    { Z.div_mod_to_equations. lia. }
    destruct (add_loop a b (t / 2 ^ 32)) as [c out]. cbn [fst snd] in *.
    split; [cbn [length]; now rewrite Hl|]. split.
    + constructor; trivial. apply Z.mod_pos_bound. lia.
    + split; trivial. cbn [bigint_val]. rewrite weight_cons.
      replace (t mod 2 ^ 32 + 2 ^ 32 * bigint_val c + 2 ^ 32 * weight a * out)
        with (t mod 2 ^ 32 + 2 ^ 32 * (bigint_val c + weight a * out)) by ring.
      rewrite Hv. subst t. Z.div_mod_to_equations. lia.
Qed.

Lemma add_spec a b :
  wf a -> wf b ->
  wf (fst (bigint_add a b)) /\ 0 <= snd (bigint_add a b) <= 1 /\
  bigint_val (fst (bigint_add a b)) + 2 ^ 1024 * snd (bigint_add a b)
  = bigint_val a + bigint_val b.
Proof.
  intros [La Ha] [Lb Hb]. unfold bigint_add.
  destruct (add_loop_spec a b 0) as (Hl & Hok & Hc & Hv); trivial; try lia.
  rewrite (weight_wf a) in Hv by (split; trivial).
  repeat split; trivial; lia.
Qed.

(** [bigint_sub] wraps modulo [2^1024]. *)
Lemma sub_wrap a b :
  wf a -> wf b ->
  wf (bigint_sub a b) /\
  bigint_val (bigint_sub a b) = (bigint_val a - bigint_val b) mod 2 ^ 1024.
Proof.
  intros [La Ha] [Lb Hb]. unfold bigint_sub.
  destruct (sub_loop_spec a b 0) as (Hl & Hok & Hv); trivial; try lia.
  rewrite (weight_wf a), Z.sub_0_r in Hv by (split; trivial).
  repeat split; trivial. congruence.
Qed.

(** Horner's rule computes the remainder of the value. *)
Lemma horner_rem_spec a p :
  limbs_ok a -> 0 < p <= 2 ^ 32 -> horner_rem a p = bigint_val a mod p.
Proof.
  intros Ha Hp. induction Ha as [|w a Hw Ha IH]; cbn [horner_rem bigint_val].
  - now rewrite Z.mod_0_l by lia.
  - rewrite IH.
    pose proof (Z.mod_pos_bound (bigint_val a) p ltac:(lia)) as Hr.
    rewrite Z.shiftl_mul_pow2, ull_mod by lia.
    rewrite (Z.mod_small (bigint_val a mod p * 2 ^ 32)) by nia.
    rewrite Z.lor_comm, lor_disjoint by lia.
    rewrite Zplus_mod, (Z.mul_comm _ (2 ^ 32)), Zmult_mod_idemp_r.
    now rewrite <- Zplus_mod.
Qed.

Lemma divisible_spec a p :
  limbs_ok a -> 0 < p <= 2 ^ 32 ->
  bigint_divisible_by_small_prime a p = (bigint_val a mod p =? 0).
Proof.
  intros Ha Hp. unfold bigint_divisible_by_small_prime.
  now rewrite horner_rem_spec.
Qed.

(** The repeated subtraction needs more iterations than the quotient. *)
Lemma subtract_loop_short fuel : forall temp n,
  wf temp -> wf n -> 0 < bigint_val n ->
  Z.of_nat fuel <= bigint_val temp / bigint_val n ->
  subtract_loop fuel temp n = None.
Proof.
  induction fuel as [|fuel IH]; intros temp n Ht Hn Hpos Hq; [reflexivity|].
  cbn [subtract_loop]. rewrite wf_compare_ge by trivial.
  pose proof (val_wf_bound temp Ht) as Hb.
  destruct (Z.leb_spec (bigint_val n) (bigint_val temp)) as [Hle|Hlt].
  - apply IH; trivial; [now apply wf_sub|].
    rewrite val_sub by trivial.
    replace (bigint_val temp - bigint_val n)
      with (bigint_val temp + (-1) * bigint_val n) by ring.
    rewrite Z.div_add by lia. lia.
  - rewrite Z.div_small in Hq by lia. lia.
Qed.

(** With a zero modulus it never ends. *)
Lemma subtract_loop_zero fuel : forall temp n,
  wf temp -> wf n -> bigint_val n = 0 -> subtract_loop fuel temp n = None.
Proof.
  induction fuel as [|fuel IH]; intros temp n Ht Hn Hz; [reflexivity|].
  cbn [subtract_loop]. rewrite wf_compare_ge by trivial.
  pose proof (val_wf_bound temp Ht) as Hb.
  destruct (Z.leb_spec (bigint_val n) (bigint_val temp)) as [Hle|Hlt]; [|lia].
  apply IH; trivial. apply wf_sub; trivial.
Qed.

Lemma wf_zero_val n : wf n -> bigint_val n = 0 -> bigint_shl_one n = n.
Proof.
  intros Hn Hz. pose proof Hn as [Ln Ho].
  apply val_inj.
  - now destruct (shl_spec n Ho) as (Hl & _).
  - now destruct (shl_spec n Ho) as (_ & Hk & _).
  - trivial.
  - rewrite val_shl, Hz by trivial. reflexivity.
Qed.

Lemma mod_mul_zero_modulus fuel a b n :
  wf a -> wf b -> wf n -> bigint_val n = 0 ->
  (bigint_val a * bigint_val b) mod 2 ^ 1024 <> 0 ->
  bigint_mod_mul fuel a b n = None.
Proof.
  intros Ha Hb Hn Hz Hp. unfold bigint_mod_mul.
  destruct (bigint_mul_spec a b Ha Hb) as [Hwp Hvp].
  rewrite (BigLoops.align_loop_stuck 0); [reflexivity| |].
  - cbn [shl_orbit forallb]. rewrite andb_true_r.
    rewrite wf_compare_lt by trivial. apply Z.ltb_lt.
    pose proof (Z.mod_pos_bound (bigint_val a * bigint_val b) (2 ^ 1024)).
    lia.
  - cbn [shl_iter]. now apply wf_zero_val.
Qed.

Lemma witness_zero_modulus fuel n a :
  wf n -> wf a -> bigint_val n = 0 ->
  miller_rabin_witness_1024 fuel n a = None.
Proof.
  intros Hn Ha Hz. unfold miller_rabin_witness_1024.
  rewrite wf_compare_ge by trivial.
  pose proof (val_wf_bound a Ha).
  destruct (Z.leb_spec (bigint_val n) (bigint_val a)); [|lia].
  rewrite subtract_loop_zero by trivial. reflexivity.
Qed.

End BigMore.

(** *** The 1024-bit sieve and the random base *)

Module BigSieve.
Import Big BigFacts BigMul BigMod BigWitness BigMore.

Lemma sieve_1024_reject ps n :
  wf n -> (forall q, In q ps -> 0 < q < 2 ^ 32) ->
  ~ In (bigint_val n) ps ->
  (exists p, In p ps /\ bigint_val n mod p = 0) ->
  small_prime_loop ps n = Some false.
Proof.
  intros Hn. pose proof Hn as [_ Ho].
  induction ps as [|p ps IH]; intros Hr Hni (q & Hq & E); [destruct Hq|].
  cbn [small_prime_loop].
  assert (Hp : 0 < p < 2 ^ 32) by (apply Hr; now left).
  rewrite divisible_spec by (trivial; lia).
  destruct (Z.eqb_spec (bigint_val n mod p) 0) as [Ep|Np].
  - rewrite wf_compare_eq by (trivial; apply wf_set_u32).
    rewrite val_set_u32 by lia.
    destruct (Z.eqb_spec (bigint_val n) p) as [Eq|]; trivial.
    exfalso. apply Hni. now left.
  - apply IH.
    + intros q' Hq'. apply Hr. now right.
    + intros H. apply Hni. now right.
    + destruct Hq as [->|Hq]; [contradiction|]. now exists q.
Qed.

Lemma sieve_1024_none ps n :
  wf n -> (forall q, In q ps -> 0 < q < 2 ^ 32) ->
  small_prime_loop ps n = None ->
  forall p, In p ps -> bigint_val n mod p <> 0.
Proof.
  intros Hn. pose proof Hn as [_ Ho].
  induction ps as [|p ps IH]; intros Hr E q Hq; [destruct Hq|].
  cbn [small_prime_loop] in E.
  assert (Hp : 0 < p < 2 ^ 32) by (apply Hr; now left).
  rewrite divisible_spec in E by (trivial; lia).
  destruct (Z.eqb_spec (bigint_val n mod p) 0) as [|Np]; [discriminate|].
  destruct Hq as [<-|Hq]; trivial.
  apply IH; trivial. intros q' Hq'. apply Hr. now right.
Qed.

Lemma sieve_1024_true ps n :
  wf n -> (forall q, In q ps -> 0 < q < 2 ^ 32) ->
  small_prime_loop ps n = Some true -> In (bigint_val n) ps.
Proof.
  intros Hn. pose proof Hn as [_ Ho].
  induction ps as [|p ps IH]; intros Hr E; [discriminate|].
  cbn [small_prime_loop] in E.
  assert (Hp : 0 < p < 2 ^ 32) by (apply Hr; now left).
  destruct (bigint_divisible_by_small_prime n p).
  - rewrite wf_compare_eq in E by (trivial; apply wf_set_u32).
    rewrite val_set_u32 in E by lia. injection E as E.
    apply Z.eqb_eq in E. now left.
  - right. apply IH; trivial. intros q' Hq'. apply Hr. now right.
Qed.

Lemma sieve_1024_false ps n :
  wf n -> (forall q, In q ps -> 0 < q < 2 ^ 32) ->
  small_prime_loop ps n = Some false ->
  exists p, In p ps /\ bigint_val n mod p = 0 /\ bigint_val n <> p.
Proof.
  intros Hn. pose proof Hn as [_ Ho].
  induction ps as [|p ps IH]; intros Hr E; [discriminate|].
  cbn [small_prime_loop] in E.
  assert (Hp : 0 < p < 2 ^ 32) by (apply Hr; now left).
  rewrite divisible_spec in E by (trivial; lia).
  destruct (Z.eqb_spec (bigint_val n mod p) 0) as [Ep|Np].
  - rewrite wf_compare_eq in E by (trivial; apply wf_set_u32).
    rewrite val_set_u32 in E by lia. injection E as E.
    apply Z.eqb_neq in E. exists p. repeat split; trivial. now left.
  - destruct IH as (q & Hq & H1 & H2); trivial.
    + intros q' Hq'. apply Hr. now right.
    + exists q. repeat split; trivial. now right.
Qed.

Lemma table_32 q : In q small_primes -> 0 < q < 2 ^ 32.
Proof.
  assert (F : forallb (fun p => (2 <=? p) && (p <=? 199)) small_primes = true)
    by reflexivity.
  intros H. apply (proj1 (forallb_forall _ _) F) in H.
  apply andb_true_iff in H as [H1 H2]. apply Z.leb_le in H1, H2. lia.
Qed.

Section WithLibc.
Context {L : Libc}.

Lemma wf_rand s : wf (fst (bigint_rand s)).
Proof.
  unfold bigint_rand. destruct (BigRandom.rand_words_spec WORDS_COUNT s).
  split; trivial.
Qed.

(** [bigint_rand_range]: the base is [2 + r mod (n - 3)] for the random
    value [r], after [r / (n - 3) + 1] turns of the subtraction loop. *)
Lemma rand_range_spec fuel n s :
  wf n -> 4 <= bigint_val n ->
  bigint_val (fst (bigint_rand s)) / (bigint_val n - 3) < Z.of_nat fuel ->
  bigint_rand_range fuel n s
  = Some (bigint_of_Z
            (2 + bigint_val (fst (bigint_rand s)) mod (bigint_val n - 3)),
          snd (bigint_rand s)).
Proof.
  intros Hn H4 Hq. unfold bigint_rand_range.
  pose proof (wf_rand s) as Hr.
  destruct (bigint_rand s) as [r s1]. cbn [fst snd] in *.
  pose proof (val_wf_bound n Hn) as Hbn.
  assert (H3 : bigint_val (bigint_set_u32 3) = 3) by (apply val_set_u32; lia).
  assert (Hw3 : wf (bigint_sub n (bigint_set_u32 3)))
    by (apply wf_sub; trivial; [apply wf_set_u32|lia]).
  assert (Hv3 : bigint_val (bigint_sub n (bigint_set_u32 3)) = bigint_val n - 3)
    by (rewrite val_sub by (trivial; try apply wf_set_u32; lia); lia).
  rewrite subtract_loop_spec; trivial; rewrite ?Hv3; try lia.
  cbn [bind]. do 2 f_equal.
  set (t := bigint_val r mod (bigint_val n - 3)).
  assert (Ht : 0 <= t < bigint_val n - 3) by (apply Z.mod_pos_bound; lia).
  destruct (add_spec (bigint_of_Z t) (bigint_set_u32 2)) as (Hwa & Hc & Hv);
    [apply wf_of_Z|apply wf_set_u32|].
  rewrite val_of_Z, (Z.mod_small t), val_set_u32 in Hv by lia.
  pose proof (val_wf_bound _ Hwa) as Hba.
  assert (Hv' : bigint_val (fst (bigint_add (bigint_of_Z t) (bigint_set_u32 2)))
                = 2 + t).
  { lia. }
  rewrite <- Hv'. symmetry. now apply of_Z_val.
Qed.

Lemma rand_range_short fuel n s :
  wf n -> 4 <= bigint_val n ->
  Z.of_nat fuel <= bigint_val (fst (bigint_rand s)) / (bigint_val n - 3) ->
  bigint_rand_range fuel n s = None.
Proof.
  intros Hn H4 Hq. unfold bigint_rand_range.
  pose proof (wf_rand s) as Hr.
  destruct (bigint_rand s) as [r s1]. cbn [fst snd] in *.
  pose proof (val_wf_bound n Hn) as Hbn.
  assert (H3 : bigint_val (bigint_set_u32 3) = 3) by (apply val_set_u32; lia).
  assert (Hw3 : wf (bigint_sub n (bigint_set_u32 3)))
    by (apply wf_sub; trivial; [apply wf_set_u32|lia]).
  assert (Hv3 : bigint_val (bigint_sub n (bigint_set_u32 3)) = bigint_val n - 3)
    by (rewrite val_sub by (trivial; try apply wf_set_u32; lia); lia).
  rewrite subtract_loop_short; trivial; rewrite ?Hv3; lia.
Qed.

Lemma rand_range_three fuel n s :
  wf n -> bigint_val n = 3 -> bigint_rand_range fuel n s = None.
Proof.
  intros Hn H3. unfold bigint_rand_range.
  pose proof (wf_rand s) as Hr.
  destruct (bigint_rand s) as [r s1]. cbn [fst snd] in *.
  assert (H3' : bigint_val (bigint_set_u32 3) = 3) by (apply val_set_u32; lia).
  rewrite subtract_loop_zero; trivial.
  - apply wf_sub; trivial; [apply wf_set_u32|lia].
  - rewrite val_sub by (trivial; try apply wf_set_u32; lia). lia.
Qed.

End WithLibc.
End BigSieve.

(** *** The 1024-bit generator under a 15-bit [rand], and the driver on primes *)

Module BigBits.
Import Big BigFacts BigMul BigMod BigWitness BigMore BigSieve.

Lemma val_below_half a :
  a <> [] -> Forall (fun w => 0 <= w < 2 ^ 31) a ->
  0 <= bigint_val a < 2 ^ (32 * Z.of_nat (length a) - 1).
Proof.
  intros Hne Ha. induction Ha as [|w a Hw Ha IH]; [contradiction|].
  cbn [bigint_val length]. rewrite Nat2Z.inj_succ.
  destruct a as [|w' a'].
  - cbn [bigint_val length]. change (32 * Z.succ (Z.of_nat 0) - 1) with 31. lia.
  - specialize (IH ltac:(discriminate)).
    set (k := 32 * Z.of_nat (length (w' :: a')) - 1) in *.
    assert (Hk : 0 <= k) by (subst k; cbn [length]; lia).
    replace (32 * Z.succ (Z.of_nat (length (w' :: a'))) - 1) with (32 + k)
      by (subst k; lia).
    rewrite Z.pow_add_r by lia. lia.
Qed.

Section WithLibc.
Context {L : Libc}.
Hypothesis rand_15 : forall s, 0 <= fst (rand s) < 2 ^ 15.

Lemma rand_words_31 cnt : forall s,
  Forall (fun w => 0 <= w < 2 ^ 31) (fst (rand_words cnt s)).
Proof.
  induction cnt as [|cnt IH]; intros s; cbn [rand_words]; [constructor|].
  pose proof (rand_15 s) as Hx. destruct (rand s) as [x s1].
  pose proof (rand_15 s1) as Hy. destruct (rand s1) as [y s2].
  specialize (IH s2). destruct (rand_words cnt s2) as [rest s3].
  cbn [fst] in *. constructor; trivial.
  rewrite !u32_mod, Z.shiftl_mul_pow2 by lia.
  rewrite (Z.mod_small x), (Z.mod_small y), (Z.mod_small (x * 2 ^ 16)) by lia.
  apply lxor_range; lia.
Qed.

Lemma bigint_rand_31 s :
  Forall (fun w => 0 <= w < 2 ^ 31) (fst (bigint_rand s)) /\
  bigint_val (fst (bigint_rand s)) < 2 ^ 1023.
Proof.
  pose proof (rand_words_31 WORDS_COUNT s) as H.
  destruct (BigRandom.rand_words_spec WORDS_COUNT s) as [Hl _].
  unfold bigint_rand. split; trivial.
  pose proof (val_below_half (fst (rand_words WORDS_COUNT s))) as Hb.
  rewrite Hl in Hb. apply Hb; trivial.
  intros E. rewrite E in Hl. discriminate.
Qed.

Lemma rand_odd_31 s i :
  (i < 31)%nat -> 0 <= nth i (fst (bigint_rand_odd_1024 s)) 0 < 2 ^ 31.
Proof.
  intros Hi. unfold bigint_rand_odd_1024.
  destruct (bigint_rand_31 s) as [H31 _].
  destruct (BigRandom.rand_words_spec WORDS_COUNT s) as [Hl _].
  fold (bigint_rand s) in Hl.
  destruct (bigint_rand s) as [a s1]. cbn [fst] in *.
  assert (Hnth : 0 <= nth i a 0 < 2 ^ 31).
  { rewrite Forall_forall in H31. apply H31. apply nth_In.
    rewrite Hl. unfold WORDS_COUNT. lia. }
  destruct i as [|i].
  - rewrite BigRandom.upd_word_nth_same
      by (rewrite BigRandom.upd_word_length, Hl; unfold WORDS_COUNT; lia).
    rewrite BigRandom.upd_word_nth_other by (unfold WORDS_COUNT; lia).
    split; [apply Z.lor_nonneg; lia|].
    destruct (Z.eq_dec (Z.lor (nth 0 a 0) 1) 0) as [->|N]; [lia|].
    apply Z.log2_lt_pow2; [pose proof (Z.lor_nonneg (nth 0 a 0) 1); lia|].
    rewrite Z.log2_lor by lia. apply Z.max_lub_lt; [|cbn; lia].
    destruct (Z.eq_dec (nth 0 a 0) 0) as [->|N0]; [cbn; lia|].
    apply Z.log2_lt_pow2; lia.
  - rewrite BigRandom.upd_word_nth_other by lia.
    rewrite BigRandom.upd_word_nth_other by (unfold WORDS_COUNT; lia).
    exact Hnth.
Qed.

End WithLibc.
End BigBits.

Module BigPrimes.
Import Big BigFacts BigMul BigMod BigWitness BigMore BigSieve.

(** What [miller_rabin_witness_1024] leaves in the caller's [a]. *)
Lemma witness_1024_writes fuel n a r a' :
  wf n -> wf a -> 0 < bigint_val n ->
  bigint_val a / bigint_val n < Z.of_nat fuel ->
  miller_rabin_witness_1024 fuel n a = Some (r, a') ->
  a' = if bigint_val a mod bigint_val n =? 0 then a
       else bigint_of_Z (bigint_val a mod bigint_val n).
Proof.
  intros Hn Ha Hpos Hq E.
  pose proof (val_wf_bound a Ha) as Hba. pose proof (val_wf_bound n Hn) as Hbn.
  destruct (Z_lt_dec (bigint_val a) (bigint_val n)) as [Hlt|Hge].
  - apply ClaimFacts.witness_1024_frame in E; trivial. subst a'.
    rewrite Z.mod_small by lia.
    destruct (bigint_val a =? 0); [reflexivity|]. symmetry. now apply of_Z_val.
  - destruct (Z.eqb_spec (bigint_val a mod bigint_val n) 0) as [Ez|Nz].
    + rewrite witness_1024_multiple in E by (trivial; lia). now injection E.
    + rewrite witness_1024_reduces in E by (trivial; lia).
      pose proof (Z.mod_pos_bound (bigint_val a) (bigint_val n) Hpos) as Hm.
      apply ClaimFacts.witness_1024_frame in E; trivial; [apply wf_of_Z|].
      rewrite val_of_Z, Z.mod_small; lia.
Qed.

Section WithLibc.
Context {L : Libc}.

Lemma rounds_loop_prime rounds : forall fuel n s,
  Z.prime n -> 4 <= n <= 2 ^ 511 -> 2 ^ 1024 <= Z.of_nat fuel ->
  rounds_loop rounds fuel (bigint_of_Z n) s
  = Some (true, big_state_after rounds s).
Proof.
  induction rounds as [|rounds IH]; intros fuel n s Hp Hn Hf; [reflexivity|].
  cbn [rounds_loop].
  assert (Hlt : 2 ^ 511 < 2 ^ 1024) by (apply Z.pow_lt_mono_r; lia).
  assert (Hvn : bigint_val (bigint_of_Z n) = n)
    by (rewrite val_of_Z; apply Z.mod_small; lia).
  pose proof (val_wf_bound _ (wf_rand s)) as Hr.
  rewrite rand_range_spec; try apply wf_of_Z; rewrite ?Hvn; try lia.
  2:{ assert (bigint_val (fst (bigint_rand s)) / (n - 3)
              <= bigint_val (fst (bigint_rand s)))
        by (apply Z.div_le_upper_bound; nia).
      lia. }
  cbn [bind].
  pose proof (Z.mod_pos_bound (bigint_val (fst (bigint_rand s))) (n - 3)
                ltac:(lia)) as Hm.
  rewrite BigSound.miller_rabin_witness_1024_prime; trivial; try lia.
  cbn [bind]. rewrite IH; trivial.
Qed.

Lemma fuel_bound B fuel : 0 <= B -> (Z.to_nat B <= fuel)%nat -> B <= Z.of_nat fuel.
Proof. lia. Qed.

Lemma driver_1024_accepts_primes fuel n rounds s :
  Z.prime n -> n <= 2 ^ 511 -> 2 ^ 1024 <= Z.of_nat fuel ->
  exists s', is_probable_prime_1024 fuel (bigint_of_Z n) rounds s
             = Some (true, s').
Proof.
  intros Hp Hn Hf. pose proof (Z.prime_ge_2 _ Hp) as H2.
  assert (Hlt : 2 ^ 511 < 2 ^ 1024) by (apply Z.pow_lt_mono_r; lia).
  assert (Hvn : bigint_val (bigint_of_Z n) = n)
    by (rewrite val_of_Z; apply Z.mod_small; lia).
  unfold is_probable_prime_1024.
  destruct (small_prime_loop small_primes (bigint_of_Z n)) as [[|]|] eqn:Es.
  - now exists s.
  - exfalso.
    apply sieve_1024_false in Es as (p & Hin & Hm & Hne);
      [|apply wf_of_Z|exact table_32].
    rewrite Hvn in *. pose proof (table_32 p Hin) as H32.
    assert (F : forallb (fun p => 2 <=? p) small_primes = true) by reflexivity.
    apply (proj1 (forallb_forall _ _) F) in Hin. apply Z.leb_le in Hin.
    apply Z.mod_divide in Hm; [|lia].
    pose proof (Z.divide_pos_le p n ltac:(lia) Hm).
    destruct Hp as [_ Hp]. apply (Hp p); trivial. lia.
  - exists (big_state_after (Z.to_nat rounds) s).
    apply rounds_loop_prime; trivial.
    pose proof (sieve_1024_none _ _ (wf_of_Z n) table_32 Es) as Hnone.
    rewrite Hvn in Hnone.
    destruct (Z.eq_dec n 2) as [->|]; [exfalso; apply (Hnone 2); [now left|reflexivity]|].
    destruct (Z.eq_dec n 3) as [->|];
      [exfalso; apply (Hnone 3); [right; now left|reflexivity]|].
    lia.
Qed.

End WithLibc.
End BigPrimes.

(** *** The hexadecimal output *)

Module BigHex.
Import Big BigFacts BigMod BigOutput.

Lemma hex_digit_ok d :
  0 <= d < 16 ->
  hex_digit_val (hex_digit d) = d /\ is_hex_digit (hex_digit d) = true.
Proof.
  intros Hd.
  assert (F : forallb (fun d => (hex_digit_val (hex_digit d) =? d)
                                && is_hex_digit (hex_digit d))
                (map Z.of_nat (seq 0 16)) = true) by reflexivity.
  assert (Hin : In d (map Z.of_nat (seq 0 16))).
  { apply in_map_iff. exists (Z.to_nat d). split; [lia|]. apply in_seq. lia. }
  apply (proj1 (forallb_forall _ _) F) in Hin.
  apply andb_true_iff in Hin as [H1 H2]. apply Z.eqb_eq in H1. now split.
Qed.

Lemma hex_digit_val_range c :
  is_hex_digit c = true -> 0 <= hex_digit_val c < 16.
Proof.
  unfold is_hex_digit, char_between, hex_digit_val. intros H.
  change (N_of_ascii "0") with 48%N in H. change (N_of_ascii "9") with 57%N in H.
  change (N_of_ascii "a") with 97%N in H. change (N_of_ascii "f") with 102%N in H.
  set (n := N_of_ascii c) in *.
  apply orb_true_iff in H as [H|H]; apply andb_true_iff in H as [H1 H2];
    apply N.leb_le in H1, H2; destruct (Z.leb_spec (Z.of_N n) 57); lia.
Qed.

Lemma hex_val_from_app acc s t :
  hex_val_from acc (s ++ t) = hex_val_from (hex_val_from acc s) t.
Proof. apply fold_left_app. Qed.

Lemma hex_val_from_shift s : forall acc,
  hex_val_from acc s = acc * 16 ^ Z.of_nat (length s) + hex_val s.
Proof.
  unfold hex_val.
  induction s as [|c s IH]; intros acc.
  - cbn. lia.
  - cbn [hex_val_from fold_left length]. fold (hex_val_from (16 * acc + hex_digit_val c) s).
    fold (hex_val_from (16 * 0 + hex_digit_val c) s).
    rewrite IH, (IH (16 * 0 + hex_digit_val c)).
    rewrite Nat2Z.inj_succ, Z.pow_succ_r by lia. ring.
Qed.

Lemma hex_val_bound s :
  Forall (fun c => is_hex_digit c = true) s ->
  0 <= hex_val s < 16 ^ Z.of_nat (length s).
Proof.
  induction 1 as [|c s Hc Hs IH].
  - cbn. lia.
  - unfold hex_val. cbn [hex_val_from fold_left length].
    fold (hex_val_from (16 * 0 + hex_digit_val c) s).
    rewrite hex_val_from_shift, Nat2Z.inj_succ, Z.pow_succ_r by lia.
    pose proof (hex_digit_val_range c Hc). nia.
Qed.

Lemma hex_val_lower c s :
  Forall (fun c => is_hex_digit c = true) (c :: s) -> hex_digit_val c <> 0 ->
  16 ^ Z.of_nat (length s) <= hex_val (c :: s).
Proof.
  intros H Hnz. inversion H as [|? ? Hc Hs]; subst.
  unfold hex_val. cbn [hex_val_from fold_left].
  fold (hex_val_from (16 * 0 + hex_digit_val c) s).
  rewrite hex_val_from_shift.
  pose proof (hex_digit_val_range c Hc). pose proof (hex_val_bound s Hs).
  assert (0 < 16 ^ Z.of_nat (length s)) by (apply Z.pow_pos_nonneg; lia).
  nia.
Qed.

(** [%08x] *)
Lemma hex_fixed_spec cnt : forall w,
  0 <= w ->
  length (hex_fixed cnt w) = cnt /\
  Forall (fun c => is_hex_digit c = true) (hex_fixed cnt w) /\
  hex_val (hex_fixed cnt w) = w mod 16 ^ Z.of_nat cnt.
Proof.
  induction cnt as [|cnt IH]; intros w Hw.
  - cbn [hex_fixed length]. repeat split; [constructor|].
    change (16 ^ Z.of_nat 0) with 1. now rewrite Z.mod_1_r.
  - cbn [hex_fixed].
    rewrite Z.shiftr_div_pow2 by lia. change (2 ^ 4) with 16.
    change 15 with (Z.ones 4). rewrite Z.land_ones by lia. change (2 ^ 4) with 16.
    destruct (IH (w / 16)) as (Hl & Hd & Hv); [apply Z.div_pos; lia|].
    pose proof (Z.mod_pos_bound w 16 ltac:(lia)) as Hm.
    destruct (hex_digit_ok (w mod 16) Hm) as [Dv Dh].
    split; [rewrite length_app, Hl; cbn; lia|]. split.
    + apply Forall_app. split; trivial. constructor; trivial.
    + unfold hex_val. rewrite hex_val_from_app. fold (hex_val (hex_fixed cnt (w / 16))).
      rewrite Hv. cbn [hex_val_from fold_left]. rewrite Dv.
      rewrite Nat2Z.inj_succ, Z.pow_succ_r by lia.
      rewrite Z.rem_mul_r; [lia|lia|apply Z.pow_pos_nonneg; lia].
Qed.

Lemma fmt_08x_spec w acc :
  0 <= w < 2 ^ 32 ->
  length (fmt_08x w) = 8%nat /\
  Forall (fun c => is_hex_digit c = true) (fmt_08x w) /\
  hex_val_from acc (fmt_08x w) = 2 ^ 32 * acc + w.
Proof.
  intros Hw. unfold fmt_08x.
  destruct (hex_fixed_spec 8 w) as (Hl & Hd & Hv); [lia|].
  repeat split; trivial.
  rewrite hex_val_from_shift, Hl, Hv.
  change (16 ^ Z.of_nat 8) with (2 ^ 32). rewrite Z.mod_small; lia.
Qed.

(** [%x] *)
Lemma strip_zeros_spec l :
  l <> [] -> Forall (fun c => is_hex_digit c = true) l ->
  hex_val (strip_zeros l) = hex_val l /\
  (1 <= length (strip_zeros l) <= length l)%nat /\
  Forall (fun c => is_hex_digit c = true) (strip_zeros l) /\
  (hex_val l <> 0 -> exists c s, strip_zeros l = c :: s /\ hex_digit_val c <> 0).
Proof.
  induction l as [|c l IH]; intros Hne Hd; [contradiction|].
  inversion Hd as [|? ? Hc Hl]; subst.
  cbn [strip_zeros]. destruct l as [|c' l'].
  - repeat split; trivial; cbn [length]; try lia.
    intros Hv. exists c, []. split; trivial.
  - destruct (Ascii.eqb_spec c "0") as [->|Nc].
    + destruct IH as (Hv & Hlen & Hf & Hh); [discriminate|trivial|].
      assert (E : hex_val ("0"%char :: c' :: l') = hex_val (c' :: l')).
      { unfold hex_val at 1. cbn [hex_val_from fold_left].
        fold (hex_val_from (16 * 0 + hex_digit_val "0") (c' :: l')).
        reflexivity. }
      rewrite E. repeat split; trivial; cbn [length] in *; lia.
    + repeat split; trivial; cbn [length]; try lia.
      intros _. exists c, (c' :: l'). split; trivial.
      intros Hz. apply Nc.
      (* the only digit of value 0 is "0" *)
      clear - Hc Hz. unfold is_hex_digit, char_between, hex_digit_val in *.
      change (N_of_ascii "0") with 48%N in Hc. change (N_of_ascii "9") with 57%N in Hc.
      change (N_of_ascii "a") with 97%N in Hc. change (N_of_ascii "f") with 102%N in Hc.
      assert (En : N_of_ascii c = 48%N).
      { set (n := N_of_ascii c) in *.
        apply orb_true_iff in Hc as [H|H]; apply andb_true_iff in H as [H1 H2];
          apply N.leb_le in H1, H2; destruct (Z.leb_spec (Z.of_N n) 57); lia. }
      rewrite <- (ascii_N_embedding c), En. reflexivity.
Qed.

Lemma fmt_x_spec w :
  0 < w < 2 ^ 32 ->
  (1 <= length (fmt_x w) <= 8)%nat /\
  Forall (fun c => is_hex_digit c = true) (fmt_x w) /\
  hex_val (fmt_x w) = w /\
  exists c s, fmt_x w = c :: s /\ hex_digit_val c <> 0.
Proof.
  intros Hw. unfold fmt_x.
  destruct (hex_fixed_spec 8 w) as (Hl & Hd & Hv); [lia|].
  change (16 ^ Z.of_nat 8) with (2 ^ 32) in Hv. rewrite Z.mod_small in Hv by lia.
  destruct (strip_zeros_spec (hex_fixed 8 w)) as (Sv & Sl & Sf & Sh); trivial.
  { intros E. rewrite E in Hl. discriminate. }
  rewrite Hl in Sl. rewrite Hv in Sv, Sh.
  repeat split; trivial; try lia. apply Sh. lia.
Qed.

(** The words from the top down give the value. *)
Lemma val_from_rev a : val_from 0 (rev a) = bigint_val a.
Proof.
  induction a as [|w a IH]; [reflexivity|].
  cbn [rev bigint_val]. unfold val_from in *. rewrite fold_left_app, IH.
  cbn [fold_left]. lia.
Qed.

Lemma val_from_skip ws : val_from 0 (skip_zero_words ws) = val_from 0 ws.
Proof.
  induction ws as [|w ws IH]; [reflexivity|]. cbn [skip_zero_words].
  destruct (Z.eqb_spec w 0) as [->|]; [|reflexivity].
  rewrite IH. reflexivity.
Qed.

Lemma skip_zero_words_length ws :
  (length (skip_zero_words ws) <= length ws)%nat.
Proof.
  induction ws as [|w ws IH]; cbn [skip_zero_words length]; [lia|].
  destruct (w =? 0); cbn [length]; lia.
Qed.

Lemma skip_zero_words_ok (P : Z -> Prop) ws :
  Forall P ws -> Forall P (skip_zero_words ws).
Proof.
  induction 1 as [|w ws Hw Hs IH]; cbn [skip_zero_words]; [constructor|].
  destruct (w =? 0); trivial. now constructor.
Qed.

Lemma skip_zero_words_head ws w rest :
  skip_zero_words ws = w :: rest -> w <> 0.
Proof.
  induction ws as [|x ws IH]; cbn [skip_zero_words]; [discriminate|].
  destruct (Z.eqb_spec x 0); trivial. intros E. injection E as <- <-. trivial.
Qed.

(** After the first digit every word is printed in full. *)
Lemma to_hex_loop_rest ws : forall buf_size str pos,
  pos = Z.of_nat (length str) ->
  pos + 8 * Z.of_nat (length ws) < buf_size ->
  to_hex_loop ws buf_size str pos false
  = Some (str ++ concat (map fmt_08x ws),
          pos + 8 * Z.of_nat (length ws), false).
Proof.
  induction ws as [|w ws IH]; intros buf_size str pos Hp Hs.
  - cbn [to_hex_loop map concat length]. rewrite app_nil_r.
    do 3 f_equal. lia.
  - cbn [to_hex_loop andb map concat]. unfold snprintf.
    cbn [length] in Hs. rewrite Nat2Z.inj_succ in Hs.
    destruct (Z.ltb_spec (buf_size - pos) 0); [lia|].
    destruct (Z.eqb_spec (buf_size - pos) 0); [lia|].
    cbn [bind].
    assert (Hl : length (fmt_08x w) = 8%nat).
    { unfold fmt_08x. clear. generalize 8%nat. intros cnt. revert w.
      induction cnt as [|cnt IH]; intros w; [reflexivity|].
      cbn [hex_fixed]. rewrite length_app, IH. cbn. lia. }
    rewrite Hp, Nat2Z.id, firstn_all, firstn_all2 by (rewrite Hl; lia).
    rewrite IH.
    + rewrite <- app_assoc. do 3 f_equal. rewrite Hl. cbn [length]. lia.
    + rewrite length_app, Hl. lia.
    + rewrite Hl. lia.
Qed.

(** Leading zero words are skipped. *)
Lemma to_hex_loop_leading ws : forall buf_size str,
  Forall (fun w => 0 <= w < 2 ^ 32) ws ->
  8 * Z.of_nat (length ws) < buf_size ->
  to_hex_loop ws buf_size str 0 true
  = match skip_zero_words ws with
    | [] => Some (str, 0, true)
    | w :: rest =>
        Some (fmt_x w ++ concat (map fmt_08x rest),
              Z.of_nat (length (fmt_x w)) + 8 * Z.of_nat (length rest), false)
    end.
Proof.
  induction ws as [|w ws IH]; intros buf_size str Hok Hs; [reflexivity|].
  inversion Hok as [|? ? Hw Hok']; subst.
  cbn [length] in Hs. rewrite Nat2Z.inj_succ in Hs.
  cbn [to_hex_loop skip_zero_words andb].
  destruct (Z.eqb_spec w 0) as [->|Hnz].
  - apply IH; trivial. lia.
  - unfold snprintf.
    destruct (Z.ltb_spec (buf_size - 0) 0); [lia|].
    destruct (Z.eqb_spec (buf_size - 0) 0); [lia|].
    cbn [bind].
    destruct (fmt_x_spec w ltac:(lia)) as (Hl & _).
    change (Z.to_nat 0) with 0%nat. rewrite firstn_0, app_nil_l.
    rewrite firstn_all2 by lia.
    rewrite to_hex_loop_rest; trivial; lia.
Qed.

Lemma hex_val_from_concat ws : forall acc,
  Forall (fun w => 0 <= w < 2 ^ 32) ws ->
  hex_val_from acc (concat (map fmt_08x ws)) = val_from acc ws /\
  Forall (fun c => is_hex_digit c = true) (concat (map fmt_08x ws)) /\
  length (concat (map fmt_08x ws)) = (8 * length ws)%nat.
Proof.
  induction ws as [|w ws IH]; intros acc Hok.
  - cbn. repeat split; constructor.
  - inversion Hok as [|? ? Hw Hok']; subst. cbn [map concat].
    destruct (fmt_08x_spec w acc Hw) as (Hl & Hd & Hv).
    destruct (IH (2 ^ 32 * acc + w) Hok') as (Iv & Id & Il).
    rewrite hex_val_from_app, Hv, Iv. repeat split.
    + apply Forall_app. now split.
    + rewrite length_app, Hl, Il. cbn [length]. lia.
Qed.

(** [bigint_to_hex] with a buffer of at least 257 characters. *)
Lemma to_hex_spec a str buf_size :
  wf a -> 257 <= buf_size ->
  exists out,
    bigint_to_hex a str buf_size = Some out /\
    hex_val out = bigint_val a /\
    (1 <= length out <= 256)%nat /\
    Forall (fun c => is_hex_digit c = true) out /\
    (bigint_val a = 0 -> out = ["0"%char]) /\
    (bigint_val a <> 0 -> exists c s, out = c :: s /\ hex_digit_val c <> 0).
Proof.
  intros [Hlen Hok] Hs. unfold bigint_to_hex.
  assert (Hrok : Forall (fun w => 0 <= w < 2 ^ 32) (rev a))
    by (apply Forall_rev; exact Hok).
  assert (Hrl : length (rev a) = 32%nat) by (rewrite length_rev; exact Hlen).
  rewrite to_hex_loop_leading by (trivial; rewrite Hrl; lia).
  pose proof (val_from_skip (rev a)) as Hv. rewrite val_from_rev in Hv.
  pose proof (skip_zero_words_length (rev a)) as Hsl. rewrite Hrl in Hsl.
  pose proof (skip_zero_words_ok _ _ Hrok) as Hsk.
  destruct (skip_zero_words (rev a)) as [|w rest] eqn:Es.
  - cbn [bind]. unfold snprintf.
    destruct (Z.ltb_spec buf_size 0); [lia|].
    destruct (Z.eqb_spec buf_size 0); [lia|]. cbn [bind].
    change (Z.to_nat 0) with 0%nat. rewrite firstn_0, app_nil_l.
    rewrite firstn_all2 by (cbn [length]; lia).
    exists ["0"%char]. cbn in Hv. rewrite <- Hv.
    repeat split; trivial; try (cbn; lia);
      try (constructor; [reflexivity|constructor]).
    all: intros N; now contradiction N.
  - cbn [bind].
    inversion Hsk as [|? ? Hw Hrest]; subst.
    pose proof (skip_zero_words_head _ _ _ Es) as Hnz.
    destruct (fmt_x_spec w ltac:(lia)) as (Hl & Hd & Hx & Hh).
    destruct (hex_val_from_concat rest (hex_val (fmt_x w)) Hrest) as (Cv & Cd & Cl).
    exists (fmt_x w ++ concat (map fmt_08x rest)). split; trivial.
    cbn [length] in Hsl.
    split; [|split; [|split; [|split]]].
    + unfold hex_val at 1. rewrite hex_val_from_app.
      fold (hex_val (fmt_x w)). rewrite Cv, Hx, <- Hv.
      unfold val_from. cbn [fold_left]. reflexivity.
    + rewrite length_app, Cl. lia.
    + apply Forall_app. now split.
    + intros Hz. exfalso.
      rewrite <- Hv in Hz. unfold val_from in Hz. cbn [fold_left] in Hz.
      fold (val_from (2 ^ 32 * 0 + w) rest) in Hz.
      assert (G : forall l acc, Forall (fun w => 0 <= w < 2 ^ 32) l -> 0 < acc ->
                  0 < val_from acc l).
      { clear. induction l as [|x l IH]; intros acc Hl Ha; [exact Ha|].
        inversion Hl; subst. unfold val_from. cbn [fold_left].
        apply IH; trivial. lia. }
      pose proof (G rest (2 ^ 32 * 0 + w) Hrest ltac:(lia)). lia.
    + intros _. destruct Hh as (c & s & E & Hc).
      exists c, (s ++ concat (map fmt_08x rest)). split; trivial.
      rewrite E. reflexivity.
Qed.

(** The printed bit count is four times the number of digits. *)
Lemma bit_count_loop_hex s : forall n,
  Forall (fun c => is_hex_digit c = true) s ->
  bit_count_loop s n = n + 4 * Z.of_nat (length s).
Proof.
  induction s as [|c s IH]; intros n Hs; [cbn; lia|].
  inversion Hs as [|? ? Hc Hs']; subst. cbn [bit_count_loop length].
  rewrite IH by trivial. unfold is_hex_digit in Hc.
  destruct (char_between "0" "9" c); [lia|].
  cbn [orb] in Hc. rewrite Hc. lia.
Qed.

Lemma bit_count_spec a str buf_size :
  wf a -> 0 < bigint_val a -> 257 <= buf_size ->
  exists out,
    bigint_to_hex a str buf_size = Some out /\
    bit_count out = 4 * Z.of_nat (length out) /\
    2 ^ (bit_count out - 4) <= bigint_val a < 2 ^ bit_count out.
Proof.
  intros Ha Hpos Hs.
  destruct (to_hex_spec a str buf_size Ha Hs) as (out & E & Hv & Hl & Hd & _ & Hh).
  exists out. split; trivial.
  assert (Hbc : bit_count out = 4 * Z.of_nat (length out)).
  { unfold bit_count. rewrite bit_count_loop_hex by trivial. lia. }
  split; trivial. rewrite Hbc, <- Hv.
  destruct Hh as (c & s & -> & Hc); [lia|].
  pose proof (hex_val_bound _ Hd) as Hub.
  pose proof (hex_val_lower c s Hd Hc) as Hlb.
  cbn [length] in *. rewrite Nat2Z.inj_succ in *.
  replace (4 * Z.succ (Z.of_nat (length s)) - 4) with (4 * Z.of_nat (length s)) by lia.
  rewrite !Z.pow_mul_r by lia. change (2 ^ 4) with 16. lia.
Qed.

Lemma fmt_08x_length w : length (fmt_08x w) = 8%nat.
Proof.
  unfold fmt_08x. generalize 8%nat. intros cnt. revert w.
  induction cnt as [|cnt IH]; intros w; [reflexivity|].
  cbn [hex_fixed]. rewrite length_app, IH. cbn. lia.
Qed.

(** The position advances by the full length of every word, also when the
    text is cut, so a word that starts behind the end of the buffer is
    written with a negative size. *)
Lemma to_hex_loop_overrun ws : forall buf_size str pos,
  ws <> [] -> buf_size < pos + 8 * (Z.of_nat (length ws) - 1) ->
  to_hex_loop ws buf_size str pos false = None.
Proof.
  induction ws as [|w ws IH]; intros buf_size str pos Hne Hs; [contradiction|].
  cbn [to_hex_loop andb]. unfold snprintf.
  cbn [length] in Hs. rewrite Nat2Z.inj_succ in Hs.
  destruct (Z.ltb_spec (buf_size - pos) 0); [reflexivity|].
  destruct ws as [|w' ws']; [cbn [length] in Hs; lia|].
  destruct (buf_size - pos =? 0); cbn [bind]; apply IH;
    try discriminate; rewrite fmt_08x_length; lia.
Qed.

Lemma to_hex_overrun a str buf_size w rest :
  skip_zero_words (rev a) = w :: rest -> rest <> [] ->
  buf_size < Z.of_nat (length (fmt_x w)) + 8 * (Z.of_nat (length rest) - 1) ->
  bigint_to_hex a str buf_size = None.
Proof.
  intros Es Hr Hs. unfold bigint_to_hex.
  assert (G : forall ws str, skip_zero_words ws = w :: rest ->
              to_hex_loop ws buf_size str 0 true = None).
  { clear - Hr Hs. induction ws as [|x ws IH]; intros str E; [discriminate|].
    cbn [skip_zero_words] in E. cbn [to_hex_loop].
    destruct (Z.eqb_spec x 0) as [->|Hx].
    - cbn [andb]. now apply IH.
    - injection E as -> ->. cbn [andb]. unfold snprintf.
      destruct (Z.ltb_spec (buf_size - 0) 0); [reflexivity|].
      destruct (buf_size - 0 =? 0); cbn [bind];
        apply to_hex_loop_overrun; trivial; lia. }
  rewrite G by trivial. reflexivity.
Qed.

(** A value of at least [2^992] fills the top word. *)
Lemma top_word_nonzero a :
  wf a -> 2 ^ 992 <= bigint_val a ->
  exists w rest, skip_zero_words (rev a) = w :: rest /\ length rest = 31%nat /\
    0 < w < 2 ^ 32.
Proof.
  intros [Hlen Hok] Hv.
  destruct (exists_last (l := a)) as (lows & top & ->).
  { intros ->. discriminate. }
  rewrite length_app in Hlen. cbn [length] in Hlen. unfold WORDS_COUNT in Hlen.
  apply Forall_app in Hok as [Hlo Htop]. inversion Htop as [|? ? Ht _]; subst.
  rewrite BigMul.val_app in Hv. cbn [bigint_val] in Hv.
  pose proof (val_bound lows Hlo) as Hb.
  assert (Hl31 : length lows = 31%nat) by lia.
  assert (Hw : weight lows = 2 ^ 992) by (unfold weight; now rewrite Hl31).
  rewrite Hw in *.
  rewrite rev_app_distr. cbn [rev app skip_zero_words].
  destruct (Z.eqb_spec top 0) as [->|]; [lia|].
  exists top, (rev lows). split; trivial. rewrite length_rev. split; lia.
Qed.

End BigHex.

(** ** The properties *)

(** *** The native program *)

(** A prime outside the table of small primes, for the examples. *)
Lemma prime_257 : Z.prime 257.
Proof. apply (proth 257 1 8 3); [lia|lia|reflexivity|reflexivity]. Qed.

(** X1.  [mulmod] is exact as long as the modulus fits 63 bits: for 64-bit
    operands and [0 < m <= 2^63] it returns [(a * b) mod m]. *)
Theorem X1_mulmod_exact (a b m : Z) :
  0 <= a < 2 ^ 64 -> 0 <= b < 2 ^ 64 -> 0 < m <= 2 ^ 63 ->
  Native.mulmod a b m = (a * b) mod m.
Proof. intros _ Hb Hm. now apply NativeFacts.mulmod_spec. Qed.

Lemma X1_mulmod_exact_witness :
  Native.mulmod 123456789123 987654321987 1000000007
  = (123456789123 * 987654321987) mod 1000000007.
Proof. apply X1_mulmod_exact; lia. Defined.

(** X2.  [powmod] is exact as long as the modulus fits 63 bits: for a 64-bit
    base and exponent and [1 < m <= 2^63] it returns [base^exp mod m]. *)
Theorem X2_powmod_exact (base exp m : Z) :
  0 <= base < 2 ^ 64 -> 0 <= exp < 2 ^ 64 -> 1 < m <= 2 ^ 63 ->
  Native.powmod base exp m = base ^ exp mod m.
Proof. intros _ He Hm. now apply NativeFacts.powmod_spec. Qed.

Lemma X2_powmod_exact_witness :
  Native.powmod 3 100 1000000007 = 3 ^ 100 mod 1000000007.
Proof. apply X2_powmod_exact; lia. Defined.

(** X3.  The native witness test never rejects a prime of at most 63 bits:
    for a prime [3 <= n <= 2^63] every base passes. *)
Theorem X3_witness_accepts_primes (n a : Z) :
  Z.prime n -> 3 <= n <= 2 ^ 63 -> 0 <= a < 2 ^ 64 ->
  Native.miller_rabin_witness n a = true.
Proof. intros Hp Hn _. now apply NativeFacts.miller_rabin_witness_prime. Qed.

Lemma X3_witness_accepts_primes_witness :
  Native.miller_rabin_witness 257 100 = true.
Proof. apply X3_witness_accepts_primes; [exact prime_257|lia|lia]. Defined.

(** X4.  For an odd modulus [3 <= n <= 2^63] with [n - 1 = d * 2^s], [d]
    odd, the native witness test passes a base [a] exactly when [n] divides
    [a], or [a^d = 1], or [a^(d * 2^r) = -1] for some [0 <= r < s], all
    modulo [n]: it decides the strong probable prime condition. *)
Theorem X4_witness_decides_strong_probable_prime (n a d s : Z) :
  3 <= n <= 2 ^ 63 -> n mod 2 = 1 -> 0 <= s -> d mod 2 = 1 ->
  n - 1 = d * 2 ^ s ->
  Native.miller_rabin_witness n a = true <->
  (a mod n = 0 \/ a ^ d mod n = 1 \/
   exists r, 0 <= r < s /\ a ^ (d * 2 ^ r) mod n = n - 1).
Proof. apply NativeWitness.witness_iff. Qed.

Lemma X4_witness_decides_strong_probable_prime_witness :
  Native.miller_rabin_witness 2047 2 = true <->
  (2 mod 2047 = 0 \/ 2 ^ 1023 mod 2047 = 1 \/
   exists r, 0 <= r < 1 /\ 2 ^ (1023 * 2 ^ r) mod 2047 = 2047 - 1).
Proof.
  apply (X4_witness_decides_strong_probable_prime 2047 2 1023 1);
    [lia|reflexivity|lia|reflexivity|reflexivity].
Defined.

(** X5.  A base that passes the native witness test for an odd modulus
    [3 <= n <= 2^63], and is not a multiple of it, satisfies Fermat's
    congruence [a^(n-1) = 1] modulo [n]. *)
Theorem X5_passing_base_is_fermat (n a : Z) :
  3 <= n <= 2 ^ 63 -> n mod 2 = 1 -> a mod n <> 0 ->
  Native.miller_rabin_witness n a = true -> a ^ (n - 1) mod n = 1.
Proof. apply NativeWitness.witness_fermat. Qed.

Lemma X5_passing_base_is_fermat_witness : 2 ^ (2047 - 1) mod 2047 = 1.
Proof.
  apply X5_passing_base_is_fermat;
    [lia|reflexivity|discriminate|vm_compute; reflexivity].
Defined.

(** X6.  [is_probable_prime] never rejects a prime of at most 63 bits,
    whatever the number of rounds and the state of the generator. *)
Theorem X6_driver_accepts_primes {L : Libc} (n k : Z) (s : rng) :
  Z.prime n -> n <= 2 ^ 63 ->
  fst (Native.is_probable_prime n k s) = true.
Proof. apply NativeSound.driver_accepts_primes. Qed.

Lemma X6_driver_accepts_primes_witness :
  fst (@Native.is_probable_prime iso_libc 257 10 1) = true.
Proof. apply X6_driver_accepts_primes; [exact prime_257|lia]. Defined.

(** X7.  [is_probable_prime] rejects every proper multiple of a prime of the
    table in the sieve stage: the answer is "composite" and no base is
    drawn. *)
Theorem X7_driver_rejects_table_multiples {L : Libc} (n p k : Z) (s : rng) :
  In p small_primes -> (p | n) -> n <> p ->
  Native.is_probable_prime n k s = (false, s).
Proof.
  intros Hin Hd Hne. unfold Native.is_probable_prime.
  destruct (Z.ltb_spec n 2); trivial.
  pose proof (NativeSieve.small_primes_range p Hin) as Hp.
  assert (Hm : n mod p = 0) by (apply Z.mod_divide; [lia|trivial]).
  rewrite NativeSieve.small_prime_loop_reject; trivial.
  - intros Hn. apply Hne. symmetry.
    now apply (NativeSieve.small_primes_coprime p n).
  - now exists p.
Qed.

Lemma X7_driver_rejects_table_multiples_witness :
  @Native.is_probable_prime iso_libc (199 * 1000003) 10 1 = (false, 1).
Proof.
  apply (@X7_driver_rejects_table_multiples iso_libc _ 199).
  - vm_compute. tauto.
  - now exists 1000003.
  - discriminate.
Defined.

(** X8.  [is_probable_prime_with_print] returns the verdict of
    [is_probable_prime] on every input.  When the sieve leaves [n]
    undecided it runs and reports all [k] rounds, also after a failure: it
    prints [k] lines, each with a base in [[2, n-2]] and the verdict of the
    witness test for that base, returns the conjunction of the verdicts and
    leaves the generator as [k] draws leave it. *)
Theorem X8_print_variant_runs_all_rounds {L : Libc} (n k : Z) (s : rng) :
  fst (fst (Native.is_probable_prime_with_print n k s))
  = fst (Native.is_probable_prime n k s) /\
  (2 <= n < 2 ^ 64 -> Native.small_prime_loop small_primes n = None ->
   let r := Native.is_probable_prime_with_print n k s in
   length (snd (fst r)) = Z.to_nat k /\
   Forall (fun e => 2 <= fst e <= n - 2 /\
                    snd e = Native.miller_rabin_witness n (fst e))
          (snd (fst r)) /\
   fst (fst r) = forallb snd (snd (fst r)) /\
   snd r = state_after (Z.to_nat k) n s).
Proof.
  split; [apply NativeReport.with_print_verdict|].
  intros Hn Hs.
  pose proof (NativeReport.with_print_undecided n k s ltac:(lia) Hs) as H.
  cbv zeta.
  destruct (Native.is_probable_prime_with_print n k s) as [[res out] s'].
  destruct H as (_ & Hl & Hr & Hs' & Hnth). cbn [fst snd].
  repeat split; trivial.
  apply Forall_forall. intros e He.
  apply In_nth_error in He as [i Hi].
  assert (Hlt : (i < Z.to_nat k)%nat).
  { rewrite <- Hl. apply nth_error_Some. rewrite Hi. discriminate. }
  rewrite Hnth in Hi by trivial. injection Hi as <-. cbn [fst snd].
  pose proof (NativeSieve.undecided_above_4 n ltac:(lia) Hs).
  split; trivial. apply NativeSieve.round_base_range. lia.
Qed.

Lemma X8_print_variant_runs_all_rounds_witness :
  let r := @Native.is_probable_prime_with_print iso_libc 44521 10 1 in
  length (snd (fst r)) = Z.to_nat 10 /\
  Forall (fun e => 2 <= fst e <= 44521 - 2 /\
                   snd e = Native.miller_rabin_witness 44521 (fst e))
         (snd (fst r)) /\
  fst (fst r) = forallb snd (snd (fst r)) /\
  snd r = @state_after iso_libc (Z.to_nat 10) 44521 1.
Proof.
  apply (proj2 (@X8_print_variant_runs_all_rounds iso_libc 44521 10 1));
    [lia|reflexivity].
Defined.

(** X9.  With a C library whose [rand] returns 15 bits ([RAND_MAX] =
    32767), [gen_random_odd] never sets bit 15 of its result, for every bit
    length from 17 to 63: only half of the odd numbers of that length can
    come out. *)
Theorem X9_random_odd_bit_15_clear {L : Libc} (bits : Z) (s : rng) :
  (forall t, 0 <= fst (rand t) < 2 ^ 15) -> 17 <= bits <= 63 ->
  exists r s', Native.gen_random_odd bits s = Some (r, s') /\
    Z.testbit r 15 = false.
Proof.
  intros H15 Hb.
  destruct (NativeDriver.gen_random_odd_spec bits s ltac:(lia))
    as (r & s' & E & _).
  exists r, s'. split; trivial.
  now apply (NativeBits.gen_random_odd_bit15 H15 bits s r s').
Qed.

Lemma X9_random_odd_bit_15_clear_witness :
  exists r s', @Native.gen_random_odd iso_libc 30 7 = Some (r, s') /\
    Z.testbit r 15 = false.
Proof.
  apply (@X9_random_odd_bit_15_clear iso_libc 30 7);
    [exact NativeBits.iso_rand_15|lia].
Defined.

(** X10.  Whatever [generate_30bit_prime] returns is an odd number of
    exactly 30 bits that no prime of the table divides and that
    [is_probable_prime] accepted with 10 rounds; the attempt count is
    between 1 and the number of iterations made.  With a 15-bit [rand] its
    bit 15 is clear. *)
Theorem X10_search_result {L : Libc} (fuel : nat) (clock : nat -> Z)
    (s : rng) (p attempts : Z) :
  Native.generate_30bit_prime fuel clock s = Some (p, attempts) ->
  2 ^ 29 <= p < 2 ^ 30 /\ Z.odd p = true /\
  (forall q, In q small_primes -> p mod q <> 0) /\
  1 <= attempts <= Z.of_nat fuel /\
  (exists s1, fst (Native.is_probable_prime p 10 s1) = true) /\
  ((forall t, 0 <= fst (rand t) < 2 ^ 15) -> Z.testbit p 15 = false).
Proof.
  unfold Native.generate_30bit_prime. intros E.
  apply NativeResult.search_loop_result in E.
  destruct E as ((H1 & H2 & H3 & H4) & s0 & s1 & Eg & Hp).
  repeat split; trivial; try lia.
  - now exists s1.
  - intros H15.
    now apply (NativeBits.gen_random_odd_bit15 H15 30 s0 p s1).
Qed.

Lemma X10_search_result_witness :
  2 ^ 29 <= 564412951 < 2 ^ 30 /\ Z.odd 564412951 = true /\
  (forall q, In q small_primes -> 564412951 mod q <> 0) /\
  1 <= 12 <= Z.of_nat 12 /\
  (exists s1, fst (@Native.is_probable_prime iso_libc 564412951 10 s1) = true) /\
  ((forall t, 0 <= fst (@rand iso_libc t) < 2 ^ 15) ->
   Z.testbit 564412951 15 = false).
Proof.
  apply (@X10_search_result iso_libc 12 (fun _ => 1000) 7).
  vm_compute. reflexivity.
Defined.

(** X11.  [check_input_hex] reports the verdict of [is_probable_prime] with
    10 rounds on every input, 0 and 1 included, and leaves the generator as
    [is_probable_prime_with_print] leaves it; a prime of at most 63 bits is
    always reported as prime. *)
Theorem X11_check_input_verdict {L : Libc} (n : Z) (s : rng) :
  verdict_of (fst (NativeIO.check_input_hex (Some n) s))
  = Some (fst (Native.is_probable_prime n 10 s)) /\
  snd (NativeIO.check_input_hex (Some n) s)
  = snd (Native.is_probable_prime_with_print n 10 s) /\
  (Z.prime n -> n <= 2 ^ 63 ->
   verdict_of (fst (NativeIO.check_input_hex (Some n) s)) = Some true).
Proof.
  assert (H : verdict_of (fst (NativeIO.check_input_hex (Some n) s))
              = Some (fst (Native.is_probable_prime n 10 s)) /\
              snd (NativeIO.check_input_hex (Some n) s)
              = snd (Native.is_probable_prime_with_print n 10 s)).
  { unfold NativeIO.check_input_hex.
    pose proof (NativeReport.input_sieve_spec small_primes n) as Hs.
    destruct (NativeIO.input_sieve small_primes n) as [[]|]; try contradiction.
    - destruct Hs as [Hs ->].
      pose proof (NativeSieve.small_primes_range _
                    (NativeSieve.small_prime_loop_true _ _ Hs)).
      unfold Native.is_probable_prime, Native.is_probable_prime_with_print.
      destruct (Z.ltb_spec n 2); [lia|]. rewrite Hs. split; reflexivity.
    - destruct Hs as (Hs & Hin & Hm).
      unfold Native.is_probable_prime, Native.is_probable_prime_with_print.
      destruct (Z.ltb_spec n 2); [split; reflexivity|].
      rewrite Hs. split; reflexivity.
    - pose proof (NativeReport.with_print_verdict n 10 s) as Hv.
      destruct (Native.is_probable_prime_with_print n 10 s) as [[res out] s1].
      cbn [fst snd] in *. split; trivial.
      rewrite app_assoc, NativeReport.verdict_of_app. cbn. now rewrite Hv. }
  destruct H as [H1 H2]. repeat split; trivial.
  intros Hp Hn. rewrite H1. f_equal. now apply NativeSound.driver_accepts_primes.
Qed.

Lemma X11_check_input_verdict_witness :
  verdict_of (fst (@NativeIO.check_input_hex iso_libc (Some 257) 1)) = Some true.
Proof.
  apply (proj2 (proj2 (@X11_check_input_verdict iso_libc 257 1)));
    [exact prime_257|lia].
Defined.

(** X12.  The menu loop of [main] is left only by the choice 3: a first
    line that starts with the character 3 ends the program after the first
    menu, and on an input without the character 3 the program never
    returns, also after the end of the input, where every turn of the loop
    reads [EOF] and reports an invalid choice. *)
Theorem X12_menu_left_only_by_choice_3 {L : Libc} (strtoull : list Z -> Z)
    (clock : nat -> Z) (fopen_ok : nat -> bool) (fuel iters : nat)
    (stdin : list Z) :
  NativeIO.main strtoull clock fopen_ok (S fuel) iters (51 :: stdin)
  = Some [NativeIO.Menu] /\
  (~ In 51 stdin ->
   NativeIO.main strtoull clock fopen_ok fuel iters stdin = None).
Proof.
  split; [reflexivity|].
  intros Hno. unfold NativeIO.main. now apply NativeMenu.main_loop_stays.
Qed.

Lemma X12_menu_left_only_by_choice_3_witness :
  @NativeIO.main iso_libc (fun _ => 31) (fun _ => 1000) (fun _ => true) 20 60
    [49; 10; 48; 120; 49; 102; 10] = None.
Proof.
  apply (proj2 (@X12_menu_left_only_by_choice_3 iso_libc (fun _ => 31)
                  (fun _ => 1000) (fun _ => true) 20 60
                  [49; 10; 48; 120; 49; 102; 10])).
  intros H. cbn [In] in H. lia.
Defined.

(** *** The 1024-bit program *)

(** X13.  [bigint_compare] orders two numbers as their values are ordered:
    the result is the sign of the difference, so 1, 0 or -1, and
    [bigint_gte] holds exactly when the first value is at least the
    second. *)
Theorem X13_compare_orders_values (a b : Big.bigint1024) :
  Big.wf a -> Big.wf b ->
  Big.bigint_compare a b = Z.sgn (Big.bigint_val a - Big.bigint_val b) /\
  Big.bigint_gte a b = (Big.bigint_val b <=? Big.bigint_val a).
Proof.
  intros [La Ha] [Lb Hb]. split.
  - apply BigFacts.compare_spec; trivial. congruence.
  - unfold Big.bigint_gte. apply BigFacts.compare_ge; trivial. congruence.
Qed.

Lemma X13_compare_orders_values_witness :
  Big.bigint_compare (Big.bigint_of_Z (2 ^ 700)) (Big.bigint_of_Z (2 ^ 700 + 1))
  = Z.sgn (Big.bigint_val (Big.bigint_of_Z (2 ^ 700))
           - Big.bigint_val (Big.bigint_of_Z (2 ^ 700 + 1))) /\
  Big.bigint_gte (Big.bigint_of_Z (2 ^ 700)) (Big.bigint_of_Z (2 ^ 700 + 1))
  = (Big.bigint_val (Big.bigint_of_Z (2 ^ 700 + 1))
     <=? Big.bigint_val (Big.bigint_of_Z (2 ^ 700))).
Proof. apply X13_compare_orders_values; apply BigFacts.wf_of_Z. Defined.

(** X14.  [bigint_add] returns the sum modulo [2^1024] and the carry out of
    the top word: sum and carry together give the exact sum of the
    values. *)
Theorem X14_add_with_carry (a b : Big.bigint1024) :
  Big.wf a -> Big.wf b ->
  Big.wf (fst (Big.bigint_add a b)) /\
  0 <= snd (Big.bigint_add a b) <= 1 /\
  Big.bigint_val (fst (Big.bigint_add a b))
  + 2 ^ 1024 * snd (Big.bigint_add a b)
  = Big.bigint_val a + Big.bigint_val b.
Proof. apply BigMore.add_spec. Qed.

Lemma X14_add_with_carry_witness :
  let a := Big.bigint_of_Z (2 ^ 1024 - 1) in
  let b := Big.bigint_of_Z 1 in
  Big.wf (fst (Big.bigint_add a b)) /\
  0 <= snd (Big.bigint_add a b) <= 1 /\
  Big.bigint_val (fst (Big.bigint_add a b))
  + 2 ^ 1024 * snd (Big.bigint_add a b)
  = Big.bigint_val a + Big.bigint_val b.
Proof. apply X14_add_with_carry; apply BigFacts.wf_of_Z. Defined.

(** X15.  [bigint_sub] subtracts modulo [2^1024]: the difference is exact
    when the first value is at least the second and wraps otherwise; and
    subtracting [b] from the sum that [bigint_add] stores for [a] and [b]
    gives [a] back, whatever the carry. *)
Theorem X15_sub_wraps_and_undoes_add (a b : Big.bigint1024) :
  Big.wf a -> Big.wf b ->
  Big.wf (Big.bigint_sub a b) /\
  Big.bigint_val (Big.bigint_sub a b)
  = (Big.bigint_val a - Big.bigint_val b) mod 2 ^ 1024 /\
  (Big.bigint_val b <= Big.bigint_val a ->
   Big.bigint_val (Big.bigint_sub a b) = Big.bigint_val a - Big.bigint_val b) /\
  Big.bigint_sub (fst (Big.bigint_add a b)) b = a.
Proof.
  intros Ha Hb.
  destruct (BigMore.sub_wrap a b Ha Hb) as [Hw Hv].
  split; trivial. split; trivial. split.
  - intros Hle. now apply BigMod.val_sub.
  - destruct (BigMore.add_spec a b Ha Hb) as (Hwc & Hc & Hs).
    destruct (BigMore.sub_wrap _ b Hwc Hb) as [Hw' Hv'].
    destruct Hw' as [L1 O1]. destruct Ha as [L2 O2].
    apply BigFacts.val_inj; trivial; [congruence|].
    rewrite Hv'.
    pose proof (BigMod.val_wf_bound a (conj L2 O2)) as Hba.
    replace (Big.bigint_val (fst (Big.bigint_add a b)) - Big.bigint_val b)
      with (Big.bigint_val a + (- snd (Big.bigint_add a b)) * 2 ^ 1024) by lia.
    rewrite Z.mod_add by lia. apply Z.mod_small. lia.
Qed.

Lemma X15_sub_wraps_and_undoes_add_witness :
  let a := Big.bigint_of_Z 5 in
  let b := Big.bigint_of_Z 7 in
  Big.bigint_val (Big.bigint_sub a b)
  = (Big.bigint_val a - Big.bigint_val b) mod 2 ^ 1024 /\
  Big.bigint_sub (fst (Big.bigint_add a b)) b = a.
Proof.
  pose proof (X15_sub_wraps_and_undoes_add (Big.bigint_of_Z 5) (Big.bigint_of_Z 7)
                (BigFacts.wf_of_Z 5) (BigFacts.wf_of_Z 7)) as (_ & H1 & _ & H2).
  split; [exact H1|exact H2].
Defined.

(** X16.  [bigint_shl_one] doubles modulo [2^1024] and [bigint_shr_one]
    halves, rounding down; shifting left and then right gives the number
    back when bit 1023 was clear. *)
Theorem X16_shifts (a : Big.bigint1024) :
  Big.wf a ->
  (Big.wf (Big.bigint_shl_one a) /\
   Big.bigint_val (Big.bigint_shl_one a) = (2 * Big.bigint_val a) mod 2 ^ 1024) /\
  (Big.wf (Big.bigint_shr_one a) /\
   Big.bigint_val (Big.bigint_shr_one a) = Big.bigint_val a / 2) /\
  (Big.bigint_val a < 2 ^ 1023 ->
   Big.bigint_shr_one (Big.bigint_shl_one a) = a).
Proof.
  intros Ha. split; [|split].
  - split; [now apply BigMod.wf_shl|now apply BigMod.val_shl].
  - split; [now apply BigMod.wf_shr|now apply BigMod.val_shr].
  - intros Hlt. pose proof (BigMod.val_wf_bound a Ha) as Hb.
    pose proof (BigMod.wf_shl a Ha) as Hs.
    destruct (BigMod.wf_shr _ Hs) as [L1 O1]. destruct Ha as [L2 O2].
    apply BigFacts.val_inj; trivial; [congruence|].
    rewrite BigMod.val_shr, BigMod.val_shl by (trivial; split; trivial).
    rewrite Z.mod_small by lia. rewrite Z.mul_comm. apply Z.div_mul. lia.
Qed.

Lemma X16_shifts_witness :
  let a := Big.bigint_of_Z (2 ^ 1023 + 5) in
  Big.bigint_val (Big.bigint_shl_one a) = (2 * Big.bigint_val a) mod 2 ^ 1024 /\
  Big.bigint_val (Big.bigint_shr_one a) = Big.bigint_val a / 2.
Proof.
  pose proof (X16_shifts (Big.bigint_of_Z (2 ^ 1023 + 5)) (BigFacts.wf_of_Z _))
    as ((_ & H1) & (_ & H2) & _).
  split; [exact H1|exact H2].
Defined.

(** X17.  [bigint_mul] returns the low 1024 bits of the product: the value
    of the result is the product of the values modulo [2^1024]. *)
Theorem X17_mul_low_bits (a b : Big.bigint1024) :
  Big.wf a -> Big.wf b ->
  Big.wf (Big.bigint_mul a b) /\
  Big.bigint_val (Big.bigint_mul a b)
  = (Big.bigint_val a * Big.bigint_val b) mod 2 ^ 1024.
Proof. apply BigMul.bigint_mul_spec. Qed.

Lemma X17_mul_low_bits_witness :
  let a := Big.bigint_of_Z (2 ^ 600 + 3) in
  let b := Big.bigint_of_Z (2 ^ 500 + 7) in
  Big.wf (Big.bigint_mul a b) /\
  Big.bigint_val (Big.bigint_mul a b)
  = (Big.bigint_val a * Big.bigint_val b) mod 2 ^ 1024.
Proof. apply X17_mul_low_bits; apply BigFacts.wf_of_Z. Defined.

(** X18.  The predicates read the value: [bigint_is_zero] holds exactly for
    0, [bigint_is_one] exactly for 1, [bigint_is_even] exactly for the even
    values; and [bigint_set_u32] stores a 32-bit value as it is. *)
Theorem X18_predicates (a : Big.bigint1024) (v : Z) :
  Big.wf a -> 0 <= v < 2 ^ 32 ->
  Big.bigint_is_zero a = (Big.bigint_val a =? 0) /\
  Big.bigint_is_one a = (Big.bigint_val a =? 1) /\
  Big.bigint_is_even a = Z.even (Big.bigint_val a) /\
  Big.wf (Big.bigint_set_u32 v) /\ Big.bigint_val (Big.bigint_set_u32 v) = v.
Proof.
  intros [La Ha] Hv. split; [|split; [|split; [|split]]].
  - now apply BigFacts.is_zero_spec.
  - apply BigFacts.is_one_spec; trivial. intros ->. discriminate.
  - rewrite BigFacts.is_even_spec, Zeven_mod. reflexivity.
  - apply BigWitness.wf_set_u32.
  - now apply BigWitness.val_set_u32.
Qed.

Lemma X18_predicates_witness :
  let a := Big.bigint_of_Z (2 ^ 64) in
  Big.bigint_is_zero a = (Big.bigint_val a =? 0) /\
  Big.bigint_is_one a = (Big.bigint_val a =? 1) /\
  Big.bigint_is_even a = Z.even (Big.bigint_val a) /\
  Big.wf (Big.bigint_set_u32 199) /\ Big.bigint_val (Big.bigint_set_u32 199) = 199.
Proof. apply X18_predicates; [apply BigFacts.wf_of_Z|lia]. Defined.

(** X19.  [bigint_divisible_by_small_prime] decides divisibility: for a
    divisor [0 < p < 2^32] it returns true exactly when [p] divides the
    value. *)
Theorem X19_divisibility_decided (a : Big.bigint1024) (p : Z) :
  Big.wf a -> 0 < p < 2 ^ 32 ->
  Big.bigint_divisible_by_small_prime a p = true <-> (p | Big.bigint_val a).
Proof.
  intros [La Ha] Hp. rewrite BigMore.divisible_spec by (trivial; lia).
  rewrite Z.eqb_eq. apply Z.mod_divide. lia.
Qed.

Lemma X19_divisibility_decided_witness :
  Big.bigint_divisible_by_small_prime (Big.bigint_of_Z (199 * 2 ^ 900)) 199 = true
  <-> (199 | Big.bigint_val (Big.bigint_of_Z (199 * 2 ^ 900))).
Proof. apply X19_divisibility_decided; [apply BigFacts.wf_of_Z|lia]. Defined.

(** X20.  A zero modulus is not refused: [miller_rabin_witness_1024] never
    leaves its subtraction loop, and [bigint_mod_mul] never leaves its
    alignment loop unless the low 1024 bits of the product are zero. *)
Theorem X20_zero_modulus_loops (a b n : Big.bigint1024) :
  Big.wf a -> Big.wf b -> Big.wf n -> Big.bigint_val n = 0 ->
  (forall fuel, Big.miller_rabin_witness_1024 fuel n a = None) /\
  ((Big.bigint_val a * Big.bigint_val b) mod 2 ^ 1024 <> 0 ->
   forall fuel, Big.bigint_mod_mul fuel a b n = None).
Proof.
  intros Ha Hb Hn Hz. split.
  - intros fuel. now apply BigMore.witness_zero_modulus.
  - intros Hp fuel. now apply BigMore.mod_mul_zero_modulus.
Qed.

Lemma X20_zero_modulus_loops_witness :
  Big.miller_rabin_witness_1024 1024 (Big.bigint_of_Z 0) (Big.bigint_of_Z 5)
  = None /\
  Big.bigint_mod_mul 1024 (Big.bigint_of_Z 2) (Big.bigint_of_Z 3)
    (Big.bigint_of_Z 0) = None.
Proof.
  split.
  - apply (proj1 (X20_zero_modulus_loops (Big.bigint_of_Z 5) (Big.bigint_of_Z 3)
                    (Big.bigint_of_Z 0) (BigFacts.wf_of_Z 5) (BigFacts.wf_of_Z 3)
                    (BigFacts.wf_of_Z 0) eq_refl)).
  - apply (proj2 (X20_zero_modulus_loops (Big.bigint_of_Z 2) (Big.bigint_of_Z 3)
                    (Big.bigint_of_Z 0) (BigFacts.wf_of_Z 2) (BigFacts.wf_of_Z 3)
                    (BigFacts.wf_of_Z 0) eq_refl)).
    rewrite !BigFacts.val_of_Z. discriminate.
Defined.

(** X21.  [bigint_mod_exp] is exact for a modulus of at most 512 bits: for
    [1 < m <= 2^511] and a base below [m] it returns [base^exp mod m], given
    fuel for 1024 turns of the alignment loop. *)
Theorem X21_mod_exp_exact (fuel : nat) (base exp m : Big.bigint1024) :
  Big.wf base -> Big.wf exp -> Big.wf m ->
  1 < Big.bigint_val m <= 2 ^ 511 ->
  Big.bigint_val base < Big.bigint_val m -> (1024 <= fuel)%nat ->
  Big.bigint_mod_exp fuel base exp m
  = Some (Big.bigint_of_Z
            (Big.bigint_val base ^ Big.bigint_val exp mod Big.bigint_val m)).
Proof. apply BigSound.bigint_mod_exp_exact. Qed.

Lemma X21_mod_exp_exact_witness :
  Big.bigint_mod_exp 1024 (Big.bigint_of_Z 3) (Big.bigint_of_Z 100)
    (Big.bigint_of_Z 1000000007)
  = Some (Big.bigint_of_Z
            (Big.bigint_val (Big.bigint_of_Z 3)
             ^ Big.bigint_val (Big.bigint_of_Z 100)
             mod Big.bigint_val (Big.bigint_of_Z 1000000007))).
Proof.
  apply X21_mod_exp_exact; try apply BigFacts.wf_of_Z;
    rewrite ?BigFacts.val_of_Z; [split|reflexivity|apply Nat.le_refl];
    [reflexivity|discriminate].
Defined.

(** X22.  [miller_rabin_witness_1024] never rejects a prime of at most 512
    bits: for a prime [3 <= n <= 2^511] every base [1 <= a < n] passes and
    is left unchanged, given fuel for 1024 turns of the alignment loop. *)
Theorem X22_witness_1024_accepts_primes (fuel : nat) (n a : Z) :
  Z.prime n -> 3 <= n <= 2 ^ 511 -> 1 <= a < n -> (1024 <= fuel)%nat ->
  Big.miller_rabin_witness_1024 fuel (Big.bigint_of_Z n) (Big.bigint_of_Z a)
  = Some (true, Big.bigint_of_Z a).
Proof. apply BigSound.miller_rabin_witness_1024_prime. Qed.

Lemma X22_witness_1024_accepts_primes_witness :
  Big.miller_rabin_witness_1024 1024 (Big.bigint_of_Z 257) (Big.bigint_of_Z 100)
  = Some (true, Big.bigint_of_Z 100).
Proof.
  apply X22_witness_1024_accepts_primes;
    [exact prime_257|lia|lia|apply Nat.le_refl].
Defined.

(** X23.  [miller_rabin_witness_1024] writes through its [a] pointer: when
    it returns, the caller's [a] holds [a mod n] if that is not zero, and
    is unchanged if [n] divides [a] (in particular a base below [n] is left
    alone). *)
Theorem X23_witness_1024_writes_reduced_base (fuel : nat)
    (n a a' : Big.bigint1024) (r : bool) :
  Big.wf n -> Big.wf a -> 0 < Big.bigint_val n ->
  Big.bigint_val a / Big.bigint_val n < Z.of_nat fuel ->
  Big.miller_rabin_witness_1024 fuel n a = Some (r, a') ->
  a' = if Big.bigint_val a mod Big.bigint_val n =? 0 then a
       else Big.bigint_of_Z (Big.bigint_val a mod Big.bigint_val n).
Proof. apply BigPrimes.witness_1024_writes. Qed.

Lemma X23_witness_1024_writes_reduced_base_witness :
  Big.bigint_of_Z 2
  = if Big.bigint_val (Big.bigint_of_Z 7) mod Big.bigint_val (Big.bigint_of_Z 5) =? 0
    then Big.bigint_of_Z 7
    else Big.bigint_of_Z
           (Big.bigint_val (Big.bigint_of_Z 7) mod Big.bigint_val (Big.bigint_of_Z 5)).
Proof.
  apply (X23_witness_1024_writes_reduced_base 4 (Big.bigint_of_Z 5)
           (Big.bigint_of_Z 7) (Big.bigint_of_Z 2) true);
    try apply BigFacts.wf_of_Z; vm_compute; reflexivity.
Defined.

(** X24.  [bigint_rand_range] draws one random number [r] and, for a
    modulus [n >= 4], returns the base [2 + r mod (n - 3)], which lies in
    [[2, n - 2]]; its subtraction loop takes [r / (n - 3) + 1] turns, so
    with less fuel nothing is returned.  For [n = 3] the loop subtracts
    zero and never ends. *)
Theorem X24_random_base {L : Libc} (fuel : nat) (n : Big.bigint1024)
    (s : rng) :
  Big.wf n ->
  (4 <= Big.bigint_val n ->
   let r := Big.bigint_val (fst (Big.bigint_rand s)) in
   (r / (Big.bigint_val n - 3) < Z.of_nat fuel ->
    exists a, Big.bigint_rand_range fuel n s = Some (a, snd (Big.bigint_rand s)) /\
      Big.wf a /\ Big.bigint_val a = 2 + r mod (Big.bigint_val n - 3) /\
      2 <= Big.bigint_val a <= Big.bigint_val n - 2) /\
   (Z.of_nat fuel <= r / (Big.bigint_val n - 3) ->
    Big.bigint_rand_range fuel n s = None)) /\
  (Big.bigint_val n = 3 -> Big.bigint_rand_range fuel n s = None).
Proof.
  intros Hn. split; [|intros H3; now apply BigSieve.rand_range_three].
  intros H4 r. split.
  - intros Hq. eexists. split; [now apply BigSieve.rand_range_spec|].
    fold r. pose proof (BigMod.val_wf_bound n Hn) as Hb.
    pose proof (Z.mod_pos_bound r (Big.bigint_val n - 3) ltac:(lia)) as Hm.
    split; [apply BigFacts.wf_of_Z|].
    rewrite BigFacts.val_of_Z, Z.mod_small by lia. split; lia.
  - intros Hq. now apply BigSieve.rand_range_short.
Qed.

Lemma X24_random_base_witness :
  let n := Big.bigint_of_Z (2 ^ 1024 - 1) in
  let r := Big.bigint_val (fst (@Big.bigint_rand iso_libc 1)) in
  exists a, @Big.bigint_rand_range iso_libc 1 n 1
            = Some (a, snd (@Big.bigint_rand iso_libc 1)) /\
    Big.wf a /\ Big.bigint_val a = 2 + r mod (Big.bigint_val n - 3) /\
    2 <= Big.bigint_val a <= Big.bigint_val n - 2.
Proof.
  apply (proj1 (proj1 (@X24_random_base iso_libc 1 (Big.bigint_of_Z (2 ^ 1024 - 1)) 1
                         (BigFacts.wf_of_Z _)) ltac:(vm_compute; discriminate))).
  vm_compute. reflexivity.
Defined.

(** X25.  [is_probable_prime_1024] rejects every proper multiple of a prime
    of the table in the sieve stage: the answer is "composite" and no base
    is drawn. *)
Theorem X25_driver_1024_rejects_table_multiples {L : Libc} (fuel : nat)
    (n : Big.bigint1024) (p rounds : Z) (s : rng) :
  Big.wf n -> In p small_primes -> (p | Big.bigint_val n) ->
  Big.bigint_val n <> p ->
  Big.is_probable_prime_1024 fuel n rounds s = Some (false, s).
Proof.
  intros Hn Hin Hd Hne. unfold Big.is_probable_prime_1024.
  pose proof (BigSieve.table_32 p Hin) as Hp.
  assert (Hm : Big.bigint_val n mod p = 0) by (apply Z.mod_divide; [lia|trivial]).
  rewrite BigSieve.sieve_1024_reject; trivial.
  - exact BigSieve.table_32.
  - intros Hn'. apply Hne. symmetry.
    now apply (NativeSieve.small_primes_coprime p (Big.bigint_val n)).
  - now exists p.
Qed.

Lemma X25_driver_1024_rejects_table_multiples_witness :
  @Big.is_probable_prime_1024 iso_libc 0 (Big.bigint_of_Z (199 * 2 ^ 900)) 10 1
  = Some (false, 1).
Proof.
  apply (@X25_driver_1024_rejects_table_multiples iso_libc 0 _ 199).
  - apply BigFacts.wf_of_Z.
  - vm_compute. tauto.
  - rewrite BigFacts.val_of_Z, Z.mod_small by lia.
    exists (2 ^ 900). apply Z.mul_comm.
  - rewrite BigFacts.val_of_Z. vm_compute. discriminate.
Defined.

(** X26.  With a C library whose [rand] returns 15 bits ([RAND_MAX] =
    32767), [bigint_rand] never sets bit 31 of a word, so its value is
    below [2^1023]; and in a candidate of [bigint_rand_odd_1024] bit 31 of
    each of the 31 low words is clear. *)
Theorem X26_rand_1024_bit_31_clear {L : Libc} (s : rng) :
  (forall t, 0 <= fst (rand t) < 2 ^ 15) ->
  Forall (fun w => 0 <= w < 2 ^ 31) (fst (Big.bigint_rand s)) /\
  Big.bigint_val (fst (Big.bigint_rand s)) < 2 ^ 1023 /\
  forall i, (i < 31)%nat ->
    0 <= nth i (fst (Big.bigint_rand_odd_1024 s)) 0 < 2 ^ 31.
Proof.
  intros H15. destruct (BigBits.bigint_rand_31 H15 s) as [H1 H2].
  repeat split; trivial; now apply BigBits.rand_odd_31.
Qed.

Lemma X26_rand_1024_bit_31_clear_witness :
  Forall (fun w => 0 <= w < 2 ^ 31) (fst (@Big.bigint_rand iso_libc 1)) /\
  Big.bigint_val (fst (@Big.bigint_rand iso_libc 1)) < 2 ^ 1023 /\
  forall i, (i < 31)%nat ->
    0 <= nth i (fst (@Big.bigint_rand_odd_1024 iso_libc 1)) 0 < 2 ^ 31.
Proof. apply X26_rand_1024_bit_31_clear. exact NativeBits.iso_rand_15. Defined.

(** X27.  [is_probable_prime_1024] never rejects a prime of at most 512
    bits: with enough fuel for its loops it answers "probably prime",
    whatever the number of rounds and the state of the generator. *)
Theorem X27_driver_1024_accepts_primes {L : Libc} (n : Z) :
  Z.prime n -> n <= 2 ^ 511 ->
  exists bound, forall fuel rounds s, (bound <= fuel)%nat ->
    exists s', Big.is_probable_prime_1024 fuel (Big.bigint_of_Z n) rounds s
               = Some (true, s').
Proof.
  intros Hp Hn. exists (Z.to_nat (2 ^ 1024)). intros fuel rounds s Hf.
  apply BigPrimes.driver_1024_accepts_primes; trivial.
  apply BigPrimes.fuel_bound; [|exact Hf]. apply Z.pow_nonneg. lia.
Qed.

Lemma X27_driver_1024_accepts_primes_witness :
  exists bound, forall fuel rounds s, (bound <= fuel)%nat ->
    exists s', @Big.is_probable_prime_1024 iso_libc fuel (Big.bigint_of_Z 257)
                 rounds s
               = Some (true, s').
Proof.
  apply (@X27_driver_1024_accepts_primes iso_libc 257); [exact prime_257|lia].
Defined.

(** X28.  [bigint_to_hex] with a buffer of at least 257 characters writes
    the value in hexadecimal: the string reads back as the value, it has
    between 1 and 256 lower-case digits, it is "0" for zero and has no
    leading zero otherwise, whatever the buffer held before. *)
Theorem X28_to_hex_round_trip (a : Big.bigint1024) (str : list ascii)
    (buf_size : Z) :
  Big.wf a -> 257 <= buf_size ->
  exists out,
    BigOutput.bigint_to_hex a str buf_size = Some out /\
    hex_val out = Big.bigint_val a /\
    (1 <= length out <= 256)%nat /\
    Forall (fun c => is_hex_digit c = true) out /\
    (Big.bigint_val a = 0 -> out = ["0"%char]) /\
    (Big.bigint_val a <> 0 -> exists c s, out = c :: s /\ hex_digit_val c <> 0).
Proof. apply BigHex.to_hex_spec. Qed.

Lemma X28_to_hex_round_trip_witness :
  exists out,
    BigOutput.bigint_to_hex (Big.bigint_of_Z 48879) [] 1024 = Some out /\
    hex_val out = Big.bigint_val (Big.bigint_of_Z 48879) /\
    (1 <= length out <= 256)%nat /\
    Forall (fun c => is_hex_digit c = true) out /\
    (Big.bigint_val (Big.bigint_of_Z 48879) = 0 -> out = ["0"%char]) /\
    (Big.bigint_val (Big.bigint_of_Z 48879) <> 0 ->
     exists c s, out = c :: s /\ hex_digit_val c <> 0).
Proof. apply X28_to_hex_round_trip; [apply BigFacts.wf_of_Z|lia]. Defined.

(** X29.  The bit length that [generate_1024bit_prime] prints is four times
    the number of hexadecimal digits: it is the bit length of the value
    rounded up to a multiple of 4, and it is 1024 for every value with bit
    1023 set. *)
Theorem X29_printed_bit_length (a : Big.bigint1024) (str : list ascii)
    (buf_size : Z) :
  Big.wf a -> 0 < Big.bigint_val a -> 257 <= buf_size ->
  exists out,
    BigOutput.bigint_to_hex a str buf_size = Some out /\
    BigOutput.bit_count out = 4 * Z.of_nat (length out) /\
    2 ^ (BigOutput.bit_count out - 4) <= Big.bigint_val a
      < 2 ^ BigOutput.bit_count out /\
    (2 ^ 1023 <= Big.bigint_val a -> BigOutput.bit_count out = 1024).
Proof.
  intros Ha Hpos Hs.
  destruct (BigHex.bit_count_spec a str buf_size Ha Hpos Hs)
    as (out & E & Hbc & Hr).
  exists out. repeat split; trivial; try tauto.
  intros Htop. pose proof (BigMod.val_wf_bound a Ha) as Hb.
  set (k := Z.of_nat (length out)) in *. rewrite Hbc in *.
  assert (Hk : 0 <= k) by (subst k; lia).
  assert (H1 : 1023 < 4 * k).
  { apply (Z.pow_lt_mono_r_iff 2); lia. }
  assert (H2 : 4 * k - 4 < 1024).
  { destruct (Z_lt_dec (4 * k - 4) 1024) as [|N]; trivial. exfalso.
    assert (2 ^ 1024 <= 2 ^ (4 * k - 4)) by (apply Z.pow_le_mono_r; lia). lia. }
  lia.
Qed.

Lemma X29_printed_bit_length_witness :
  exists out,
    BigOutput.bigint_to_hex (Big.bigint_of_Z 48879) [] 1024 = Some out /\
    BigOutput.bit_count out = 4 * Z.of_nat (length out) /\
    2 ^ (BigOutput.bit_count out - 4) <= Big.bigint_val (Big.bigint_of_Z 48879)
      < 2 ^ BigOutput.bit_count out /\
    (2 ^ 1023 <= Big.bigint_val (Big.bigint_of_Z 48879) ->
     BigOutput.bit_count out = 1024).
Proof.
  apply X29_printed_bit_length; [apply BigFacts.wf_of_Z| |lia].
  vm_compute. reflexivity.
Defined.

(** X30.  [bigint_to_hex] does not cut its output to the buffer: it
    advances by the full length of every word, so for a value of at least
    [2^992], whose 32 words are all printed, and a buffer of fewer than 241
    characters some word is printed at a position behind the end of the
    buffer, with a negative size. *)
Theorem X30_to_hex_overruns_short_buffer (a : Big.bigint1024)
    (str : list ascii) (buf_size : Z) :
  Big.wf a -> 2 ^ 992 <= Big.bigint_val a -> buf_size < 241 ->
  BigOutput.bigint_to_hex a str buf_size = None.
Proof.
  intros Ha Hv Hs.
  destruct (BigHex.top_word_nonzero a Ha Hv) as (w & rest & Es & Hl & Hw).
  apply (BigHex.to_hex_overrun a str buf_size w rest); trivial.
  - intros ->. discriminate.
  - destruct (BigHex.fmt_x_spec w Hw) as (Hlen & _). rewrite Hl. lia.
Qed.

Lemma X30_to_hex_overruns_short_buffer_witness :
  BigOutput.bigint_to_hex (Big.bigint_of_Z (2 ^ 1023 + 1)) [] 64 = None.
Proof.
  apply X30_to_hex_overruns_short_buffer; [apply BigFacts.wf_of_Z| |lia].
  vm_compute. discriminate.
Defined.
